(** * Distributed number permuter: a shallow embedding of [sanders_perm.hpp]

    The C++ class [sanders_permutation<perm_t>] is executed in SPMD fashion
    by all ranks of [MPI_COMM_WORLD].  The embedding follows the source
    function by function:

    - the block layout computed at the start of [permute];
    - [run_phase1]: random scatter (packing, send counts, all-to-all);
    - [run_phase2]: the local shuffle;
    - [run_phase3]: prefix scan, sender loop and receive loop.

    Integers are [Z] with the wrap-around of their C++ type written out
    ([unsigned int] is 32 bits, [perm_t] is [unsigned long], 64 bits, as
    instantiated in [main.cpp]).  Heap arrays are lists whose length is the
    allocated size; an access outside that size is the fault [OutOfBounds]
    (the Makefile builds with the address sanitizer, which aborts there).
    Loops are transcribed with an explicit iteration budget. *)

From Stdlib Require Import String.
From stdpp Require Import base numbers list sorting.

Local Open Scope Z_scope.

(** ** Machine integers *)

(** Conversion to [unsigned int]. *)
Definition u32 (z : Z) : Z := z mod 2 ^ 32.

(** Conversion to [perm_t] ([unsigned long]). *)
Definition u64 (z : Z) : Z := z mod 2 ^ 64.

(** Conversion to [int] (two's complement). *)
Definition to_int (z : Z) : Z := (z + 2 ^ 31) mod 2 ^ 32 - 2 ^ 31.

Definition sumZ (l : list Z) : Z := foldr Z.add 0 l.

(** ** Faults and the result monad *)

Inductive fault : Type :=
  | OutOfBounds      (* access outside an allocated array *)
  | AssertionFailed  (* an assertion of a library fails and aborts the rank *)
  | InvalidRank      (* point-to-point send to a rank outside the communicator *)
  | Truncated        (* a message longer than the count of its receive *)
  | Deadlock         (* a blocking receive that no message will ever match *)
  | OutOfFuel.       (* iteration budget of the embedding exhausted *)

Inductive result (A : Type) : Type :=
  | Ok (a : A)
  | Fault (f : fault).

Arguments Ok {A} a.
Arguments Fault {A} f.

Definition rbind {A B} (x : result A) (k : A -> result B) : result B :=
  match x with
  | Ok a => k a
  | Fault f => Fault f
  end.

Notation "x <- e1 ;; e2" := (rbind e1 (fun x => e2))
  (at level 100, e1 at next level, right associativity).

Fixpoint foldM {A S} (f : S -> A -> result S) (s : S) (l : list A) : result S :=
  match l with
  | [] => Ok s
  | a :: l' => s' <- f s a;; foldM f s' l'
  end.

Fixpoint mapM {A B} (f : A -> result B) (l : list A) : result (list B) :=
  match l with
  | [] => Ok []
  | a :: l' => b <- f a;; bs <- mapM f l';; Ok (b :: bs)
  end.

(** ** Arrays *)

(** [a[i]] as an rvalue. *)
Definition rd (a : list Z) (i : Z) : result Z :=
  if i <? 0 then Fault OutOfBounds
  else match a !! Z.to_nat i with
       | Some v => Ok v
       | None => Fault OutOfBounds
       end.

(** [a[i] = v]. *)
Definition wr (a : list Z) (i : Z) (v : Z) : result (list Z) :=
  if (0 <=? i) && (i <? Z.of_nat (length a))
  then Ok (<[Z.to_nat i := v]> a)
  else Fault OutOfBounds.

(** The [len] elements starting at [&a[off]], as a message payload.  A
    zero-length transfer touches no memory. *)
Definition rd_range (a : list Z) (off len : Z) : result (list Z) :=
  if len <=? 0 then Ok []
  else if (0 <=? off) && (off + len <=? Z.of_nat (length a))
       then Ok (take (Z.to_nat len) (drop (Z.to_nat off) a))
       else Fault OutOfBounds.

(** Storing a received payload at [&a[off]]. *)
Definition wr_range (a : list Z) (off : Z) (data : list Z) : result (list Z) :=
  match data with
  | [] => Ok a
  | _ =>
    if (0 <=? off) && (off + Z.of_nat (length data) <=? Z.of_nat (length a))
    then Ok (list_inserts (Z.to_nat off) data a)
    else Fault OutOfBounds
  end.

(** ** Loops *)

(** [for (k = k0; cond k; k = step k) body]. *)
Fixpoint for_loop {S : Type} (fuel : nat) (cond : Z -> bool) (step : Z -> Z)
    (body : Z -> S -> result S) (k : Z) (s : S) : result S :=
  match fuel with
  | O => Fault OutOfFuel
  | Datatypes.S fuel' =>
    if cond k
    then s' <- body k s;; for_loop fuel' cond step body (step k) s'
    else Ok s
  end.

(** [while (cond s) s = body s]; the condition may read memory. *)
Fixpoint while_loop {S : Type} (fuel : nat) (cond : S -> result bool)
    (body : S -> result S) (s : S) : result S :=
  match fuel with
  | O => Fault OutOfFuel
  | Datatypes.S fuel' =>
    c <- cond s;;
    if c then s' <- body s;; while_loop fuel' cond body s' else Ok s
  end.

(** [do s = body s while (cond s)]. *)
Definition do_while {S : Type} (fuel : nat) (cond : S -> result bool)
    (body : S -> result S) (s : S) : result S :=
  s' <- body s;; while_loop fuel cond body s'.

(** ** Quotients in double precision (lines 92-94 and 375-376)

    The source divides in [double]: both operands are converted and the
    quotient is rounded, each time to the nearest binary64 number with
    ties to even.  The operands are an unsigned 64-bit and a 32-bit
    integer, so every value lies between [2^-32] and [2^64] and neither
    subnormal numbers nor overflow occur; a binary64 number is written
    [mant * 2^e] with an integer [mant] of at most 53 bits. *)

(** The quotient [a / b] rounded to the nearest integer, ties to even. *)
Definition round_quot (a b : Z) : Z :=
  let q := a / b in
  let r := a mod b in
  if 2 * r <? b then q
  else if b <? 2 * r then q + 1
  else if Z.even q then q else q + 1.

(** [(double)a] for an unsigned integer [a]: exact below [2^53], otherwise
    the nearest multiple of [2^e] that keeps 53 significant bits. *)
Definition to_double (a : Z) : Z :=
  let e := Z.max 0 (Z.log2 a - 52) in
  round_quot a (2 ^ e) * 2 ^ e.

(** The binary64 quotient of two positive integers that are binary64
    numbers themselves, as mantissa and exponent: [e] is chosen such that
    [2^52 <= a / (b * 2^e) < 2^53], and the mantissa is that number
    rounded. *)
Definition double_div (a b : Z) : Z * Z :=
  let e0 := Z.log2 a - Z.log2 b - 52 in
  let e :=
    if a * 2 ^ Z.max 0 (- e0) <? 2 ^ 52 * b * 2 ^ Z.max 0 e0
    then e0 - 1 else e0 in
  (round_quot (a * 2 ^ Z.max 0 (- e)) (b * 2 ^ Z.max 0 e), e).

(** [std::ceil] and [std::floor] of [mant * 2^e]. *)
Definition double_ceil (x : Z * Z) : Z :=
  if 0 <=? x.2 then x.1 * 2 ^ x.2 else - ((- x.1) / 2 ^ (- x.2)).

Definition double_floor (x : Z * Z) : Z :=
  if 0 <=? x.2 then x.1 * 2 ^ x.2 else x.1 / 2 ^ (- x.2).

(** Conversion of an integral [double] to [unsigned int].  C++ defines it
    for values in [[0, 2^32)] only; the x86-64 code of the build converts
    to a signed 64-bit integer and keeps the low 32 bits, which gives 0
    for a value outside 64 bits (an infinity included). *)
Definition double_to_u32 (x : Z) : Z :=
  if (- 2 ^ 63 <=? x) && (x <? 2 ^ 63) then u32 x else 0.

(** [std::ceil((double)n / (double)N)], lines 92 and 94.  For [N = 0] the
    quotient is an infinity or not a number, which [double_to_u32] turns
    into 0; the embedding takes 0 at once.  Below [2^53] the result is the
    integer ceiling (lemma [ceil_quot_exact]). *)
Definition ceil_quot (n N : Z) : Z :=
  if (N =? 0) || (to_double n <=? 0) then 0
  else if 0 <? N then double_ceil (double_div (to_double n) N)
  else - double_floor (double_div (to_double n) (- N)).

(** [std::floor((double)a / (double)b)], lines 375-376, with 0 for
    [b = 0] as in [ceil_quot]. *)
Definition floor_quot (a b : Z) : Z :=
  if (b <=? 0) || (to_double a <=? 0) then 0
  else double_floor (double_div (to_double a) b).

(** ** Block layout (the first lines of [permute]) *)

Record layout : Type := Layout {
  lay_m : Z;        (* unsigned int m *)
  lay_pos : Z;      (* perm_t pos *)
  lay_count : Z;    (* unsigned int count *)
  lay_allocsz : Z   (* unsigned int allocsz *)
}.

Definition block_layout (n : Z) (N rank : Z) : layout :=
  let m := double_to_u32 (ceil_quot n N) in
  let pos := u64 (rank * m) in
  let count := m in
  let count := if u32 ((rank + 1) * m) >? n then u32 (u64 (n - pos)) else count in
  let count := if pos >=? n then 0 else count in
  let allocsz := m in
  let allocsz :=
    if (rank =? to_int (N - 1)) && (count >? 0) then count else allocsz in
  Layout m pos count allocsz.

(** The counts of all ranks of a group of size [N]. *)
Definition block_counts (n N : Z) : list Z :=
  (fun r => lay_count (block_layout n N r)) <$> seqZ 0 N.

(** ** The libraries the source is compiled against

    The generator and the sort come from Boost and the C++ standard library;
    the embedding takes them as a parameter.  [default_engine] is the state
    of a default-constructed [boost::random::mt19937]; [uniform_int lo hi g]
    is one call [dist(gen)] of a [uniform_int_distribution<>(lo, hi)];
    [std_sort comp l] is [std::sort] over the range [l] with comparator
    [comp]. *)
Record library : Type := Library {
  engine : Type;
  default_engine : engine;
  uniform_int : Z -> Z -> engine -> Z * engine;
  std_sort : (Z -> Z -> bool) -> list Z -> list Z
}.

(** What the two libraries guarantee: a draw lies in the closed range of
    its distribution, and sorting by a key rearranges the range into
    ascending key order (nothing is promised about equal keys). *)
Record library_ok (L : library) : Prop := LibraryOk {
  uniform_int_range : forall lo hi g,
    lo <= hi -> lo <= fst (uniform_int L lo hi g) <= hi;
  std_sort_perm : forall (key : Z -> Z) l,
    Permutation (std_sort L (fun i j => key i <? key j) l) l;
  std_sort_sorted : forall (key : Z -> Z) l,
    Sorted (fun i j => key i <= key j)
           (std_sort L (fun i j => key i <? key j) l)
}.

(** A library for running the embedding: the engine replays a tape of raw
    32-bit outputs, reduced to the range of the distribution, and the sort
    is a merge sort. *)
Definition tape_uniform_int (lo hi : Z) (g : list Z) : Z * list Z :=
  match g with
  | [] => (lo, [])
  | x :: g' => (lo + x mod (hi - lo + 1), g')
  end.

Definition cmp_le (cmp : Z -> Z -> bool) (i j : Z) : Prop := cmp j i = false.

Global Instance cmp_le_dec cmp i j : Decision (cmp_le cmp i j).
Proof. unfold cmp_le. apply _. Defined.

Definition tape_library (tape : list Z) : library :=
  Library (list Z) tape tape_uniform_int (fun cmp l => merge_sort (cmp_le cmp) l).

(** ** Phase 1: random scatter *)

(** The comparator [sort_indices(parr)]: indices, taken as [int], compared
    by their key.  This is the value of the comparison when both reads
    are inside [parr]; [phase1_sort] below accounts for the others. *)
Definition sort_indices (parr : list Z) (i j : Z) : bool :=
  (parr !!! Z.to_nat (to_int i)) <? (parr !!! Z.to_nat (to_int j)).

Section Phase1.
Context (L : library).

(** Body of the filling loop, lines 167-171; the state is
    [(sendbuf, destprocs, indices, gen)]. *)
Definition phase1_fill_body (pos hi : Z) (k : Z)
    (st : list Z * list Z * list Z * engine L)
    : result (list Z * list Z * list Z * engine L) :=
  let '(sendbuf, destprocs, indices, gen) := st in
  sendbuf <- wr sendbuf k (u64 (pos + k));;
  let '(d, gen) := uniform_int L 0 hi gen in
  destprocs <- wr destprocs k (u32 d);;
  indices <- wr indices k k;;
  Ok (sendbuf, destprocs, indices, gen).

(** Lines 158-175: allocation, the generator and the distribution, the
    filling loop and the sentinel.  The constructor of
    [uniform_int_distribution<>(0, N-1)] takes its bounds as [int] and
    asserts [min <= max]; the Makefile does not define [NDEBUG], so a
    bound [N - 1] that is negative as [int] aborts the rank at line 165. *)
Definition phase1_fill (count pos N : Z)
    : result (list Z * list Z * list Z) :=
  let len := Z.to_nat (u32 (count + 1)) in
  let hi := to_int (u32 (N - 1)) in
  if hi <? 0 then Fault AssertionFailed else
  st <- for_loop (S (S len))
          (fun k => k <=? u32 (count - 1)) (fun k => u32 (k + 1))
          (phase1_fill_body pos hi) 0
          (replicate len 0, replicate len 0, replicate len 0,
           default_engine L);;
  let '(sendbuf, destprocs, indices, _) := st in
  sendbuf <- wr sendbuf count 0;;
  destprocs <- wr destprocs count N;;
  indices <- wr indices count count;;
  Ok (sendbuf, destprocs, indices).

(** Body of lines 191-193: [sortedsendbuf[i] = sendbuf[indices[i]]]. *)
Definition phase1_gather_body (sendbuf indices : list Z) (i : Z)
    (sortedsendbuf : list Z) : result (list Z) :=
  ix <- rd indices i;;
  v <- rd sendbuf ix;;
  wr sortedsendbuf i v.

Definition phase1_gather (count : Z) (sendbuf indices : list Z)
    : result (list Z) :=
  let len := Z.to_nat (u32 (count + 1)) in
  for_loop (S len) (fun i => i <? u32 (count + 1)) (fun i => u32 (i + 1))
    (phase1_gather_body sendbuf indices) 0 (replicate len 0).

(** Lines 213-219: the send counts.  The state is [(sendcnts, k)];
    [scan_cond] is [rp == destprocs[indices[k]]] and [scan_body] is
    [++sendcnts[rp]; ++k]. *)
Definition scan_cond (destprocs indices : list Z) (rp : Z)
    (st : list Z * Z) : result bool :=
  ix <- rd indices (snd st);;
  d <- rd destprocs ix;;
  Ok (rp =? d).

Definition scan_body (rp : Z) (st : list Z * Z) : result (list Z * Z) :=
  let '(sendcnts, k) := st in
  c <- rd sendcnts rp;;
  sendcnts <- wr sendcnts rp (to_int (c + 1));;
  Ok (sendcnts, to_int (k + 1)).

Definition phase1_sendcnts (count N : Z) (destprocs indices : list Z)
    : result (list Z * Z) :=
  let len := Z.to_nat (u32 (count + 1)) in
  for_loop (S (Z.to_nat N)) (fun rp => rp <=? u32 (N - 1))
    (fun rp => u32 (rp + 1))
    (fun rp st =>
       while_loop (S (S len)) (scan_cond destprocs indices rp)
         (scan_body rp) st)
    0 (replicate (Z.to_nat N) 0, 0).

(** Lines 237-241 and 272-276: displacements as running sums. *)
Definition displs_body (cnts : list Z) (hp : Z) (displs : list Z)
    : result (list Z) :=
  d <- rd displs (hp - 1);;
  c <- rd cnts (hp - 1);;
  wr displs hp (to_int (d + c)).

Definition displacements (N : Z) (cnts : list Z) : result (list Z) :=
  for_loop (S (Z.to_nat N)) (fun hp => hp <=? u32 (N - 1))
    (fun hp => u32 (hp + 1)) (displs_body cnts) 1
    (replicate (Z.to_nat N) 0).

(** Line 188: [std::sort] over [indices] with the comparator
    [sort_indices(destprocs)].  Sorting two or more elements compares
    every one of them at least once, and the comparator reads
    [destprocs] at each argument: an index that is negative as [int], or
    not below the size of the array, is an access outside it. *)
Definition phase1_sort (destprocs indices : list Z) : result (list Z) :=
  _ <- (if (length indices <=? 1)%nat then Ok []
        else mapM (fun i => rd destprocs (to_int i)) indices);;
  Ok (std_sort L (sort_indices destprocs) indices).

(** [run_phase1] up to its first collective: the packed send buffer, the
    send counts and the send displacements of one rank. *)
Definition run_phase1_pack (count pos N : Z)
    : result (list Z * list Z * list Z) :=
  st <- phase1_fill count pos N;;
  let '(sendbuf, destprocs, indices) := st in
  indices <- phase1_sort destprocs indices;;
  sortedsendbuf <- phase1_gather count sendbuf indices;;
  st <- phase1_sendcnts count N destprocs indices;;
  let '(sendcnts, _) := st in
  sdispls <- displacements N sendcnts;;
  Ok (sortedsendbuf, sendcnts, sdispls).
End Phase1.

(** ** The collectives of Phase 1

    A run of the group is described rank by rank; [packs] holds, in rank
    order, what every rank passes to the collectives. *)

(** [MPI_Alltoall] with one element per rank: rank [r] receives element
    [r] of every rank's send counts. *)
Definition MPI_Alltoall (sendcnts : list (list Z)) (r : Z) : result (list Z) :=
  mapM (fun sc => rd sc r) sendcnts.

(** [MPI_Alltoallv] as seen by rank [r]: the block that source [s] sends
    to [r] lies at [sdispls_s[r]] with length [sendcnts_s[r]] in the send
    buffer of [s] and is stored at [rdispls[s]] in [temp]. *)
Definition alltoallv_block (rdispls : list Z) (r : Z) (temp : list Z)
    (src : Z * (list Z * list Z * list Z)) : result (list Z) :=
  let '(s, (sortedsendbuf, sendcnts, sdispls)) := src in
  c <- rd sendcnts r;;
  d <- rd sdispls r;;
  data <- rd_range sortedsendbuf d c;;
  rdsp <- rd rdispls s;;
  wr_range temp rdsp data.

Definition MPI_Alltoallv (packs : list (list Z * list Z * list Z))
    (rdispls : list Z) (r : Z) (temp : list Z) : result (list Z) :=
  foldM (alltoallv_block rdispls r) temp
        (zip (seqZ 0 (Z.of_nat (length packs))) packs).

(** Lines 254-305 of [run_phase1] on rank [r]: receive counts, receive
    displacements, [total], allocation of [temp] and the exchange of the
    values.  Returns [(temp, total)]. *)
Definition total_body (recvcnts : list Z) (rp : Z) (total : Z) : result Z :=
  c <- rd recvcnts rp;; Ok (u32 (total + c)).

Definition run_phase1_exchange (N : Z)
    (packs : list (list Z * list Z * list Z)) (r : Z)
    : result (list Z * Z) :=
  recvcnts <- MPI_Alltoall ((fun p => snd (fst p)) <$> packs) r;;
  rdispls <- displacements N recvcnts;;
  total <- for_loop (S (Z.to_nat N)) (fun rp => rp <=? u32 (N - 1))
             (fun rp => u32 (rp + 1)) (total_body recvcnts) 0 0;;
  temp <- MPI_Alltoallv packs rdispls r (replicate (Z.to_nat total) 0);;
  Ok (temp, total).

(** ** Phase 2: local shuffle *)

Section Phase2.
Context (L : library).

(** Body of the loop, lines 330-334; [t] is declared [int] in the
    source.  The state is [(temp, gen)]. *)
Definition phase2_body (k : Z) (st : list Z * engine L)
    : result (list Z * engine L) :=
  let '(temp, gen) := st in
  let '(l, gen) := uniform_int L 0 k gen in
  tk <- rd temp k;;
  let t := to_int tk in
  tl <- rd temp l;;
  temp <- wr temp k tl;;
  temp <- wr temp l (u64 t);;
  Ok (temp, gen).

(** Lines 325-336. *)
Definition run_phase2 (temp : list Z) (total : Z) : result (list Z) :=
  if total >? 1 then
    st <- for_loop (Z.to_nat total) (fun k => k >=? 1)
            (fun k => to_int (k - 1)) phase2_body
            (to_int (u32 (total - 1))) (temp, default_engine L);;
    Ok (fst st)
  else Ok temp.
End Phase2.

(** ** Phase 3: redistribution *)

(** [MPI_Scan] with [MPI_SUM]: the inclusive prefix sum over the ranks. *)
Definition MPI_Scan (sizes : list Z) (r : Z) : Z :=
  u64 (sumZ (take (S (Z.to_nat r)) sizes)).

(** Line 373: [first = first - size] after the scan. *)
Definition phase3_first (sizes : list Z) (r : Z) : Z :=
  u64 (MPI_Scan sizes r - u64 (sizes !!! Z.to_nat r)).

(** A slice in flight: the HEADER message [(firstp, countp)] (tag 1) and
    the PAYLOAD message (tag 2) of one pair of [MPI_Isend] calls (lines
    407-420).  [msg_firstp] and [msg_countp] are what the two-element
    array [buf] holds at the call.  The sends are non-blocking and are
    completed by [MPI_Wait] only after both loops (lines 458-461), while
    [buf] is written again for every later slice (lines 407-408) and by
    every header receive (line 439): the header that reaches the
    receiver is the content of [buf] at the call, or a later one.  The
    payload is read from [temp], which is not written in Phase 3.  What
    a receiver is handed is decided by the transport, the parameter
    [arrival] of [permute]. *)
Record message : Type := Message {
  msg_src : Z;
  msg_dst : Z;
  msg_firstp : Z;
  msg_countp : Z;
  msg_payload : list Z
}.

(** Lines 401-403: the local copy [perm[k-pos] = temp[k-first]]. *)
Definition copy_body (temp : list Z) (first pos : Z) (k : Z) (perm : list Z)
    : result (list Z) :=
  v <- rd temp (u64 (k - first));;
  wr perm (u64 (k - pos)) v.

(** Body of the sender loop, lines 395-424.  The state is
    [(rp, firstp, remains, perm, sent)]. *)
Definition send_body (N rank : Z) (temp : list Z) (m pos first last : Z)
    (st : Z * Z * Z * list Z * list message)
    : result (Z * Z * Z * list Z * list message) :=
  let '(rp, firstp, remains, perm, sent) := st in
  let lastp := u32 (u32 ((rp + 1) * m) - 1) in
  let lastp := if lastp >? last then last else lastp in
  let countp := u32 (u64 (lastp - firstp + 1)) in
  st <- (if rank =? to_int rp then
           perm <- for_loop (S (S (length perm)))
                     (fun k => k <=? lastp) (fun k => u32 (k + 1))
                     (copy_body temp first pos) (u32 firstp) perm;;
           Ok (u32 (remains - countp), perm, sent)
         else if (0 <=? to_int rp) && (to_int rp <? N) then
           payload <- rd_range temp (u64 (firstp - first)) countp;;
           Ok (remains, perm,
               sent ++ [Message rank (to_int rp) firstp countp payload])
         else Fault InvalidRank);;
  let '(remains, perm, sent) := st in
  Ok (u32 (rp + 1), u64 (firstp + countp), remains, perm, sent).

(** [while (firstp < last)]. *)
Definition send_cond (last : Z) (st : Z * Z * Z * list Z * list message)
    : result bool :=
  let '(rp, firstp, remains, perm, sent) := st in Ok (firstp <? last).

(** Lines 374-430: the sender loop of rank [rank], given [first] as left
    by line 373.  The result is [(remains, perm, sent)]. *)
Definition phase3_send (N rank : Z) (temp : list Z) (sz m pos count : Z)
    (first : Z) (perm : list Z) : result (Z * list Z * list message) :=
  let size := u64 sz in
  let last := u64 (first + size - 1) in
  let rp := double_to_u32 (floor_quot first m) in
  st <- do_while (S (Z.to_nat N)) (send_cond last)
          (send_body N rank temp m pos first last)
          (rp, first, count, perm, []);;
  let '(_, _, remains, perm, sent) := st in
  Ok (remains, perm, sent).

(** Lines 437-455: the receive loop, fed with the slices addressed to this
    rank as the transport hands them over.  The payload receive is posted
    with the count of the header; a longer payload is the error
    [MPI_ERR_TRUNCATE], which is fatal under the default error handler. *)
Fixpoint phase3_recv (pos remains : Z) (perm : list Z) (inbox : list message)
    : result (list Z) :=
  if remains >? 0 then
    match inbox with
    | [] => Fault Deadlock
    | msg :: inbox' =>
      let firstp := msg_firstp msg in
      let countp := u32 (msg_countp msg) in
      if countp <? Z.of_nat (length (msg_payload msg)) then Fault Truncated
      else
      perm <- wr_range perm (u64 (firstp - pos)) (msg_payload msg);;
      phase3_recv pos (u32 (remains - countp)) perm inbox'
    end
  else Ok perm.

(** ** [permute] on the whole group *)

(** [p_out.resize(allocsz)]. *)
Definition resize (v : list Z) (sz : Z) : list Z :=
  take (Z.to_nat sz) v ++ replicate (Z.to_nat sz - length v) 0.

Section Permute.
Context (L : library).

(** [permute] on all ranks up to the end of the sender loops: what every
    rank has left to receive, its output vector so far and the slices it
    has put in flight.  [p_out r] is the vector the caller passes on rank
    [r]. *)
Definition permute_sends (n N : Z) (p_out : Z -> list Z)
    : result (list (Z * list Z * list message)) :=
  let ranks := seqZ 0 N in
  let lay := block_layout n N in
  packs <- mapM (fun r => run_phase1_pack L (lay_count (lay r))
                            (lay_pos (lay r)) (u32 N)) ranks;;
  temps <- mapM (run_phase1_exchange (u32 N) packs) ranks;;
  temps <- mapM (fun '(temp, sz) =>
                   temp <- run_phase2 L temp sz;; Ok (temp, sz)) temps;;
  let sizes := snd <$> temps in
  mapM (fun '(r, (temp, sz)) =>
          phase3_send N r temp sz (lay_m (lay r)) (lay_pos (lay r))
            (lay_count (lay r)) (phase3_first sizes r)
            (resize (p_out r) (lay_allocsz (lay r))))
       (zip ranks temps).

(** Everything the sender loops have put in flight, rank after rank, the
    slices of one rank in the order of its loop. *)
Definition in_flight (sends : list (Z * list Z * list message))
    : list message :=
  concat ((fun s => snd s) <$> sends).

(** [arrival r] is the transport as rank [r] sees it: given the slices in
    flight that are addressed to [r] it returns what the wildcard
    receives of [r] are handed, in the order in which they match, with
    the headers as they are transmitted.  The result lists the output
    vectors in rank order. *)
Definition permute (arrival : Z -> list message -> list message)
    (n N : Z) (p_out : Z -> list Z) : result (list (list Z)) :=
  sends <- permute_sends n N p_out;;
  let sent := in_flight sends in
  mapM (fun '(r, (remains, perm, _)) =>
          phase3_recv (lay_pos (block_layout n N r)) remains perm
            (arrival r (filter (fun msg => msg_dst msg = r) sent)))
       (zip (seqZ 0 N) sends).
End Permute.

(** ** The transport of Phase 3

    An eager transport takes the header out of [buf] during the call of
    [MPI_Isend]: every slice is handed over with the header written for
    it, and only the order in which the receives match is open. *)
Definition eager (arrival : Z -> list message -> list message) : Prop :=
  forall r inbox, Permutation (arrival r inbox) inbox.

Definition header_of (msg : message) : Z * Z :=
  (msg_firstp msg, msg_countp msg).

(** The slice as the receiver sees it when its header is transmitted
    while [buf] holds [hdr]. *)
Definition with_header (hdr : Z * Z) (msg : message) : message :=
  Message (msg_src msg) (msg_dst msg) hdr.1 hdr.2 (msg_payload msg).

(** The contents of [buf] on the sending rank from the call for the
    [i]-th slice in flight until the end of its sender loop: the header of
    that slice, then the headers of the slices the same rank sends after
    it.  (The receive loop writes further headers into [buf]; they are
    left out, so this list errs on the side of the eager transport.) *)
Definition buf_after (sent : list message) (i : nat) : list (Z * Z) :=
  match sent !! i with
  | Some msg =>
    header_of <$> filter (fun later => msg_src later = msg_src msg)
                    (drop i sent)
  | None => []
  end.

(** What a transport that completes a send at any time up to [MPI_Wait]
    may hand over for the slices [inbox], a part of [sent]: the
    same slices in some order, each with a header that [buf] of its
    sender holds at the call or later. *)
Definition may_deliver (sent inbox inbox' : list message) : Prop :=
  exists l,
    Permutation inbox' l
    /\ Forall2 (fun msg msg' =>
                  exists (i : nat) hdr,
                    sent !! i = Some msg /\ hdr ∈ buf_after sent i
                    /\ msg' = with_header hdr msg) inbox l.

(** The transport that hands over, in the order of the calls, every
    slice as it was sent, except that the header of the slice from rank
    [src] to rank [dst] is transmitted while [buf] holds [hdr]. *)
Definition late_header (hdr : Z * Z) (src dst : Z) (r : Z)
    (inbox : list message) : list message :=
  (fun msg => if (msg_src msg =? src) && (msg_dst msg =? dst)
              then with_header hdr msg else msg) <$> inbox.

(** ** Fisher-Yates as the specification words it

    "For k = total - 1 down to 1, draw l = uniform_int(0, k) and swap
    positions k and l.  If total <= 1 the buffer is left unchanged."  This
    definition follows that sentence, not the source; it is what
    [run_phase2] is compared with. *)

Definition swap (buf : list Z) (i j : nat) : list Z :=
  <[j := buf !!! i]> (<[i := buf !!! j]> buf).

Fixpoint fisher_yates_from (L : library) (k : nat) (buf : list Z)
    (gen : engine L) : list Z :=
  match k with
  | O => buf
  | S k' =>
    let '(l, gen) := uniform_int L 0 (Z.of_nat k) gen in
    fisher_yates_from L k' (swap buf k (Z.to_nat l)) gen
  end.

Definition fisher_yates (L : library) (buf : list Z) : list Z :=
  fisher_yates_from L (length buf - 1) buf (default_engine L).

(** ** What one rank prints and issues before its first collective

    The code of one rank from the entry of [permute] to the call of
    [MPI_Alltoall] (lines 85-116 and 158-256), with what it writes to
    [std::cout]: the line of [error] and the lines under [PRINT_DEBUG],
    which the Makefile defines.  A computation returns its result or
    fault together with the events it has produced so far. *)
Inductive event : Type :=
  | Error (mpifn desc : string)          (* the line printed by [error] *)
  | Debug (text : string) (values : list Z)  (* a [PRINT_DEBUG] line *)
  | Collective (name : string)           (* the rank enters a collective *)
  | Aborted (f : fault).                 (* the rank stops *)

Definition traced (A : Type) : Type := list event * result A.

Definition tret {A} (a : A) : traced A := ([], Ok a).

Definition tbind {A B} (x : traced A) (k : A -> traced B) : traced B :=
  match x with
  | (tr, Ok a) => let '(tr', r) := k a in (tr ++ tr', r)
  | (tr, Fault f) => (tr, Fault f)
  end.

Notation "x <~ e1 ;; e2" := (tbind e1 (fun x => e2))
  (at level 100, e1 at next level, right associativity).

Definition lift {A} (r : result A) : traced A := ([], r).

Definition emit (e : event) : traced unit := ([e], Ok tt).


(** A line under [#ifdef PRINT_DEBUG]; [values] reads what is printed. *)
Definition debug (enabled : bool) (text : string) (values : result (list Z))
    : traced unit :=
  if enabled then vs <~ lift values;; emit (Debug text vs) else tret tt.

(** The loops that print pairs [(keys[i], vals[i])] and single elements
    [a[i]] for [i < len]. *)
Definition read_pairs (keys vals : Z -> result Z) (len : Z)
    : result (list Z) :=
  ps <- mapM (fun i => d <- keys i;; v <- vals i;; Ok [d; v]) (seqZ 0 len);;
  Ok (concat ps).

Definition read_all (a : list Z) (len : Z) : result (list Z) :=
  mapM (rd a) (seqZ 0 len).

(** [run_phase1] from its entry to the call of [MPI_Alltoall] (lines
    158-256).  [debug_rank] is the member of that name, which the class
    never initialises. *)
Definition run_phase1_head (L : library) (PRINT_DEBUG : bool)
    (rank debug_rank : Z) (count pos N : Z)
    : traced (list Z * list Z * list Z) :=
  let here := PRINT_DEBUG && (rank =? debug_rank) in
  st <~ lift (phase1_fill L count pos N);;
  let '(sendbuf, destprocs, indices) := st in
  _ <~ debug PRINT_DEBUG "printing unsorted ..."
         (read_pairs (rd destprocs) (rd sendbuf) (u32 (count + 1)));;
  indices <~ lift (phase1_sort L destprocs indices);;
  sortedsendbuf <~ lift (phase1_gather count sendbuf indices);;
  _ <~ debug here "printing sorted ..."
         (read_pairs (fun i => ix <- rd indices i;; rd destprocs ix)
            (rd sortedsendbuf) (u32 (count + 1)));;
  st <~ lift (phase1_sendcnts count N destprocs indices);;
  let '(sendcnts, _) := st in
  _ <~ debug here "printing sendcnts..." (read_all sendcnts N);;
  sdispls <~ lift (displacements N sendcnts);;
  _ <~ debug here "printing displacements..." (read_all sdispls N);;
  _ <~ emit (Collective "MPI_Alltoall");;
  tret (sortedsendbuf, sendcnts, sdispls).




Definition is_collective (e : event) : Prop :=
  match e with Collective _ => True | _ => False end.

(** ** Slices in flight

    Notions used to state what the receive loop is fed with.  A slice
    covers the global positions [[msg_firstp, msg_end)]. *)

Definition msg_end (msg : message) : Z := msg_firstp msg + msg_countp msg.

(** The slice carries as many elements as its header announces and lies
    inside the output vector of a rank whose block starts at [pos] and
    whose vector has [len] elements. *)
Definition msg_fits (pos : Z) (len : nat) (msg : message) : Prop :=
  0 <= msg_countp msg < 2 ^ 32
  /\ Z.of_nat (length (msg_payload msg)) = msg_countp msg
  /\ pos <= msg_firstp msg
  /\ msg_end msg - pos <= Z.of_nat len
  /\ msg_firstp msg - pos < 2 ^ 64.

Definition msg_before (a b : message) : Prop := msg_end a <= msg_firstp b.

Definition msg_disjoint (a b : message) : Prop :=
  msg_before a b \/ msg_before b a.

Fixpoint all_disjoint (l : list message) : Prop :=
  match l with
  | [] => True
  | a :: l' => Forall (msg_disjoint a) l' /\ all_disjoint l'
  end.

(** All slices of [msgs] stored into [perm], in the order of the list. *)
Definition deliver (pos : Z) (perm : list Z) (msgs : list message) : list Z :=
  foldl (fun perm msg =>
           list_inserts (Z.to_nat (msg_firstp msg - pos)) (msg_payload msg)
             perm)
        perm msgs.

(** The number of positions of [[a, b)] that fall into [[c, d)]. *)
Definition overlap (a b c d : Z) : Z := Z.max 0 (Z.min b d - Z.max a c).

(** What the sender loop of rank [rank], which holds the positions
    [[first, first + sz)], may put in flight: a slice of its own positions
    that lies in the block of another rank [msg_dst]. *)
Definition slice_ok (N rank m first sz : Z) (msg : message) : Prop :=
  msg_src msg = rank
  /\ 0 <= msg_dst msg < N /\ msg_dst msg <> rank
  /\ msg_dst msg * m <= msg_firstp msg
  /\ msg_end msg <= (msg_dst msg + 1) * m
  /\ first <= msg_firstp msg /\ msg_end msg <= first + sz
  /\ 0 <= msg_countp msg
  /\ Z.of_nat (length (msg_payload msg)) = msg_countp msg.

(** Invariant of the sender loop: the positions [[first, firstp)] have
    been handled, the slices sent so far are in ascending order, and
    [remains] has dropped by no more than the part of the own block
    handled so far. *)
Definition send_inv (N rank m first sz count : Z)
    (st : Z * Z * Z * list Z * list message) : Prop :=
  let '(rp, firstp, remains, perm, sent) := st in
  first <= firstp <= first + sz
  /\ Forall (slice_ok N rank m first sz) sent
  /\ Forall (fun msg => msg_end msg <= firstp) sent
  /\ StronglySorted msg_before sent
  /\ 0 <= remains <= count
  /\ count - remains <= overlap first firstp (rank * m) ((rank + 1) * m)
  /\ length perm = Z.to_nat count.

(** At the head of an iteration [firstp] lies in the block of [rp]. *)
Definition send_head (m : Z) (st : Z * Z * Z * list Z * list message)
    : Prop :=
  let '(rp, firstp, remains, perm, sent) := st in
  0 <= rp /\ rp * m <= firstp < (rp + 1) * m.

(** ** [verify]

    Lines 70-78: [std::sort] over the whole vector with the default
    comparison, then a loop over the sorted vector whose body is empty.
    The vector is passed by reference; the result is its content after
    the call. *)
Definition verify (L : library) (N : Z) (p_out : list Z) : list Z :=
  let p_out := std_sort L (fun i j => i <? j) p_out in
  foldl (fun v _ => v) p_out p_out.

(** The first [k] results of [dist(gen)] in the filling loop of
    [run_phase1], starting from the default-constructed generator, and the
    generator they leave behind. *)
Fixpoint phase1_draws (L : library) (hi : Z) (k : nat) : list Z * engine L :=
  match k with
  | O => ([], default_engine L)
  | S k' =>
    let '(ds, gen) := phase1_draws L hi k' in
    let '(d, gen) := uniform_int L 0 hi gen in
    (ds ++ [d], gen)
  end.

(** The block of its packed send buffer that a rank addresses to rank
    [r]: [sendcnts[r]] elements from [sdispls[r]] on. *)
Definition segment (p : list Z * list Z * list Z) (r : nat) : list Z :=
  take (Z.to_nat (p.1.2 !!! r)) (drop (Z.to_nat (p.2 !!! r)) p.1.1).

(** A rank's pack as the collectives need it: counts and displacements
    for rank [r] exist and describe a block inside the send buffer. *)
Definition pack_block_ok (r : nat) (p : list Z * list Z * list Z) : Prop :=
  (r < length p.1.2)%nat /\ (r < length p.2)%nat
  /\ 0 <= p.1.2 !!! r /\ 0 <= p.2 !!! r
  /\ p.2 !!! r + p.1.2 !!! r <= Z.of_nat (length p.1.1).

(** ** The slices of one sender

    One iteration of the sender loop of rank [rank] handles one slice of
    the positions [[first, first + sz)] the rank holds: the part that
    lies in the block of one rank [msg_dst], with the elements
    [temp[firstp - first ..]].  The slice is copied into the own vector
    when [msg_dst] is the rank itself and put in flight otherwise. *)
Definition slice_of (N rank m first sz : Z) (temp : list Z) (msg : message)
    : Prop :=
  msg_src msg = rank
  /\ 0 <= msg_dst msg < N
  /\ msg_dst msg * m <= msg_firstp msg
  /\ msg_end msg <= (msg_dst msg + 1) * m
  /\ first <= msg_firstp msg /\ msg_end msg <= first + sz
  /\ 0 <= msg_countp msg
  /\ msg_payload msg
     = take (Z.to_nat (msg_countp msg))
         (drop (Z.to_nat (msg_firstp msg - first)) temp).

(** One iteration takes all that is left of the held range in the block
    of its rank, and that is at least one position when the rank holds
    any. *)
Definition whole_slice (m first sz : Z) (msg : message) : Prop :=
  msg_end msg = Z.min ((msg_dst msg + 1) * m) (first + sz)
  /\ (1 <= sz -> 1 <= msg_countp msg).

(** The position at which the sender loop stops: the loop is left as soon
    as [firstp >= last], which is one position early when [last] is the
    first position of a block other than the one the loop started in. *)
Definition handled_end (m first sz : Z) : Z :=
  if decide (2 <= sz /\ (first + sz - 1) mod m = 0)
  then first + sz - 1 else first + sz.

(** The state of the sender loop after the slices [slices] (in the order
    of the iterations): they tile [[first, firstp)], the ones for other
    ranks are in flight, the one for the rank itself is in [perm]. *)
Definition send_trace (N rank m first sz count : Z) (temp perm0 : list Z)
    (slices : list message) (st : Z * Z * Z * list Z * list message)
    : Prop :=
  let '(rp, firstp, remains, perm, sent) := st in
  first <= firstp <= first + sz
  /\ Forall (slice_of N rank m first sz temp) slices
  /\ Forall (fun msg => msg_end msg <= firstp /\ msg_dst msg < rp) slices
  /\ StronglySorted msg_before slices
  /\ sumZ (msg_countp <$> slices) = firstp - first
  /\ sent = filter (fun msg => msg_dst msg <> rank) slices
  /\ perm = deliver (rank * m) perm0
              (filter (fun msg => msg_dst msg = rank) slices)
  /\ remains
     = count - sumZ (msg_countp
                     <$> filter (fun msg => msg_dst msg = rank) slices)
  /\ Forall (whole_slice m first sz) slices.

(** The slices follow one another without gap from position [lo] to
    position [hi]. *)
Fixpoint tiles (lo hi : Z) (slices : list message) : Prop :=
  match slices with
  | [] => lo = hi
  | msg :: rest => msg_firstp msg = lo /\ tiles (msg_end msg) hi rest
  end.

(** What the sender loop leaves behind, in terms of the slices of its
    iterations: they tile the positions from [first] to [handled_end],
    one slice for each block that the range meets. *)
Definition sender_done (N rank m first sz count : Z) (temp perm0 : list Z)
    (slices : list message) (res : Z * list Z * list message) : Prop :=
  let '(remains, perm, sent) := res in
  Forall (slice_of N rank m first sz temp) slices
  /\ StronglySorted msg_before slices
  /\ sumZ (msg_countp <$> slices) = handled_end m first sz - first
  /\ sent = filter (fun msg => msg_dst msg <> rank) slices
  /\ perm = deliver (rank * m) perm0
              (filter (fun msg => msg_dst msg = rank) slices)
  /\ remains
     = count - sumZ (msg_countp
                     <$> filter (fun msg => msg_dst msg = rank) slices)
  /\ tiles first (handled_end m first sz) slices
  /\ Forall (whole_slice m first sz) slices.

(** ** [main]

    [main.cpp]: the driver permutes [n = 32] indices on the [N] processes
    of [MPI_COMM_WORLD], starting from an empty vector on every rank, and
    drops the result. *)
Definition main (L : library) (arrival : Z -> list message -> list message)
    (N : Z) : result unit :=
  rbind (permute L arrival 32 N (fun _ => [])) (fun _ => Ok tt).

(** * Properties *)

(** ** Machine integers and arrays *)

Lemma u32_small z : 0 <= z < 2 ^ 32 -> u32 z = z.
Proof. intros. unfold u32. by rewrite Z.mod_small. Qed.

Lemma u64_small z : 0 <= z < 2 ^ 64 -> u64 z = z.
Proof. intros. unfold u64. by rewrite Z.mod_small. Qed.

Lemma to_int_small z : - 2 ^ 31 <= z < 2 ^ 31 -> to_int z = z.
Proof. intros. unfold to_int. rewrite Z.mod_small; lia. Qed.

Lemma sumZ_app l1 l2 : sumZ (l1 ++ l2) = sumZ l1 + sumZ l2.
Proof. induction l1 as [|x l1 IH]; simpl; lia. Qed.

(** ** Quotients in double precision *)

Lemma double_to_u32_small x : 0 <= x < 2 ^ 32 -> double_to_u32 x = x.
Proof.
  intros Hx. unfold double_to_u32.
  destruct (Z.leb_spec (- 2 ^ 63) x); [|lia].
  destruct (Z.ltb_spec x (2 ^ 63)); [|lia]. by apply u32_small.
Qed.

Lemma round_quot_cases a b :
  0 < b ->
  (2 * (a mod b) < b -> round_quot a b = a / b)
  /\ (b < 2 * (a mod b) -> round_quot a b = a / b + 1)
  /\ a / b <= round_quot a b <= a / b + 1.
Proof.
  intros Hb. unfold round_quot.
  destruct (Z.ltb_spec (2 * (a mod b)) b);
    [|destruct (Z.ltb_spec b (2 * (a mod b)));
      [|destruct (Z.even (a / b))]]; lia.
Qed.

Lemma to_double_small a : 0 <= a < 2 ^ 53 -> to_double a = a.
Proof.
  intros Ha. unfold to_double.
  assert (Hl : Z.log2 a <= 52).
  { destruct (decide (a = 0)) as [->|Hne]; [done|].
    assert (Z.log2 a < 53); [|lia]. apply Z.log2_lt_pow2; lia. }
  rewrite Z.max_l by lia. change (2 ^ 0) with 1.
  destruct (round_quot_cases a 1 ltac:(lia)) as (Hd & _).
  rewrite Hd, Z.div_1_r by (rewrite Z.mod_1_r; lia). lia.
Qed.

(** The exponent that [double_div] chooses scales the quotient to at
    least [2^52]. *)
Lemma double_div_scale a b :
  0 < a -> 0 < b ->
  2 ^ 52 * (b * 2 ^ Z.max 0 (double_div a b).2)
  <= a * 2 ^ Z.max 0 (- (double_div a b).2).
Proof.
  intros Ha Hb. unfold double_div. cbn [snd].
  set (e0 := Z.log2 a - Z.log2 b - 52).
  destruct (Z.ltb_spec (a * 2 ^ Z.max 0 (- e0))
              (2 ^ 52 * b * 2 ^ Z.max 0 e0)) as [_|Hge]; [|lia].
  destruct (Z.log2_spec a Ha) as [Hla _].
  destruct (Z.log2_spec b Hb) as [_ Hlb].
  pose proof (Z.log2_nonneg a). pose proof (Z.log2_nonneg b).
  destruct (decide (0 <= e0 - 1)) as [He|He].
  - rewrite (Z.max_r 0 (e0 - 1)), (Z.max_l 0 (- (e0 - 1))) by lia.
    change (2 ^ 0) with 1.
    assert (Hp : 2 ^ Z.log2 a
                 = 2 ^ 52 * (2 ^ Z.succ (Z.log2 b) * 2 ^ (e0 - 1))).
    { rewrite <- !Z.pow_add_r by lia. f_equal. unfold e0. lia. }
    assert (0 < 2 ^ (e0 - 1)) by (apply Z.pow_pos_nonneg; lia).
    nia.
  - rewrite (Z.max_l 0 (e0 - 1)), (Z.max_r 0 (- (e0 - 1))) by lia.
    change (2 ^ 0) with 1.
    assert (Hp : 2 ^ Z.log2 a * 2 ^ (- (e0 - 1))
                 = 2 ^ 52 * 2 ^ Z.succ (Z.log2 b)).
    { rewrite <- !Z.pow_add_r by lia. f_equal. unfold e0. lia. }
    assert (0 < 2 ^ (- (e0 - 1))) by (apply Z.pow_pos_nonneg; lia).
    nia.
Qed.

(** Below [2^53] the quotient is scaled by a power of two [p] with
    [b < 2 * p], and rounded at that scale. *)
Lemma double_div_small a b :
  0 < a < 2 ^ 53 -> 0 < b ->
  exists p,
    1 <= p /\ b < 2 * p
    /\ double_ceil (double_div a b) = - ((- round_quot (a * p) b) / p)
    /\ double_floor (double_div a b) = round_quot (a * p) b / p.
Proof.
  intros Ha Hb. pose proof (double_div_scale a b ltac:(lia) Hb) as Hs.
  unfold double_ceil, double_floor.
  destruct (double_div a b) as [mant e] eqn:Hd. cbn [fst snd] in *.
  assert (Hm : mant = round_quot (a * 2 ^ Z.max 0 (- e)) (b * 2 ^ Z.max 0 e)).
  { unfold double_div in Hd. injection Hd as <- <-. done. }
  assert (He : e <= 0).
  { destruct (decide (e <= 0)) as [|Hgt]; [done|]. exfalso.
    rewrite (Z.max_r 0 e), (Z.max_l 0 (- e)) in Hs by lia.
    change (2 ^ 0) with 1 in Hs.
    assert (2 ^ 1 <= 2 ^ e) by (apply Z.pow_le_mono_r; lia).
    change (2 ^ 1) with 2 in *. nia. }
  rewrite (Z.max_l 0 e), (Z.max_r 0 (- e)) in * by lia.
  change (2 ^ 0) with 1 in *. rewrite Z.mul_1_r in *.
  assert (Hp : 1 <= 2 ^ (- e)).
  { change 1 with (2 ^ 0) at 1. apply Z.pow_le_mono_r; lia. }
  exists (2 ^ (- e)). split; [done|]. split; [nia|]. subst mant.
  destruct (Z.leb_spec 0 e); [|done].
  assert (e = 0) as -> by lia. change (2 ^ (- 0)) with 1.
  rewrite !Z.mul_1_r, !Z.div_1_r. split; lia.
Qed.

Lemma ceil_quot_exact n N :
  0 <= n < 2 ^ 53 -> 1 <= N -> ceil_quot n N = - ((- n) / N).
Proof.
  intros Hn HN. unfold ceil_quot. rewrite to_double_small by done.
  destruct (Z.eqb_spec N 0); [lia|]. cbn [orb].
  destruct (Z.leb_spec n 0).
  { assert (n = 0) as -> by lia. simpl. by rewrite Z.div_0_l by lia. }
  destruct (Z.ltb_spec 0 N); [|lia].
  destruct (double_div_small n N ltac:(lia) ltac:(lia))
    as (p & Hp & HNp & -> & _).
  set (c := - (- n / N)).
  assert (Hc : (c - 1) * N < n <= c * N).
  { unfold c. pose proof (Z.div_mod (- n) N ltac:(lia)).
    pose proof (Z.mod_pos_bound (- n) N ltac:(lia)). nia. }
  destruct (round_quot_cases (n * p) N ltac:(lia)) as (_ & Hup & Hb).
  pose proof (Z.div_mod (n * p) N ltac:(lia)) as Hdm.
  pose proof (Z.mod_pos_bound (n * p) N ltac:(lia)) as Hr.
  set (Q := n * p / N) in *. set (R := (n * p) mod N) in *.
  assert (Hlo : (c - 1) * p < round_quot (n * p) N).
  { assert (HQ : (c - 1) * p <= Q) by nia.
    destruct (decide (Q = (c - 1) * p)) as [HQe|]; [|lia].
    rewrite Hup; [lia|]. nia. }
  assert (Hhi : round_quot (n * p) N <= c * p).
  { assert (HQ : Q <= c * p) by nia.
    destruct (decide (Q = c * p)) as [HQe|]; [|lia].
    destruct (round_quot_cases (n * p) N ltac:(lia)) as (Hdn & _).
    fold Q R in Hdn. rewrite Hdn; [lia|]. nia. }
  clearbody c. clear -Hlo Hhi Hp.
  set (x := round_quot (n * p) N) in *. clearbody x.
  assert (- x / p = - c); [|lia].
  symmetry. apply (Z.div_unique_pos _ _ _ (c * p - x)); lia.
Qed.

Lemma floor_quot_exact a b :
  0 <= a < 2 ^ 53 -> 1 <= b -> floor_quot a b = a / b.
Proof.
  intros Ha Hb. unfold floor_quot. rewrite to_double_small by done.
  destruct (Z.leb_spec b 0); [lia|]. cbn [orb].
  destruct (Z.leb_spec a 0).
  { assert (a = 0) as -> by lia. by rewrite Z.div_0_l by lia. }
  destruct (double_div_small a b ltac:(lia) ltac:(lia))
    as (p & Hp & Hbp & _ & ->).
  set (q := a / b).
  assert (Hq : q * b <= a < (q + 1) * b).
  { unfold q. pose proof (Z.div_mod a b ltac:(lia)).
    pose proof (Z.mod_pos_bound a b ltac:(lia)). nia. }
  destruct (round_quot_cases (a * p) b ltac:(lia)) as (Hdn & _ & Hbd).
  pose proof (Z.div_mod (a * p) b ltac:(lia)) as Hdm.
  pose proof (Z.mod_pos_bound (a * p) b ltac:(lia)) as Hr.
  set (Q := a * p / b) in *. set (R := (a * p) mod b) in *.
  assert (Hlo : q * p <= round_quot (a * p) b).
  { assert (HQ : q * p <= Q) by nia. lia. }
  assert (Hhi : round_quot (a * p) b < (q + 1) * p).
  { assert (HQ : Q < (q + 1) * p) by nia.
    destruct (decide (Q = (q + 1) * p - 1)) as [HQe|]; [|lia].
    rewrite Hdn; [lia|]. nia. }
  clearbody q. clear -Hlo Hhi Hp.
  set (x := round_quot (a * p) b) in *. clearbody x.
  symmetry. apply (Z.div_unique_pos _ _ _ (x - q * p)); lia.
Qed.

(** The rank that owns position [first], as line 376 computes it. *)
Lemma first_owner first m :
  0 <= first < 2 ^ 32 -> 1 <= m ->
  double_to_u32 (floor_quot first m) = first / m.
Proof.
  intros Hf Hm. rewrite floor_quot_exact by lia.
  apply double_to_u32_small.
  pose proof (Z.mul_div_le first m ltac:(lia)).
  assert (0 <= first / m) by (apply Z.div_pos; lia).
  assert (first / m * 1 <= first / m * m)
    by (apply Z.mul_le_mono_nonneg_l; lia).
  lia.
Qed.

(** ** Block layout *)

Lemma ceil_quot_spec n N :
  0 <= n < 2 ^ 53 -> 1 <= N ->
  (ceil_quot n N - 1) * N < n <= ceil_quot n N * N.
Proof.
  intros Hn HN. rewrite ceil_quot_exact by done.
  pose proof (Z.div_mod (- n) N ltac:(lia)) as Hdm.
  pose proof (Z.mod_pos_bound (- n) N ltac:(lia)) as Hmod.
  nia.
Qed.

Lemma ceil_quot_bounds n N :
  0 <= n < 2 ^ 53 -> 1 <= N -> 0 <= ceil_quot n N <= n.
Proof. intros Hn HN. pose proof (ceil_quot_spec n N Hn HN). nia. Qed.

Section Layout.
Variables n P : Z.
Hypothesis Hn : 0 <= n.
Hypothesis HP : 1 <= P.
Hypothesis Hfit : n + P <= 2 ^ 32.

Let m := ceil_quot n P.

Lemma layout_m_bounds : 0 <= m <= n /\ (m - 1) * P < n <= m * P.
Proof.
  split; [apply ceil_quot_bounds | apply ceil_quot_spec]; lia.
Qed.

Lemma layout_prod_fits r : 0 <= r <= P -> 0 <= r * m < 2 ^ 32.
Proof. destruct layout_m_bounds. intros. nia. Qed.

Lemma block_layout_m r : lay_m (block_layout n P r) = m.
Proof.
  destruct layout_m_bounds. simpl. fold m. apply double_to_u32_small. lia.
Qed.

Lemma block_layout_pos r : 0 <= r < P -> lay_pos (block_layout n P r) = r * m.
Proof.
  intros Hr. destruct layout_m_bounds. simpl. fold m.
  rewrite (double_to_u32_small m) by lia.
  pose proof (layout_prod_fits r ltac:(lia)). apply u64_small. lia.
Qed.

Lemma block_layout_count r :
  0 <= r < P ->
  lay_count (block_layout n P r) = Z.max 0 (Z.min m (n - r * m)).
Proof.
  intros Hr. destruct layout_m_bounds as [Hm Hc].
  pose proof (layout_prod_fits r ltac:(lia)) as Hrm.
  pose proof (layout_prod_fits (r + 1) ltac:(lia)) as Hrm1.
  simpl. fold m. rewrite (double_to_u32_small m) by lia.
  rewrite (u32_small ((r + 1) * m)) by lia.
  rewrite (u64_small (r * m)) by lia.
  destruct (Z.geb_spec (r * m) n) as [Hge|Hlt]; [lia|].
  destruct (Z.gtb_spec ((r + 1) * m) n) as [Hgt|Hle]; [|lia].
  rewrite u64_small by lia. rewrite u32_small by lia. lia.
Qed.

Lemma block_counts_prefix (k : nat) :
  Z.of_nat k <= P ->
  sumZ ((fun r => lay_count (block_layout n P r)) <$> seqZ 0 (Z.of_nat k))
  = Z.min n (Z.of_nat k * m).
Proof.
  destruct layout_m_bounds as [Hm Hc].
  induction k as [|k IH]; intros Hk.
  - rewrite seqZ_nil by lia. simpl. lia.
  - rewrite seqZ_S, fmap_app, sumZ_app, IH by lia.
    change (sumZ (?f <$> [?x])) with (f x + 0). cbv beta.
    rewrite block_layout_count by lia. nia.
Qed.

Lemma block_counts_sum : sumZ (block_counts n P) = n.
Proof.
  destruct layout_m_bounds as [Hm Hc]. unfold block_counts.
  replace (seqZ 0 P) with (seqZ 0 (Z.of_nat (Z.to_nat P)))
    by (by rewrite Z2Nat.id by lia).
  rewrite block_counts_prefix by lia. rewrite Z2Nat.id by lia. lia.
Qed.
End Layout.

(** C4 (as the code has it).  With [m] the ceiling of [n / P] and
    [pos_r = r * m], the count of rank [r] is [n - pos_r] when
    [(r+1) * m > n] and [pos_r < n], [0] when [pos_r >= n], and [m]
    otherwise; so every count lies in [[0, m]], the last rank holds
    [max 0 (n - (P-1) * m)], and the counts sum to [n]. *)
Theorem block_layout_contract n P r :
  0 <= n -> 1 <= P -> n + P <= 2 ^ 32 -> 0 <= r < P ->
  let lay := block_layout n P r in
  let m := lay_m lay in
  (m - 1) * P < n <= m * P
  /\ lay_pos lay = r * m
  /\ ((r + 1) * m > n -> lay_pos lay < n -> lay_count lay = n - lay_pos lay)
  /\ (lay_pos lay >= n -> lay_count lay = 0)
  /\ ((r + 1) * m <= n -> lay_count lay = m)
  /\ 0 <= lay_count lay <= m
  /\ (r = P - 1 -> lay_count lay = Z.max 0 (n - (P - 1) * m))
  /\ sumZ (block_counts n P) = n.
Proof.
  intros Hn HP Hfit Hr lay m. subst lay m.
  rewrite block_layout_m, block_layout_pos, block_layout_count by done.
  destruct (layout_m_bounds n P Hn HP Hfit) as [Hm Hc].
  pose proof (block_counts_sum n P Hn HP Hfit).
  repeat split; try lia; try nia.
Qed.

Lemma block_layout_contract_witness :
  sumZ (block_counts 10 4) = 10
  /\ lay_count (block_layout 10 4 3) = 1.
Proof.
  pose proof (block_layout_contract 10 4 3 ltac:(lia) ltac:(lia) ltac:(lia)
                ltac:(lia)) as H.
  cbv zeta in H. destruct H as (_ & _ & _ & _ & _ & _ & Hlast & Hsum).
  split; [exact Hsum | exact (Hlast eq_refl)].
Defined.

(** C4 as written fails: with [n = 5] and [P = 4] the block size is 2 and
    rank 2, which is not the last rank, holds exactly one index; the last
    rank holds none although [n - (P-1) * m] is [-1]. *)
Lemma block_sizes_counterexample :
  lay_m (block_layout 5 4 2) = 2
  /\ lay_count (block_layout 5 4 2) = 1
  /\ lay_count (block_layout 5 4 3) = 0
  /\ 5 - (4 - 1) * lay_m (block_layout 5 4 3) = -1.
Proof. vm_compute. done. Qed.

(** ** Phase 3: the prefix scan *)

Lemma sumZ_nonneg l : Forall (fun s => 0 <= s) l -> 0 <= sumZ l.
Proof. induction 1; simpl; lia. Qed.

Lemma sumZ_take_S (l : list Z) (r : nat) x :
  l !! r = Some x -> sumZ (take (S r) l) = sumZ (take r l) + x.
Proof.
  intros Hx. rewrite (take_S_r _ _ _ Hx), sumZ_app. simpl. lia.
Qed.

Lemma sumZ_take_le (l : list Z) (r : nat) :
  Forall (fun s => 0 <= s) l -> 0 <= sumZ (take r l) <= sumZ l.
Proof.
  intros Hl. rewrite <- (take_drop r l) at 3. rewrite sumZ_app.
  pose proof (sumZ_nonneg (take r l) (Forall_take _ _ _ Hl)).
  pose proof (sumZ_nonneg (drop r l) (Forall_drop _ _ _ Hl)). lia.
Qed.

Lemma sumZ_take_mono (l : list Z) (r1 r2 : nat) :
  Forall (fun s => 0 <= s) l -> (r1 <= r2)%nat ->
  sumZ (take r1 l) <= sumZ (take r2 l).
Proof.
  intros Hl Hr. replace r1 with (r1 `min` r2)%nat by lia.
  rewrite <- take_take.
  apply sumZ_take_le. by apply Forall_take.
Qed.

Lemma phase3_first_prefix (sizes : list Z) (r : nat) :
  Forall (fun s => 0 <= s) sizes -> sumZ sizes < 2 ^ 64 ->
  (r < length sizes)%nat ->
  phase3_first sizes (Z.of_nat r) = sumZ (take r sizes).
Proof.
  intros Hnn Hsum Hr.
  destruct (lookup_lt_is_Some_2 sizes r Hr) as [x Hx].
  unfold phase3_first, MPI_Scan. rewrite Nat2Z.id.
  rewrite (list_lookup_total_correct _ _ _ Hx).
  rewrite (sumZ_take_S _ _ _ Hx).
  pose proof (sumZ_take_le sizes r Hnn).
  pose proof (sumZ_take_le sizes (S r) Hnn) as HS.
  rewrite (sumZ_take_S _ _ _ Hx) in HS.
  assert (0 <= x) by (eapply (Forall_lookup_1 _ _ _ _ Hnn Hx)).
  rewrite (u64_small x) by lia.
  rewrite (u64_small (_ + x)) by lia.
  rewrite u64_small by lia. lia.
Qed.

Lemma prefix_intervals_cover (l : list Z) (g : Z) :
  Forall (fun s => 0 <= s) l -> 0 <= g < sumZ l ->
  exists (r : nat) x, l !! r = Some x /\
    sumZ (take r l) <= g < sumZ (take r l) + x.
Proof.
  intros Hl. revert g. induction Hl as [|x l Hx Hl IH]; intros g Hg.
  - simpl in Hg. lia.
  - simpl in Hg. destruct (decide (g < x)) as [Hlt|Hge].
    + exists 0%nat, x. simpl. split; [done|lia].
    + destruct (IH (g - x) ltac:(lia)) as (r & y & Hy & Hr).
      exists (S r), y. simpl. split; [done|lia].
Qed.

(** C5.  The base position of the source (inclusive scan, then the own
    size subtracted) is the exclusive prefix sum of the sizes, and the
    intervals [[first_r, first_r + total_r)] partition the positions
    [0 .. n-1]: every position lies in the interval of exactly one rank. *)
Theorem phase3_first_partition (sizes : list Z) (n : Z) :
  Forall (fun s => 0 <= s) sizes -> sumZ sizes = n -> n < 2 ^ 64 ->
  (forall r : nat, (r < length sizes)%nat ->
     phase3_first sizes (Z.of_nat r) = sumZ (take r sizes))
  /\ (forall g, 0 <= g < n ->
        exists r : nat, (r < length sizes)%nat
          /\ phase3_first sizes (Z.of_nat r) <= g
             < phase3_first sizes (Z.of_nat r) + sizes !!! r)
  /\ (forall g (r1 r2 : nat),
        (r1 < length sizes)%nat -> (r2 < length sizes)%nat ->
        phase3_first sizes (Z.of_nat r1) <= g
          < phase3_first sizes (Z.of_nat r1) + sizes !!! r1 ->
        phase3_first sizes (Z.of_nat r2) <= g
          < phase3_first sizes (Z.of_nat r2) + sizes !!! r2 ->
        r1 = r2).
Proof.
  intros Hnn Hsum Hn.
  assert (Hfirst : forall r : nat, (r < length sizes)%nat ->
            phase3_first sizes (Z.of_nat r) = sumZ (take r sizes)).
  { intros r Hr. apply phase3_first_prefix; [done|lia|done]. }
  split; [exact Hfirst|]. split.
  - intros g Hg.
    destruct (prefix_intervals_cover sizes g Hnn ltac:(lia))
      as (r & x & Hx & Hr).
    exists r. pose proof (lookup_lt_Some _ _ _ Hx) as Hlt.
    split; [done|]. rewrite (Hfirst r Hlt).
    by rewrite (list_lookup_total_correct _ _ _ Hx).
  - intros g r1 r2 H1 H2. rewrite (Hfirst r1 H1), (Hfirst r2 H2).
    destruct (lookup_lt_is_Some_2 sizes r1 H1) as [x1 Hx1].
    destruct (lookup_lt_is_Some_2 sizes r2 H2) as [x2 Hx2].
    rewrite (list_lookup_total_correct _ _ _ Hx1).
    rewrite (list_lookup_total_correct _ _ _ Hx2).
    intros Hg1 Hg2.
    destruct (Nat.lt_trichotomy r1 r2) as [Hlt|[Heq|Hgt]]; [|done|].
    + pose proof (sumZ_take_mono sizes (S r1) r2 Hnn ltac:(lia)) as Hm.
      rewrite (sumZ_take_S _ _ _ Hx1) in Hm. lia.
    + pose proof (sumZ_take_mono sizes (S r2) r1 Hnn ltac:(lia)) as Hm.
      rewrite (sumZ_take_S _ _ _ Hx2) in Hm. lia.
Qed.

Lemma phase3_first_partition_witness :
  phase3_first [3; 0; 2] 2 = 3.
Proof.
  destruct (phase3_first_partition [3; 0; 2] 5) as (Hfirst & _ & _).
  - repeat constructor; lia.
  - reflexivity.
  - lia.
  - exact (Hfirst 2%nat ltac:(simpl; lia)).
Defined.

(** ** Phase 2: the local shuffle *)

Lemma rd_lookup (a : list Z) (i : Z) v :
  rd a i = Ok v <-> 0 <= i /\ a !! Z.to_nat i = Some v.
Proof.
  unfold rd. destruct (Z.ltb_spec i 0).
  - split; [done|lia].
  - destruct (a !! Z.to_nat i) eqn:E; split; intros H'; try done.
    + inversion H'; subst. done.
    + destruct H' as [_ H']. by inversion H'.
    + by destruct H'.
Qed.

(** The two-element buffer [[0; 2^31]] after [run_phase2]: whatever index
    is drawn, the element at position 1 passes through the [int] variable
    [t] and comes back as [2^64 - 2^31]. *)
Lemma run_phase2_truncates L :
  run_phase2 L [0; 2 ^ 31] 2 = Ok [2 ^ 64 - 2 ^ 31; 0]
  \/ run_phase2 L [0; 2 ^ 31] 2 = Ok [0; 2 ^ 64 - 2 ^ 31]
  \/ exists f, run_phase2 L [0; 2 ^ 31] 2 = Fault f.
Proof.
  unfold run_phase2.
  change (2 >? 1) with true. cbv iota.
  change (to_int (u32 (2 - 1))) with 1.
  change (Z.to_nat 2) with 2%nat.
  cbn [for_loop]. change (1 >=? 1) with true. cbv iota.
  unfold phase2_body.
  destruct (uniform_int L 0 1 (default_engine L)) as [l gen].
  change (to_int (1 - 1)) with 0. change (0 >=? 1) with false.
  destruct (decide (l = 0)) as [->|H0]; [left; reflexivity|].
  destruct (decide (l = 1)) as [->|H1]; [right; left; reflexivity|].
  right; right. exists OutOfBounds.
  assert (Hrd : rd [0; 2 ^ 31] l = Fault OutOfBounds).
  { unfold rd. destruct (Z.ltb_spec l 0); [done|].
    destruct (Z.to_nat l) as [|[|k]] eqn:E; try lia. done. }
  change (rd [0; 2 ^ 31] 1) with (Ok (A:=Z) (2 ^ 31)).
  cbn [rbind]. by rewrite Hrd.
Qed.

Lemma rd_ok (a : list Z) (i : Z) :
  0 <= i < Z.of_nat (length a) -> rd a i = Ok (a !!! Z.to_nat i).
Proof.
  intros Hi. unfold rd. destruct (Z.ltb_spec i 0); [lia|].
  destruct (lookup_lt_is_Some_2 a (Z.to_nat i) ltac:(lia)) as [x Hx].
  by rewrite Hx, (list_lookup_total_correct _ _ _ Hx).
Qed.

Lemma wr_ok (a : list Z) (i : Z) v :
  0 <= i < Z.of_nat (length a) -> wr a i v = Ok (<[Z.to_nat i := v]> a).
Proof.
  intros Hi. unfold wr.
  destruct (Z.leb_spec 0 i); [|lia].
  by destruct (Z.ltb_spec i (Z.of_nat (length a))); [|lia].
Qed.

Lemma wr_length a i v a' : wr a i v = Ok a' -> length a' = length a.
Proof.
  unfold wr. destruct (_ && _); [|done]. intros [= <-]. apply length_insert.
Qed.

Lemma swap_length buf i j : length (swap buf i j) = length buf.
Proof. unfold swap. by rewrite !length_insert. Qed.

Lemma insert_Permutation (l : list Z) i x y :
  l !! i = Some y -> Permutation (<[i := x]> l) (x :: delete i l).
Proof.
  intros Hy. pose proof (lookup_lt_Some _ _ _ Hy) as Hi.
  rewrite (delete_Permutation (<[i := x]> l) i x)
    by (by apply list_lookup_insert_eq).
  rewrite !delete_take_drop, take_insert_ge, drop_insert_lt by lia. done.
Qed.

Lemma swap_Permutation (buf : list Z) i j :
  (i < length buf)%nat -> (j < length buf)%nat ->
  Permutation (swap buf i j) buf.
Proof.
  intros Hi Hj. unfold swap.
  destruct (lookup_lt_is_Some_2 buf i Hi) as [x Hx].
  destruct (lookup_lt_is_Some_2 buf j Hj) as [y Hy].
  rewrite (list_lookup_total_correct _ _ _ Hx).
  rewrite (list_lookup_total_correct _ _ _ Hy).
  destruct (decide (i = j)) as [->|Hne].
  { assert (x = y) as -> by congruence.
    by rewrite !(list_insert_id buf j y Hy). }
  assert (Hy' : <[i := y]> buf !! j = Some y)
    by (by rewrite list_lookup_insert_ne).
  etransitivity; [apply (insert_Permutation _ j x y Hy')|].
  etransitivity; [|symmetry; apply (delete_Permutation buf i x Hx)].
  apply Permutation_skip.
  apply (Permutation_cons_inv (a := y)).
  etransitivity; [symmetry; apply (delete_Permutation _ j y Hy')|].
  by apply insert_Permutation with x.
Qed.

Section Phase2_small.
Context (L : library) (HL : library_ok L).

(** On buffers whose values fit [int], the loop of [run_phase2] started
    at index [k] computes the swaps of the specification. *)
Lemma run_phase2_loop (k : nat) : forall (fuel : nat) buf gen,
  (k < fuel)%nat -> (k < length buf)%nat -> Z.of_nat k < 2 ^ 31 ->
  Forall (fun v => 0 <= v < 2 ^ 31) buf ->
  exists gen',
    for_loop fuel (fun k => k >=? 1) (fun k => to_int (k - 1))
      (phase2_body L) (Z.of_nat k) (buf, gen)
    = Ok (fisher_yates_from L k buf gen, gen').
Proof.
  induction k as [|k IH]; intros fuel buf gen Hfuel Hlen Hk Hsmall.
  - destruct fuel as [|fuel]; [lia|]. exists gen. reflexivity.
  - destruct fuel as [|fuel]; [lia|].
    cbn [for_loop fisher_yates_from].
    destruct (Z.geb_spec (Z.of_nat (S k)) 1) as [_|?]; [|lia].
    unfold phase2_body at 1.
    pose proof (uniform_int_range L HL 0 (Z.of_nat (S k)) gen ltac:(lia))
      as Hl.
    destruct (uniform_int L 0 (Z.of_nat (S k)) gen) as [l gen1].
    simpl in Hl.
    rewrite (rd_ok buf (Z.of_nat (S k))) by lia. cbn [rbind].
    rewrite (rd_ok buf l) by lia. cbn [rbind].
    rewrite (wr_ok buf (Z.of_nat (S k))) by lia. cbn [rbind].
    rewrite wr_ok by (rewrite length_insert; lia). cbn [rbind].
    rewrite Nat2Z.id.
    assert (Hv : 0 <= buf !!! S k < 2 ^ 31).
    { destruct (lookup_lt_is_Some_2 buf (S k) Hlen) as [x Hx].
      rewrite (list_lookup_total_correct _ _ _ Hx).
      apply (Forall_lookup_1 _ _ _ _ Hsmall Hx). }
    assert (Hw : 0 <= buf !!! Z.to_nat l < 2 ^ 31).
    { destruct (lookup_lt_is_Some_2 buf (Z.to_nat l) ltac:(lia)) as [x Hx].
      rewrite (list_lookup_total_correct _ _ _ Hx).
      apply (Forall_lookup_1 _ _ _ _ Hsmall Hx). }
    rewrite (to_int_small (buf !!! S k)) by lia.
    rewrite (u64_small (buf !!! S k)) by lia.
    replace (to_int (Z.of_nat (S k) - 1)) with (Z.of_nat k)
      by (rewrite to_int_small; lia).
    fold (swap buf (S k) (Z.to_nat l)).
    apply IH; [lia | rewrite swap_length; lia | lia |].
    unfold swap. by repeat apply Forall_insert.
Qed.

Lemma run_phase2_small buf :
  Z.of_nat (length buf) <= 2 ^ 31 ->
  Forall (fun v => 0 <= v < 2 ^ 31) buf ->
  run_phase2 L buf (Z.of_nat (length buf)) = Ok (fisher_yates L buf).
Proof.
  intros Hlen Hsmall. unfold run_phase2, fisher_yates.
  destruct (Z.gtb_spec (Z.of_nat (length buf)) 1) as [Hgt|Hle].
  - rewrite u32_small by lia. rewrite to_int_small by lia.
    rewrite Nat2Z.id.
    replace (Z.of_nat (length buf) - 1) with (Z.of_nat (length buf - 1))
      by lia.
    destruct (run_phase2_loop (length buf - 1) (length buf) buf
                (default_engine L)) as [gen' Hloop]; [lia..|done|].
    rewrite Hloop. done.
  - destruct buf as [|x [|y buf]]; simpl in *; [done|done|lia].
Qed.

Lemma fisher_yates_from_Permutation (k : nat) : forall buf gen,
  (k < length buf)%nat ->
  Permutation (fisher_yates_from L k buf gen) buf.
Proof.
  induction k as [|k IH]; intros buf gen Hk; [done|].
  cbn [fisher_yates_from].
  pose proof (uniform_int_range L HL 0 (Z.of_nat (S k)) gen ltac:(lia))
    as Hl.
  destruct (uniform_int L 0 (Z.of_nat (S k)) gen) as [l gen1].
  simpl in Hl.
  rewrite IH by (rewrite swap_length; lia).
  apply swap_Permutation; lia.
Qed.
End Phase2_small.

(** C6, at the input where the source departs from it.  On the buffer
    [[0; 2^31]] the result of [run_phase2] is never the buffer that the
    Fisher-Yates procedure of the specification produces. *)
Theorem run_phase2_not_fisher_yates (L : library) :
  run_phase2 L [0; 2 ^ 31] 2 <> Ok (fisher_yates L [0; 2 ^ 31]).
Proof.
  assert (Hfy : 2 ^ 64 - 2 ^ 31 ∉ fisher_yates L [0; 2 ^ 31]).
  { unfold fisher_yates. cbn [length Nat.sub fisher_yates_from].
    destruct (uniform_int L 0 (Z.of_nat 1) (default_engine L)) as [l gen].
    unfold swap.
    destruct (Z.to_nat l) as [|[|j]]; vm_compute;
      intros H; repeat (apply elem_of_cons in H as [H|H]; [done|]);
      by apply elem_of_nil in H. }
  destruct (run_phase2_truncates L) as [H|[H|[f H]]]; rewrite H.
  - intros [= E]. apply Hfy. rewrite <- E. apply elem_of_cons. by left.
  - intros [= E]. apply Hfy. rewrite <- E.
    apply elem_of_cons. right. apply elem_of_cons. by left.
  - done.
Qed.

(** C10, at the input where the source departs from it.  On the buffer
    [[0; 2^31]] no result of [run_phase2] is a rearrangement of the
    buffer: the value [2^31] is lost. *)
Theorem run_phase2_loses_element (L : library) :
  ~ exists out, run_phase2 L [0; 2 ^ 31] 2 = Ok out
                /\ Permutation [0; 2 ^ 31] out.
Proof.
  intros (out & Hrun & Hperm).
  assert (Hin : 2 ^ 31 ∈ out).
  { rewrite <- Hperm. apply elem_of_cons. right. apply elem_of_cons. by left. }
  destruct (run_phase2_truncates L) as [H|[H|[f H]]];
    rewrite H in Hrun; [| |done]; injection Hrun as <-;
    repeat (apply elem_of_cons in Hin as [Hin|Hin]; [done|]);
    by apply elem_of_nil in Hin.
Qed.

(** ** Phase 1 on a rank that owns nothing *)

(** With [count = 0] the bound [count - 1] of the filling loop wraps to
    [2^32 - 1]; its second iteration writes [sendbuf[1]] in arrays of
    length 1. *)
Lemma wr_oob (a : list Z) (i : Z) v :
  Z.of_nat (length a) <= i -> wr a i v = Fault OutOfBounds.
Proof.
  intros Hi. unfold wr.
  destruct (Z.ltb_spec i (Z.of_nat (length a))); [lia|].
  by rewrite andb_false_r.
Qed.

Lemma phase1_fill_body_ok L pos hi k sendbuf destprocs indices gen :
  0 <= k < Z.of_nat (length sendbuf) ->
  length destprocs = length sendbuf -> length indices = length sendbuf ->
  phase1_fill_body L pos hi k (sendbuf, destprocs, indices, gen)
  = Ok (<[Z.to_nat k := u64 (pos + k)]> sendbuf,
        <[Z.to_nat k := u32 (fst (uniform_int L 0 hi gen))]> destprocs,
        <[Z.to_nat k := k]> indices,
        snd (uniform_int L 0 hi gen)).
Proof.
  intros Hk Hd Hi. unfold phase1_fill_body.
  rewrite wr_ok by done. cbn [rbind].
  destruct (uniform_int L 0 hi gen) as [d gen1].
  rewrite !wr_ok by lia. done.
Qed.

Lemma phase1_fill_body_oob L pos hi k sendbuf destprocs indices gen :
  Z.of_nat (length sendbuf) <= k ->
  phase1_fill_body L pos hi k (sendbuf, destprocs, indices, gen)
  = Fault OutOfBounds.
Proof. intros Hk. unfold phase1_fill_body. by rewrite wr_oob. Qed.

Lemma phase1_fill_no_range L count pos N :
  to_int (u32 (N - 1)) < 0 -> phase1_fill L count pos N = Fault AssertionFailed.
Proof.
  intros HN. unfold phase1_fill.
  by destruct (Z.ltb_spec (to_int (u32 (N - 1))) 0); [|lia].
Qed.

Lemma phase1_fill_count0 L pos N :
  0 <= to_int (u32 (N - 1)) -> phase1_fill L 0 pos N = Fault OutOfBounds.
Proof.
  intros HN. unfold phase1_fill.
  destruct (Z.ltb_spec (to_int (u32 (N - 1))) 0); [lia|].
  change (Z.to_nat (u32 (0 + 1))) with 1%nat.
  change (u32 (0 - 1)) with (2 ^ 32 - 1).
  cbn [for_loop replicate]. change (0 <=? 2 ^ 32 - 1) with true. cbv iota.
  rewrite phase1_fill_body_ok by (simpl; lia). cbn [rbind].
  change (u32 (0 + 1)) with 1. change (1 <=? 2 ^ 32 - 1) with true.
  cbv iota. rewrite phase1_fill_body_oob by (simpl; lia). done.
Qed.

Lemma run_phase1_pack_count0 L pos N :
  run_phase1_pack L 0 pos N
  = Fault (if to_int (u32 (N - 1)) <? 0 then AssertionFailed
           else OutOfBounds).
Proof.
  unfold run_phase1_pack.
  destruct (Z.ltb_spec (to_int (u32 (N - 1))) 0).
  - by rewrite phase1_fill_no_range.
  - by rewrite phase1_fill_count0.
Qed.

Lemma run_phase1_pack_count0_oob L pos N :
  1 <= N <= 2 ^ 31 -> run_phase1_pack L 0 pos N = Fault OutOfBounds.
Proof.
  intros HN. rewrite run_phase1_pack_count0.
  rewrite u32_small, to_int_small by lia.
  by destruct (Z.ltb_spec (N - 1) 0); [lia|].
Qed.

(** ** Reasoning about loops *)

(** A counted loop over [a, a+1, ..., b-1] that maintains [I]. *)
Lemma for_loop_range {S : Type} (I : Z -> S -> Prop) cond step
    (body : Z -> S -> result S) (b : Z) :
  cond b = false ->
  forall (n : nat) (a : Z) (fuel : nat) (s : S),
    b - a = Z.of_nat n ->
    (forall k, a <= k < b -> cond k = true /\ step k = k + 1) ->
    (forall k s, a <= k < b -> I k s ->
       exists s', body k s = Ok s' /\ I (k + 1) s') ->
    (n < fuel)%nat -> I a s ->
    exists s', for_loop fuel cond step body a s = Ok s' /\ I b s'.
Proof.
  intros Hend. induction n as [|n IH]; intros a fuel s Hn Hin Hbody Hfuel Hs.
  - destruct fuel as [|fuel]; [lia|]. assert (a = b) as -> by lia.
    exists s. simpl. by rewrite Hend.
  - destruct fuel as [|fuel]; [lia|].
    destruct (Hin a ltac:(lia)) as [Hc Hstep].
    destruct (Hbody a s ltac:(lia) Hs) as (s1 & Hb & Hs1).
    cbn [for_loop]. rewrite Hc, Hb, Hstep. cbn [rbind].
    apply IH; [lia| |  |lia|done].
    + intros k Hk. apply Hin. lia.
    + intros k s2 Hk. apply Hbody. lia.
Qed.

(** A [while] loop that maintains [I] and decreases [mu]. *)
Lemma while_loop_measure {S : Type} (I : S -> Prop) (mu : S -> nat)
    (cond : S -> result bool) (body : S -> result S) :
  (forall s, I s ->
     cond s = Ok false \/
     (cond s = Ok true /\
      exists s', body s = Ok s' /\ I s' /\ (mu s' < mu s)%nat)) ->
  forall (fuel : nat) (s : S), I s -> (mu s < fuel)%nat ->
    exists s', while_loop fuel cond body s = Ok s' /\ I s'
               /\ cond s' = Ok false.
Proof.
  intros Hstep. induction fuel as [|fuel IH]; intros s Hs Hmu; [lia|].
  cbn [while_loop].
  destruct (Hstep s Hs) as [Hc|(Hc & s1 & Hb & Hs1 & Hlt)]; rewrite Hc.
  - exists s. done.
  - cbn [rbind]. rewrite Hb. cbn [rbind]. apply IH; [done|lia].
Qed.

(** What a loop returns satisfies every invariant of its body. *)
Lemma while_loop_inv {S : Type} (I : S -> Prop)
    (cond : S -> result bool) (body : S -> result S) :
  (forall s s', I s -> cond s = Ok true -> body s = Ok s' -> I s') ->
  forall (fuel : nat) (s s' : S), I s ->
    while_loop fuel cond body s = Ok s' -> I s' /\ cond s' = Ok false.
Proof.
  intros Hstep. induction fuel as [|fuel IH]; intros s s' Hs; [done|].
  cbn [while_loop]. destruct (cond s) as [[|]|] eqn:Hc; cbn [rbind]; [| |done].
  - destruct (body s) as [s1|] eqn:Hb; cbn [rbind]; [|done].
    apply IH. by eapply Hstep.
  - intros [= <-]. done.
Qed.

(** ** Phase 1 on a rank that owns at least one index *)

Lemma mapM_fmap {A B} (f : A -> result B) (g : A -> B) (l : list A) :
  (forall x, x ∈ l -> f x = Ok (g x)) -> mapM f l = Ok (g <$> l).
Proof.
  induction l as [|a l IH]; intros Hfg; [done|]. simpl.
  rewrite (Hfg a) by (by left). cbn [rbind]. rewrite IH; [done|].
  intros x Hx. apply Hfg. by right.
Qed.

Lemma mapM_total {A B} (f : A -> result B) (l : list A) :
  (forall x, x ∈ l -> exists y, f x = Ok y) -> exists ys, mapM f l = Ok ys.
Proof.
  induction l as [|a l IH]; intros Hf; [by eexists|].
  destruct (Hf a ltac:(by left)) as [y Hy].
  destruct IH as [ys Hys]; [intros x Hx; apply Hf; by right|].
  exists (y :: ys). simpl. by rewrite Hy, Hys.
Qed.

(** The sort meets no index outside [destprocs] when all indices are
    below its size and fit [int]. *)
Lemma phase1_sort_ok L (destprocs indices : list Z) :
  Forall (fun i => 0 <= i < Z.of_nat (length destprocs) /\ i < 2 ^ 31)
    indices ->
  phase1_sort L destprocs indices
  = Ok (std_sort L (sort_indices destprocs) indices).
Proof.
  intros Hix. unfold phase1_sort.
  destruct (length indices <=? 1)%nat; [done|].
  rewrite (mapM_fmap _ (fun i => destprocs !!! Z.to_nat i)); [done|].
  intros i Hi. pose proof (proj1 (Forall_forall _ _) Hix i Hi) as [? ?].
  rewrite to_int_small by lia. by apply rd_ok.
Qed.

Lemma phase1_sort_seqZ L (destprocs : list Z) count :
  0 <= count < 2 ^ 31 - 1 -> length destprocs = Z.to_nat (count + 1) ->
  phase1_sort L destprocs (seqZ 0 (count + 1))
  = Ok (std_sort L (sort_indices destprocs) (seqZ 0 (count + 1))).
Proof.
  intros Hc Hl. apply phase1_sort_ok, Forall_forall.
  intros i Hi. apply elem_of_seqZ in Hi. lia.
Qed.





Lemma seqZ_snoc (a k : Z) : 0 <= k -> seqZ a (k + 1) = seqZ a k ++ [a + k].
Proof.
  intros Hk. by rewrite seqZ_app by lia.
Qed.

Lemma insert_fill (xs : list Z) (i n : nat) (v : Z) :
  length xs = i ->
  <[i := v]> (xs ++ replicate (S n) 0) = (xs ++ [v]) ++ replicate n 0.
Proof.
  intros <-. rewrite insert_app_r_alt by lia.
  rewrite Nat.sub_diag. simpl. by rewrite <- app_assoc.
Qed.

Section Phase1_ok.
Context (L : library) (HL : library_ok L).
Variables count pos N : Z.
Hypothesis Hcount : 1 <= count < 2 ^ 31 - 1.
Hypothesis HN : 1 <= N < 2 ^ 31.

(** The owned indices [pos, pos+1, ...] as the filling loop stores them. *)
Let vals (k : Z) : list Z := (fun j => u64 (pos + j)) <$> seqZ 0 k.

Let fill_inv (k : Z) (st : list Z * list Z * list Z * engine L) : Prop :=
  exists dests,
    length dests = Z.to_nat k
    /\ Forall (fun d => 0 <= d < N) dests
    /\ st.1.1.1 = vals k ++ replicate (Z.to_nat (count + 1 - k)) 0
    /\ st.1.1.2 = dests ++ replicate (Z.to_nat (count + 1 - k)) 0
    /\ st.1.2 = seqZ 0 k ++ replicate (Z.to_nat (count + 1 - k)) 0.

Lemma phase1_fill_step k st :
  0 <= k < count -> fill_inv k st ->
  exists st', phase1_fill_body L pos (to_int (u32 (N - 1))) k st = Ok st'
              /\ fill_inv (k + 1) st'.
Proof.
  intros Hk (dests & Hlen & Hd & Hsb & Hdp & Hix).
  destruct st as [[[sb dp] ix] gen]. simpl in Hsb, Hdp, Hix. subst sb dp ix.
  rewrite u32_small, to_int_small by lia.
  pose proof (uniform_int_range L HL 0 (N - 1) gen ltac:(lia)) as Hr.
  assert (Hvl : length (vals k) = Z.to_nat k)
    by (unfold vals; by rewrite length_fmap, length_seqZ).
  rewrite phase1_fill_body_ok;
    rewrite ?length_app, ?length_replicate, ?length_seqZ, ?Hvl, ?Hlen;
    [|lia..].
  eexists. split; [done|].
  exists (dests ++ [(uniform_int L 0 (N - 1) gen).1]).
  replace (Z.to_nat (count + 1 - k))
    with (S (Z.to_nat (count + 1 - (k + 1)))) by lia.
  cbn [fst snd]. rewrite !insert_fill by (by rewrite ?length_seqZ).
  rewrite u32_small by lia.
  split; [rewrite length_app; simpl; lia|].
  split; [apply Forall_app; split; [done|]; repeat constructor; lia|].
  unfold vals. rewrite (seqZ_snoc 0 k) by lia. by rewrite fmap_app.
Qed.

Lemma phase1_fill_ok :
  exists dests,
    length dests = Z.to_nat count
    /\ Forall (fun d => 0 <= d < N) dests
    /\ phase1_fill L count pos N
       = Ok (vals count ++ [0], dests ++ [N], seqZ 0 (count + 1)).
Proof.
  unfold phase1_fill.
  rewrite (u32_small (count + 1)), (u32_small (count - 1)) by lia.
  destruct (Z.ltb_spec (to_int (u32 (N - 1))) 0) as [Hneg|_];
    [rewrite u32_small, to_int_small in Hneg by lia; lia|].
  destruct (for_loop_range fill_inv (fun k => k <=? count - 1)
              (fun k => u32 (k + 1))
              (phase1_fill_body L pos (to_int (u32 (N - 1)))) count
              ltac:(apply Z.leb_gt; lia) (Z.to_nat count) 0
              (S (S (Z.to_nat (count + 1))))
              (replicate (Z.to_nat (count + 1)) 0,
               replicate (Z.to_nat (count + 1)) 0,
               replicate (Z.to_nat (count + 1)) 0, default_engine L))
    as (st & Hloop & dests & Hlen & Hd & Hsb & Hdp & Hix).
  - lia.
  - intros k Hk. split; [apply Z.leb_le; lia | apply u32_small; lia].
  - intros k s Hk. by apply phase1_fill_step.
  - lia.
  - exists []. rewrite seqZ_nil by lia. unfold vals.
    rewrite seqZ_nil by lia. rewrite Z.sub_0_r. done.
  - rewrite Hloop. cbn [rbind]. exists dests.
    destruct st as [[[sb dp] ix] gen]. simpl in Hsb, Hdp, Hix. subst.
    replace (Z.to_nat (count + 1 - count)) with 1%nat by lia.
    assert (Hvl : length (vals count) = Z.to_nat count)
      by (unfold vals; by rewrite length_fmap, length_seqZ).
    split; [done|]. split; [done|].
    rewrite !wr_ok
      by (rewrite ?length_app, ?length_seqZ, ?Hvl, ?Hlen; simpl; lia).
    cbn [rbind].
    rewrite !(insert_fill _ _ 0) by (by rewrite ?length_seqZ).
    rewrite !app_nil_r. by rewrite (seqZ_snoc 0 count) by lia.
Qed.
End Phase1_ok.

Lemma sumZ_replicate (n : nat) : sumZ (replicate n 0) = 0.
Proof. induction n as [|n IH]; simpl; lia. Qed.

Lemma sumZ_insert (l : list Z) (i : nat) (c v : Z) :
  l !! i = Some c -> sumZ (<[i := v]> l) = sumZ l - c + v.
Proof.
  intros Hc. pose proof (lookup_lt_Some _ _ _ Hc).
  rewrite insert_take_drop by done.
  rewrite <- (take_drop_middle l i c Hc) at 3.
  rewrite !sumZ_app. simpl. lia.
Qed.

Lemma sumZ_lookup_le (l : list Z) (i : nat) (c : Z) :
  Forall (fun s => 0 <= s) l -> l !! i = Some c -> 0 <= c <= sumZ l.
Proof.
  intros Hl Hc. rewrite <- (take_drop_middle l i c Hc) in *.
  apply Forall_app in Hl as [H1 H2]. apply Forall_cons in H2 as [Hc0 H2].
  rewrite sumZ_app. simpl.
  pose proof (sumZ_nonneg _ H1). pose proof (sumZ_nonneg _ H2). lia.
Qed.

(** An index whose key is strictly above all other keys is sorted last. *)
Lemma sorted_max_last (key : Z -> Z) (x : Z) (l : list Z) :
  Sorted (fun i j => key i <= key j) l -> x ∈ l ->
  (forall y, y ∈ l -> y <> x -> key y < key x) -> NoDup l ->
  exists front, l = front ++ [x].
Proof.
  intros Hs. apply Sorted_StronglySorted in Hs; [|intros a b c; lia].
  induction Hs as [|a l Hs IH Ha]; intros Hx Hmax Hnd.
  - by apply elem_of_nil in Hx.
  - apply NoDup_cons in Hnd as [Hal Hnd]. destruct l as [|b l].
    + apply elem_of_cons in Hx as [->|Hx]; [by exists []|].
      by apply elem_of_nil in Hx.
    + destruct IH as [front ->]; [| |done|by exists (a :: front)].
      * apply elem_of_cons in Hx as [->|Hx]; [|done].
        exfalso. apply Forall_cons in Ha as [Hab _].
        assert (b <> a) by (intros ->; apply Hal, elem_of_cons; by left).
        assert (Hb : b ∈ a :: b :: l) by (do 2 constructor).
        pose proof (Hmax b Hb ltac:(done)). lia.
      * intros y Hy. apply Hmax. by constructor.
Qed.

Lemma take_S_total (l : list Z) (i : nat) :
  (i < length l)%nat -> take (S i) l = take i l ++ [l !!! i].
Proof.
  intros Hi. destruct (lookup_lt_is_Some_2 l i Hi) as [x Hx].
  by rewrite (take_S_r _ _ _ Hx), (list_lookup_total_correct _ _ _ Hx).
Qed.

Lemma Forall_lookup_total (P : Z -> Prop) (l : list Z) (i : nat) :
  Forall P l -> (i < length l)%nat -> P (l !!! i).
Proof.
  intros Hl Hi. destruct (lookup_lt_is_Some_2 l i Hi) as [x Hx].
  rewrite (list_lookup_total_correct _ _ _ Hx).
  by apply (Forall_lookup_1 _ _ _ _ Hl Hx).
Qed.

Lemma phase1_gather_ok count (sendbuf indices : list Z) :
  0 <= count < 2 ^ 32 - 1 ->
  length indices = Z.to_nat (count + 1) ->
  Forall (fun ix => 0 <= ix < Z.of_nat (length sendbuf)) indices ->
  phase1_gather count sendbuf indices
  = Ok ((fun ix => sendbuf !!! Z.to_nat ix) <$> indices).
Proof.
  intros Hcount Hlen Hix. unfold phase1_gather.
  rewrite u32_small by lia.
  set (f := fun ix => sendbuf !!! Z.to_nat ix).
  destruct (for_loop_range
              (fun k ssb => ssb = (f <$> take (Z.to_nat k) indices)
                                  ++ replicate (Z.to_nat (count + 1 - k)) 0)
              (fun i => i <? count + 1) (fun i => u32 (i + 1))
              (phase1_gather_body sendbuf indices) (count + 1)
              ltac:(apply Z.ltb_ge; lia) (Z.to_nat (count + 1)) 0
              (S (Z.to_nat (count + 1)))
              (replicate (Z.to_nat (count + 1)) 0))
    as (ssb & Hloop & Hssb).
  - lia.
  - intros k Hk. split; [apply Z.ltb_lt; lia | apply u32_small; lia].
  - intros k ssb Hk ->. unfold phase1_gather_body.
    rewrite rd_ok by lia. cbn [rbind].
    pose proof (Forall_lookup_total _ indices (Z.to_nat k) Hix ltac:(lia)).
    rewrite rd_ok by done. cbn [rbind].
    rewrite wr_ok
      by (rewrite length_app, length_fmap, length_take, length_replicate; lia).
    eexists. split; [done|].
    replace (Z.to_nat (count + 1 - k))
      with (S (Z.to_nat (count + 1 - (k + 1)))) by lia.
    rewrite insert_fill by (rewrite length_fmap, length_take; lia).
    replace (Z.to_nat (k + 1)) with (S (Z.to_nat k)) by lia.
    rewrite take_S_total by lia. by rewrite fmap_app.
  - lia.
  - by rewrite Z.sub_0_r.
  - rewrite Hloop, Hssb.
    replace (Z.to_nat (count + 1 - (count + 1))) with 0%nat by lia.
    rewrite <- Hlen, firstn_all. simpl. by rewrite app_nil_r.
Qed.

Lemma lookup_total_fmap_seq_app (f : nat -> Z) (n i : nat) (rest : list Z) :
  (i < n)%nat -> ((f <$> seq 0 n) ++ rest) !!! i = f i.
Proof.
  intros Hi. apply list_lookup_total_correct.
  rewrite lookup_app_l by (rewrite length_fmap, length_seq; lia).
  rewrite list_lookup_fmap, lookup_seq_lt by lia. done.
Qed.

(** The running sums that the displacement loops compute. *)
Lemma displacements_ok N (cnts : list Z) :
  1 <= N < 2 ^ 32 -> length cnts = Z.to_nat N ->
  Forall (fun c => 0 <= c) cnts -> sumZ cnts < 2 ^ 31 ->
  displacements N cnts
  = Ok ((fun j => sumZ (take j cnts)) <$> seq 0 (Z.to_nat N)).
Proof.
  intros HN Hlen Hnn Hsum. unfold displacements.
  rewrite u32_small by lia.
  set (f := fun j => sumZ (take j cnts)).
  destruct (for_loop_range
              (fun hp displs => displs = (f <$> seq 0 (Z.to_nat hp))
                                  ++ replicate (Z.to_nat (N - hp)) 0)
              (fun hp => hp <=? N - 1) (fun hp => u32 (hp + 1))
              (displs_body cnts) N
              ltac:(apply Z.leb_gt; lia) (Z.to_nat (N - 1)) 1
              (S (Z.to_nat N)) (replicate (Z.to_nat N) 0))
    as (displs & Hloop & Hd).
  - lia.
  - intros k Hk. split; [apply Z.leb_le; lia | apply u32_small; lia].
  - intros hp displs Hhp ->. unfold displs_body.
    assert (Hfl : length (f <$> seq 0 (Z.to_nat hp)) = Z.to_nat hp)
      by (by rewrite length_fmap, length_seq).
    rewrite rd_ok by (rewrite length_app, Hfl; lia).
    rewrite rd_ok by lia. cbn [rbind].
    rewrite wr_ok by (rewrite length_app, Hfl, length_replicate; lia).
    eexists. split; [done|].
    replace (Z.to_nat (N - hp)) with (S (Z.to_nat (N - (hp + 1)))) by lia.
    rewrite insert_fill by done.
    replace (Z.to_nat (hp + 1)) with (S (Z.to_nat hp)) by lia.
    rewrite seq_S, fmap_app. simpl. do 3 f_equal.
    rewrite lookup_total_fmap_seq_app by lia. unfold f.
    replace (Z.to_nat hp) with (S (Z.to_nat (hp - 1))) by lia.
    rewrite take_S_total, sumZ_app by lia. simpl.
    pose proof (sumZ_take_le cnts (S (Z.to_nat (hp - 1))) Hnn) as Hle.
    rewrite take_S_total, sumZ_app in Hle by lia. simpl in Hle.
    pose proof (sumZ_take_le cnts (Z.to_nat (hp - 1)) Hnn).
    pose proof (Forall_lookup_total _ cnts (Z.to_nat (hp - 1)) Hnn
                  ltac:(lia)) as Hc. simpl in Hc.
    rewrite to_int_small by lia. lia.
  - lia.
  - replace (Z.to_nat N) with (S (Z.to_nat (N - 1))) by lia. done.
  - rewrite Hloop, Hd. replace (Z.to_nat (N - N)) with 0%nat by lia.
    simpl. by rewrite app_nil_r.
Qed.

Section Scan.
Variables (count N : Z) (destprocs indices : list Z).
Hypothesis Hcount : 1 <= count < 2 ^ 31 - 1.
Hypothesis HN : 1 <= N < 2 ^ 31.
Hypothesis Hlen : length indices = Z.to_nat (count + 1).
Hypothesis Hix :
  Forall (fun ix => 0 <= ix < Z.of_nat (length destprocs)) indices.

(** The key found at position [k] of the sorted index array. *)
Let K (k : Z) : Z := destprocs !!! Z.to_nat (indices !!! Z.to_nat k).

Hypothesis Hkeys : forall k, 0 <= k < count -> 0 <= K k < N.
Hypothesis Hsentinel : K count = N.
Hypothesis Hsorted : forall k, 0 <= k < count -> K k <= K (k + 1).

Lemma scan_cond_ok rp sc k :
  0 <= k <= count ->
  scan_cond destprocs indices rp (sc, k) = Ok (rp =? K k).
Proof.
  intros Hk. unfold scan_cond. cbn [snd].
  rewrite rd_ok by lia. cbn [rbind].
  pose proof (Forall_lookup_total _ indices (Z.to_nat k) Hix ltac:(lia)).
  by rewrite rd_ok.
Qed.

Let scan_inv (rp : Z) (st : list Z * Z) : Prop :=
  0 <= st.2 <= count /\ length st.1 = Z.to_nat N
  /\ Forall (fun c => 0 <= c) st.1 /\ sumZ st.1 = st.2 /\ rp <= K st.2.

Lemma scan_inner rp st :
  0 <= rp < N -> scan_inv rp st ->
  exists st',
    while_loop (S (S (Z.to_nat (u32 (count + 1)))))
      (scan_cond destprocs indices rp) (scan_body rp) st = Ok st'
    /\ scan_inv (rp + 1) st'.
Proof.
  intros Hrp Hst.
  destruct (while_loop_measure (scan_inv rp)
              (fun st => Z.to_nat (count - st.2))
              (scan_cond destprocs indices rp) (scan_body rp))
    with (fuel := S (S (Z.to_nat (u32 (count + 1))))) (s := st)
    as (st' & Hloop & Hinv & Hexit).
  - clear st Hst. intros [sc k] (Hk & Hl & Hnn & Hsum & Hle).
    cbn [fst snd] in *. rewrite scan_cond_ok by done.
    destruct (Z.eqb_spec rp (K k)) as [Heq|Hne]; [right|by left].
    split; [done|].
    assert (k < count) by (destruct (decide (k = count)); [subst|]; lia).
    unfold scan_body.
    rewrite rd_ok by lia. cbn [rbind]. rewrite wr_ok by lia. cbn [rbind].
    destruct (lookup_lt_is_Some_2 sc (Z.to_nat rp) ltac:(lia)) as [c Hc].
    rewrite (list_lookup_total_correct _ _ _ Hc).
    pose proof (sumZ_lookup_le sc _ c Hnn Hc).
    rewrite !to_int_small by lia.
    eexists. split; [done|]. unfold scan_inv. cbn [fst snd].
    split; [|lia]. split; [lia|]. split; [by rewrite length_insert|].
    split; [apply Forall_insert; [done|lia]|].
    split; [rewrite (sumZ_insert _ _ c) by done; lia|].
    pose proof (Hsorted k ltac:(lia)). lia.
  - done.
  - destruct Hst as (Hk & _). rewrite u32_small by lia. lia.
  - exists st'. split; [done|].
    destruct st' as [sc k]. destruct Hinv as (Hk & Hl & Hnn & Hsum & Hle).
    cbn [fst snd] in *. rewrite scan_cond_ok in Hexit by done.
    injection Hexit as Hexit. apply Z.eqb_neq in Hexit.
    unfold scan_inv. cbn [fst snd]. repeat split; try done; lia.
Qed.

Lemma phase1_sendcnts_ok :
  exists sendcnts,
    phase1_sendcnts count N destprocs indices = Ok (sendcnts, count)
    /\ length sendcnts = Z.to_nat N
    /\ Forall (fun c => 0 <= c) sendcnts
    /\ sumZ sendcnts = count.
Proof.
  unfold phase1_sendcnts. rewrite (u32_small (N - 1)) by lia.
  destruct (for_loop_range scan_inv
              (fun rp => rp <=? N - 1) (fun rp => u32 (rp + 1))
              (fun rp st =>
                 while_loop (S (S (Z.to_nat (u32 (count + 1)))))
                   (scan_cond destprocs indices rp) (scan_body rp) st)
              N ltac:(apply Z.leb_gt; lia) (Z.to_nat N) 0
              (S (Z.to_nat N)) (replicate (Z.to_nat N) 0, 0))
    as ([sc k] & Hloop & Hk & Hl & Hnn & Hsum & Hle).
  - lia.
  - intros k Hk. split; [apply Z.leb_le; lia | apply u32_small; lia].
  - intros rp st Hrp Hst. by apply scan_inner.
  - lia.
  - unfold scan_inv. cbn [fst snd].
    split; [lia|]. split; [by rewrite length_replicate|].
    split; [by apply Forall_replicate|].
    split; [apply sumZ_replicate|]. pose proof (Hkeys 0 ltac:(lia)). lia.
  - cbn [fst snd] in *.
    assert (k = count) as ->.
    { destruct (decide (k = count)); [done|].
      pose proof (Hkeys k ltac:(lia)). lia. }
    exists sc. by rewrite Hloop.
Qed.
End Scan.

Lemma Sorted_adjacent (R : Z -> Z -> Prop) (l : list Z) (i : nat) x y :
  Sorted R l -> l !! i = Some x -> l !! S i = Some y -> R x y.
Proof.
  intros Hs. revert i. induction Hs as [|a l Hs IH Ha]; intros i Hx Hy; [done|].
  destruct i as [|i]; simpl in *.
  - injection Hx as <-. destruct Ha as [|b l Hab]; [done|].
    simpl in Hy. by injection Hy as <-.
  - by eapply IH.
Qed.

Section Pack_ok.
Context (L : library) (HL : library_ok L).
Variables count pos N : Z.
Hypothesis Hcount : 1 <= count < 2 ^ 31 - 1.
Hypothesis HN : 1 <= N < 2 ^ 31.

Variable dests : list Z.
Hypothesis Hdlen : length dests = Z.to_nat count.
Hypothesis Hdests : Forall (fun d => 0 <= d < N) dests.

Let destprocs : list Z := dests ++ [N].
Let sorted : list Z :=
  std_sort L (sort_indices destprocs) (seqZ 0 (count + 1)).
Let key (i : Z) : Z := destprocs !!! Z.to_nat (to_int i).

Lemma key_owned i : 0 <= i < count -> 0 <= key i < N.
Proof.
  intros Hi. unfold key, destprocs. rewrite to_int_small by lia.
  rewrite lookup_total_app_l by lia.
  apply (Forall_lookup_total _ dests (Z.to_nat i) Hdests). lia.
Qed.

Lemma key_sentinel : key count = N.
Proof.
  unfold key, destprocs. rewrite to_int_small by lia.
  rewrite lookup_total_app_r by lia.
  by replace (Z.to_nat count - length dests)%nat with 0%nat by lia.
Qed.

Lemma sorted_perm : Permutation sorted (seqZ 0 (count + 1)).
Proof. apply (std_sort_perm L HL key). Qed.

Lemma sorted_by_key : Sorted (fun i j => key i <= key j) sorted.
Proof. apply (std_sort_sorted L HL key). Qed.

Lemma sorted_elem i : i ∈ sorted <-> 0 <= i <= count.
Proof. rewrite sorted_perm, elem_of_seqZ. lia. Qed.

Lemma sorted_length : length sorted = Z.to_nat (count + 1).
Proof. by rewrite sorted_perm, length_seqZ. Qed.

(** The sentinel index is sorted to the last position. *)
Lemma sorted_sentinel_last :
  exists front, sorted = front ++ [count]
                /\ Permutation front (seqZ 0 count).
Proof.
  destruct (sorted_max_last key count sorted sorted_by_key)
    as [front Hfront].
  - apply sorted_elem. lia.
  - intros y Hy Hne. apply sorted_elem in Hy.
    rewrite key_sentinel. apply key_owned. lia.
  - rewrite sorted_perm. apply NoDup_seqZ.
  - exists front. split; [done|].
    apply (Permutation_app_inv_r [count]).
    rewrite <- Hfront, sorted_perm. by rewrite (seqZ_snoc 0 count) by lia.
Qed.

Lemma sorted_lookup_bounds (k : nat) :
  (k < length sorted)%nat -> 0 <= sorted !!! k <= count.
Proof.
  intros Hk. apply sorted_elem, list_elem_of_lookup. exists k.
  by apply list_lookup_lookup_total_lt.
Qed.

Lemma key_lookup i : 0 <= i <= count -> destprocs !!! Z.to_nat i = key i.
Proof. intros Hi. unfold key. by rewrite to_int_small by lia. Qed.

Let vals : list Z := (fun j => u64 (pos + j)) <$> seqZ 0 count.

Hypothesis Hfill :
  phase1_fill L count pos N
  = Ok (vals ++ [0], destprocs, seqZ 0 (count + 1)).

(** [run_phase1] up to the first collective, on a rank with
    [count >= 1]: the packed buffer is a rearrangement of the owned
    indices followed by the sentinel value, the send counts sum to
    [count], and the displacements are their running sums. *)
Lemma pack_result :
  exists packed sendcnts,
    run_phase1_pack L count pos N
    = Ok (packed ++ [0], sendcnts,
          (fun j => sumZ (take j sendcnts)) <$> seq 0 (Z.to_nat N))
    /\ Permutation packed vals
    /\ phase1_sendcnts count N destprocs sorted = Ok (sendcnts, count)
    /\ length sendcnts = Z.to_nat N
    /\ Forall (fun c => 0 <= c) sendcnts
    /\ sumZ sendcnts = count.
Proof.
  destruct sorted_sentinel_last as (front & Hfront & Hperm).
  assert (Hflen : length front = Z.to_nat count)
    by (by rewrite Hperm, length_seqZ).
  assert (Hvlen : length vals = Z.to_nat count)
    by (unfold vals; by rewrite length_fmap, length_seqZ).
  assert (Hdp : length destprocs = Z.to_nat (count + 1))
    by (unfold destprocs; rewrite length_app; simpl; lia).
  assert (Hix : Forall (fun ix => 0 <= ix < Z.of_nat (length destprocs))
                  sorted).
  { apply Forall_forall. intros i Hi. apply sorted_elem in Hi. lia. }
  destruct (phase1_sendcnts_ok count N destprocs sorted Hcount HN
              sorted_length Hix) as (sendcnts & Hsc & Hsl & Hnn & Hsum).
  - intros k Hk.
    pose proof (sorted_lookup_bounds (Z.to_nat k)
                  ltac:(rewrite sorted_length; lia)) as Hb.
    rewrite key_lookup by done. apply key_owned.
    assert (Hin : sorted !!! Z.to_nat k ∈ front).
    { rewrite Hfront, lookup_total_app_l by lia.
      apply list_elem_of_lookup. exists (Z.to_nat k).
      apply list_lookup_lookup_total_lt. lia. }
    rewrite Hperm in Hin. apply elem_of_seqZ in Hin. lia.
  - rewrite Hfront, lookup_total_app_r by lia.
    replace (Z.to_nat count - length front)%nat with 0%nat by lia.
    simpl. rewrite key_lookup by lia. apply key_sentinel.
  - intros k Hk.
    pose proof (sorted_lookup_bounds (Z.to_nat k)
                  ltac:(rewrite sorted_length; lia)).
    pose proof (sorted_lookup_bounds (Z.to_nat (k + 1))
                  ltac:(rewrite sorted_length; lia)).
    rewrite !key_lookup by done.
    apply (Sorted_adjacent _ sorted (Z.to_nat k) _ _ sorted_by_key).
    + apply list_lookup_lookup_total_lt. rewrite sorted_length. lia.
    + replace (S (Z.to_nat k)) with (Z.to_nat (k + 1)) by lia.
      apply list_lookup_lookup_total_lt. rewrite sorted_length. lia.
  - exists ((fun ix => (vals ++ [0]) !!! Z.to_nat ix) <$> front), sendcnts.
    split; [|split; [|done]].
    + unfold run_phase1_pack. rewrite Hfill. cbn [rbind].
      rewrite (phase1_sort_seqZ L destprocs count) by (done || lia).
      cbn [rbind]. fold sorted.
      rewrite phase1_gather_ok; [|lia|apply sorted_length|].
      2:{ apply Forall_forall. intros i Hi. apply sorted_elem in Hi.
          rewrite length_app, Hvlen. simpl. lia. }
      cbn [rbind]. rewrite Hsc. cbn [rbind].
      rewrite displacements_ok by (done || lia). cbn [rbind].
      rewrite Hfront, fmap_app. simpl.
      rewrite lookup_total_app_r by lia.
      by replace (Z.to_nat count - length vals)%nat with 0%nat by lia.
    + rewrite Hperm. apply reflexive_eq. unfold vals at 2.
      apply list_fmap_ext. intros i j Hj.
      apply lookup_seqZ in Hj as [-> Hi].
      rewrite lookup_total_app_l by lia.
      apply list_lookup_total_correct. unfold vals.
      rewrite list_lookup_fmap, lookup_seqZ_lt by lia. simpl.
      do 3 f_equal. lia.
Qed.
End Pack_ok.

Lemma run_phase1_pack_ok L count pos N :
  library_ok L -> 1 <= count < 2 ^ 31 - 1 -> 1 <= N < 2 ^ 31 ->
  exists packed sendcnts,
    run_phase1_pack L count pos N
    = Ok (packed ++ [0], sendcnts,
          (fun j => sumZ (take j sendcnts)) <$> seq 0 (Z.to_nat N))
    /\ Permutation packed ((fun j => u64 (pos + j)) <$> seqZ 0 count)
    /\ length sendcnts = Z.to_nat N
    /\ Forall (fun c => 0 <= c) sendcnts
    /\ sumZ sendcnts = count.
Proof.
  intros HL Hcount HN.
  destruct (phase1_fill_ok L HL count pos N Hcount HN)
    as (dests & Hdlen & Hdests & Hfill).
  destruct (pack_result L HL count pos N Hcount HN dests Hdlen Hdests Hfill)
    as (packed & sendcnts & Hrun & Hperm & _ & Hrest).
  by exists packed, sendcnts.
Qed.

(** ** The library used to run the embedding keeps the contract *)

Lemma Sorted_weaken (R R' : Z -> Z -> Prop) (l : list Z) :
  (forall x y, R x y -> R' x y) -> Sorted R l -> Sorted R' l.
Proof.
  intros HR. induction 1 as [|a l Hs IH Ha]; constructor; [done|].
  destruct Ha; constructor. by apply HR.
Qed.

Lemma tape_library_ok tape : library_ok (tape_library tape).
Proof.
  split.
  - intros lo hi g Hle. destruct g as [|x g]; simpl; [lia|].
    pose proof (Z.mod_pos_bound x (hi - lo + 1) ltac:(lia)). lia.
  - intros key l. simpl. apply merge_sort_Permutation.
  - intros key l. simpl.
    apply (Sorted_weaken (cmp_le (fun i j => key i <? key j))).
    + intros x y. unfold cmp_le. intros H. apply Z.ltb_ge in H. lia.
    + apply Sorted_merge_sort. intros x y. unfold cmp_le.
      destruct (Z.ltb_spec (key y) (key x)); [right|by left].
      apply Z.ltb_ge. lia.
Qed.

(** ** The sentinel of Phase 1 *)

(** C7, with the bounds it needs.  On a rank with
    [1 <= count < 2^31 - 1] in a group of [1 <= N < 2^31] processes (the
    indices and the scan index are [int] in the source) the pair
    (dest = N, value = 0) written at index [count] is sorted to the last
    position; the scan that computes the send counts stops with its
    index exactly at [count]
    (every read of [indices] is inside the [count + 1] elements), the
    [N] send counts are non-negative and sum to [count], and every region
    [[sdispls[j], sdispls[j] + sendcnts[j])] that is transmitted lies in
    the first [count] positions of the send buffer, which hold a
    rearrangement of the owned indices, while the sentinel value sits at
    position [count]. *)
Theorem sentinel_inert L count pos N :
  library_ok L -> 1 <= count < 2 ^ 31 - 1 -> 1 <= N < 2 ^ 31 ->
  exists sendbuf destprocs packed sendcnts sdispls,
    phase1_fill L count pos N = Ok (sendbuf, destprocs, seqZ 0 (count + 1))
    /\ sendbuf !! Z.to_nat count = Some 0
    /\ destprocs !! Z.to_nat count = Some N
    /\ std_sort L (sort_indices destprocs) (seqZ 0 (count + 1))
         !! Z.to_nat count = Some count
    /\ phase1_sendcnts count N destprocs
         (std_sort L (sort_indices destprocs) (seqZ 0 (count + 1)))
       = Ok (sendcnts, count)
    /\ length sendcnts = Z.to_nat N
    /\ Forall (fun c => 0 <= c) sendcnts
    /\ sumZ sendcnts = count
    /\ run_phase1_pack L count pos N = Ok (packed ++ [0], sendcnts, sdispls)
    /\ Permutation packed ((fun j => u64 (pos + j)) <$> seqZ 0 count)
    /\ (forall (j : nat) c d,
          sendcnts !! j = Some c -> sdispls !! j = Some d ->
          0 <= d /\ d + c <= Z.of_nat (length packed)).
Proof.
  intros HL Hcount HN.
  destruct (phase1_fill_ok L HL count pos N Hcount HN)
    as (dests & Hdlen & Hdests & Hfill).
  destruct (pack_result L HL count pos N Hcount HN dests Hdlen Hdests Hfill)
    as (packed & sendcnts & Hrun & Hperm & Hscan & Hsl & Hnn & Hsum).
  destruct (sorted_sentinel_last L HL count N Hcount dests Hdlen Hdests)
    as (front & Hfront & Hfperm).
  assert (Hflen : length front = Z.to_nat count)
    by (by rewrite Hfperm, length_seqZ).
  assert (Hplen : length packed = Z.to_nat count)
    by (by rewrite Hperm, length_fmap, length_seqZ).
  eexists _, _, packed, sendcnts, _.
  split; [exact Hfill|].
  split; [by rewrite lookup_app_r, length_fmap, length_seqZ, Nat.sub_diag
            by (rewrite length_fmap, length_seqZ; lia)|].
  split; [by rewrite lookup_app_r, Hdlen, Nat.sub_diag by lia|].
  split; [by rewrite Hfront, lookup_app_r, Hflen, Nat.sub_diag by lia|].
  split; [exact Hscan|]. split; [done|]. split; [done|]. split; [done|].
  split; [exact Hrun|]. split; [done|].
  intros j c d Hc Hd.
  pose proof (lookup_lt_Some _ _ _ Hc) as Hj.
  rewrite list_lookup_fmap, lookup_seq_lt in Hd by lia.
  injection Hd as <-.
  pose proof (sumZ_take_le sendcnts j Hnn).
  pose proof (sumZ_take_le sendcnts (S j) Hnn) as HS.
  rewrite (sumZ_take_S _ _ _ Hc) in HS. lia.
Qed.

Lemma sentinel_inert_witness :
  exists sendcnts,
    phase1_sendcnts 3 2 [0; 1; 0; 2]
      (std_sort (tape_library [0; 1; 0]) (sort_indices [0; 1; 0; 2])
         (seqZ 0 4))
    = Ok (sendcnts, 3)
    /\ sumZ sendcnts = 3.
Proof.
  destruct (sentinel_inert (tape_library [0; 1; 0]) 3 0 2
              (tape_library_ok _) ltac:(lia) ltac:(lia))
    as (sendbuf & destprocs & packed & sendcnts & sdispls & Hfill & _ & _
        & _ & Hscan & _ & _ & Hsum & _).
  vm_compute in Hfill. injection Hfill as <- <-.
  exists sendcnts. split; [exact Hscan | exact Hsum].
Defined.

(** C7 fails without a bound on [count].  [permute] passes
    [count = 2^32 - 1] to Phase 1 for [n = 2^32 - 1] on one process;
    [count + 1] is then 0 in [unsigned int], the arrays of lines 158-161
    have no element, and the first write of the filling loop is outside
    them: no send count is computed and nothing is sorted. *)
Lemma sentinel_overflow_counterexample :
  1 <= 2 ^ 32 - 1
  /\ lay_count (block_layout (2 ^ 32 - 1) 1 0) = 2 ^ 32 - 1
  /\ forall (L : library) (pos : Z),
       run_phase1_pack L (2 ^ 32 - 1) pos 1 = Fault OutOfBounds.
Proof. split; [lia|]. split; [reflexivity|]. intros L pos. reflexivity. Qed.

(** ** [permute] when some rank owns nothing *)

Lemma mapM_fault {A B} (f : A -> result B) (l : list A) (x : A) e :
  x ∈ l -> f x = Fault e -> exists e', mapM f l = Fault e'.
Proof.
  intros Hx Hf. induction l as [|a l IH]; [by apply elem_of_nil in Hx|].
  apply elem_of_cons in Hx as [<-|Hx].
  - exists e. simpl. by rewrite Hf.
  - destruct (IH Hx) as [e' He']. simpl. destruct (f a); [|by eexists].
    simpl. rewrite He'. by eexists.
Qed.

Lemma permute_fault_count0 L arrival n N p_out r :
  0 <= r < N -> lay_count (block_layout n N r) = 0 ->
  exists e, permute L arrival n N p_out = Fault e.
Proof.
  intros Hr Hc. unfold permute, permute_sends.
  destruct (mapM_fault
              (fun r => run_phase1_pack L (lay_count (block_layout n N r))
                          (lay_pos (block_layout n N r)) (u32 N))
              (seqZ 0 N) r
              (if to_int (u32 (u32 N - 1)) <? 0 then AssertionFailed
               else OutOfBounds)) as [e He].
  - apply elem_of_seqZ. lia.
  - rewrite Hc. apply run_phase1_pack_count0.
  - exists e. by rewrite He.
Qed.

(** C3, at the input where the source departs from it.  Rank 1 of a run
    with [n = 1] and two processes has [pos = 1 >= n] and [count = 0], and
    on a rank with [count = 0] Phase 1 stops with an access outside its
    arrays before any collective is reached.  Whatever [pos] and the
    group size [N] are, Phase 1 with [count = 0] never reaches a
    collective: it stops with that access, or, when [N - 1] is negative
    as [int], already at the assertion of the distribution. *)
Theorem phase1_count0_out_of_bounds (L : library) (pos N : Z) :
  lay_count (block_layout 1 2 1) = 0
  /\ lay_pos (block_layout 1 2 1) = 1
  /\ run_phase1_pack L 0 pos 2 = Fault OutOfBounds
  /\ run_phase1_pack L 0 pos N
     = Fault (if to_int (u32 (N - 1)) <? 0 then AssertionFailed
              else OutOfBounds).
Proof.
  split; [reflexivity|]. split; [reflexivity|].
  split; apply run_phase1_pack_count0.
Qed.

(** C2, at the input where the source departs from it.  With [n = 1] on
    two processes, [permute] does not return: whatever the generator, the
    sort, the arrival order and the caller's vectors are, the run ends in
    a fault. *)
Theorem permute_1_2_fault (L : library)
    (arrival : Z -> list message -> list message) (p_out : Z -> list Z) :
  exists e, permute L arrival 1 2 p_out = Fault e.
Proof. apply (permute_fault_count0 L arrival 1 2 p_out 1); [lia|reflexivity]. Qed.

(** ** [permute] of two indices on two processes *)

Lemma phase1_fill_count1 L pos :
  phase1_fill L 1 pos 2
  = Ok ([u64 (pos + 0); 0],
        [u32 (uniform_int L 0 1 (default_engine L)).1; 2], [0; 1]).
Proof.
  unfold phase1_fill.
  change (Z.to_nat (u32 (1 + 1))) with 2%nat.
  change (u32 (1 - 1)) with 0. change (to_int (u32 (2 - 1))) with 1.
  change (1 <? 0) with false. cbv iota.
  cbn [for_loop replicate]. change (0 <=? 0) with true. cbv iota.
  rewrite phase1_fill_body_ok by (simpl; lia). cbn [rbind].
  change (u32 (0 + 1)) with 1. change (1 <=? 0) with false. cbv iota.
  reflexivity.
Qed.

Lemma run_phase1_pack_count1 L pos :
  library_ok L ->
  let d := (uniform_int L 0 1 (default_engine L)).1 in
  run_phase1_pack L 1 pos 2 = Ok ([u64 (pos + 0); 0], [1 - d; d], [0; 1 - d]).
Proof.
  intros HL d.
  pose proof (uniform_int_range L HL 0 1 (default_engine L) ltac:(lia)) as Hd.
  fold d in Hd.
  destruct (sorted_sentinel_last L HL 1 2 ltac:(lia) [d] eq_refl)
    as (front & Hsorted & Hfront).
  { repeat constructor; lia. }
  change (seqZ 0 1) with [0] in Hfront.
  apply Permutation_singleton_r in Hfront as ->.
  unfold run_phase1_pack. rewrite phase1_fill_count1. cbn [rbind].
  fold d. rewrite (u32_small d) by lia.
  rewrite phase1_sort_ok by (repeat constructor; simpl; lia). cbn [rbind].
  change ([d] ++ [2]) with [d; 2] in Hsorted.
  change (seqZ 0 (1 + 1)) with [0; 1] in Hsorted. rewrite Hsorted.
  assert (d = 0 \/ d = 1) as [->| ->] by lia; reflexivity.
Qed.

Lemma resize_length v sz : length (resize v sz) = Z.to_nat sz.
Proof. unfold resize. rewrite length_app, length_take, length_replicate. lia. Qed.

Lemma run_phase2_pair L :
  library_ok L ->
  run_phase2 L [0; 1] 2
  = Ok (if (uniform_int L 0 1 (default_engine L)).1 =? 0 then [1; 0]
        else [0; 1]).
Proof.
  intros HL.
  pose proof (uniform_int_range L HL 0 1 (default_engine L) ltac:(lia)) as Hd.
  change 2 with (Z.of_nat (length [0; 1])) at 1.
  rewrite (run_phase2_small L HL [0; 1]) by (repeat constructor; simpl; lia).
  unfold fisher_yates. cbn [length Nat.sub fisher_yates_from].
  change (Z.of_nat 1) with 1.
  destruct (uniform_int L 0 1 (default_engine L)) as [d g1]. cbn [fst] in *.
  assert (d = 0 \/ d = 1) as [->| ->] by lia; reflexivity.
Qed.

Lemma permute_2_2_faults L arrival p_out :
  library_ok L ->
  permute L arrival 2 2 p_out = Fault InvalidRank
  \/ permute L arrival 2 2 p_out = Fault OutOfBounds.
Proof.
  intros HL.
  pose proof (uniform_int_range L HL 0 1 (default_engine L) ltac:(lia)) as Hd.
  pose proof (run_phase1_pack_count1 L 0 HL) as Hp0.
  pose proof (run_phase1_pack_count1 L 1 HL) as Hp1.
  pose proof (run_phase2_pair L HL) as Hp2.
  cbv zeta in Hp0, Hp1.
  pose proof (resize_length (p_out 0) 1) as Hl0.
  pose proof (resize_length (p_out 1) 1) as Hl1.
  unfold permute, permute_sends. change (seqZ 0 2) with [0; 1]. cbn [mapM].
  change (lay_count (block_layout 2 2 0)) with 1.
  change (lay_count (block_layout 2 2 1)) with 1.
  change (lay_pos (block_layout 2 2 0)) with 0.
  change (lay_pos (block_layout 2 2 1)) with 1.
  change (u32 2) with 2. rewrite Hp0, Hp1. cbn [rbind].
  destruct (uniform_int L 0 1 (default_engine L)) as [d g1] eqn:Hui.
  cbn [fst] in *.
  assert (d = 0 \/ d = 1) as [->| ->] by lia.
  - left.
    change (run_phase1_exchange 2 [([u64 (0 + 0); 0], [1 - 0; 0], [0; 1 - 0]);
       ([u64 (1 + 0); 0], [1 - 0; 0], [0; 1 - 0])] 0) with (Ok ([0; 1], 2)).
    change (run_phase1_exchange 2 [([u64 (0 + 0); 0], [1 - 0; 0], [0; 1 - 0]);
       ([u64 (1 + 0); 0], [1 - 0; 0], [0; 1 - 0])] 1) with (Ok ([] : list Z, 0)).
    cbn [rbind mapM]. rewrite Hp2.
    change (run_phase2 L [] 0) with (Ok ([] : list Z)).
    cbn [rbind mapM zip zip_with fmap list_fmap snd].
    change (lay_allocsz (block_layout 2 2 0)) with 1.
    change (lay_allocsz (block_layout 2 2 1)) with 1.
    destruct (resize (p_out 0) 1) as [|x0 [|? ?]]; [done| |done].
    destruct (resize (p_out 1) 1) as [|x1 [|? ?]]; [done| |done].
    reflexivity.
  - right.
    change (run_phase1_exchange 2 [([u64 (0 + 0); 0], [1 - 1; 1], [0; 1 - 1]);
       ([u64 (1 + 0); 0], [1 - 1; 1], [0; 1 - 1])] 0) with (Ok ([] : list Z, 0)).
    change (run_phase1_exchange 2 [([u64 (0 + 0); 0], [1 - 1; 1], [0; 1 - 1]);
       ([u64 (1 + 0); 0], [1 - 1; 1], [0; 1 - 1])] 1) with (Ok ([0; 1], 2)).
    cbn [rbind mapM]. rewrite Hp2.
    change (run_phase2 L [] 0) with (Ok ([] : list Z)).
    cbn [rbind mapM zip zip_with fmap list_fmap snd].
    change (lay_allocsz (block_layout 2 2 0)) with 1.
    change (lay_allocsz (block_layout 2 2 1)) with 1.
    destruct (resize (p_out 0) 1) as [|x0 [|? ?]]; [done| |done].
    destruct (resize (p_out 1) 1) as [|x1 [|? ?]]; [done| |done].
    reflexivity.
Qed.

Lemma permute_0_1_fault L arrival p_out :
  permute L arrival 0 1 p_out = Fault OutOfBounds.
Proof.
  unfold permute, permute_sends. change (seqZ 0 1) with [0]. cbn [mapM].
  change (lay_count (block_layout 0 1 0)) with 0.
  by rewrite run_phase1_pack_count0.
Qed.

(** C1, at inputs where the source departs from it.  Two indices on two
    processes are never delivered: both ranks draw the same destination,
    and then either the rank that holds both elements leaves its sender
    loop before the last slice of length 1 while the empty rank addresses
    rank 2, or the empty rank 0 copies from its empty buffer.  And with
    [n = 0] the only rank faults in Phase 1. *)
Theorem permute_coverage_fails L arrival p_out :
  library_ok L ->
  (permute L arrival 2 2 p_out = Fault InvalidRank
   \/ permute L arrival 2 2 p_out = Fault OutOfBounds)
  /\ permute L arrival 0 1 p_out = Fault OutOfBounds.
Proof.
  intros HL. split; [by apply permute_2_2_faults | apply permute_0_1_fault].
Qed.

Lemma permute_coverage_fails_witness :
  permute (tape_library [0]) (fun _ inbox => inbox) 2 2 (fun _ => [])
  = Fault InvalidRank.
Proof.
  destruct (permute_coverage_fails (tape_library [0]) (fun _ inbox => inbox)
              (fun _ => []) (tape_library_ok _)) as [[H|H] _].
  - exact H.
  - vm_compute in H. discriminate H.
Defined.

(** The slice that the sender loop leaves behind: three indices on two
    processes, every destination drawn as rank 0.  Rank 0 holds positions
    0..2, copies 0..1 and leaves its loop with [firstp = last = 2]; rank 1
    waits for a slice that is never sent. *)
Lemma permute_3_2_drops_last_slice :
  permute (tape_library [0; 0; 0]) (fun _ inbox => inbox) 3 2 (fun _ => [])
  = Fault Deadlock.
Proof. vm_compute. reflexivity. Qed.

(** ** Input errors *)


(** Without [PRINT_DEBUG] the rank prints nothing in this part of
    [run_phase1], and what it goes on with is what [run_phase1_pack]
    computes. *)
Lemma run_phase1_head_pack L rank debug_rank count pos N :
  (run_phase1_head L false rank debug_rank count pos N).2
  = run_phase1_pack L count pos N
  /\ Forall is_collective
       (run_phase1_head L false rank debug_rank count pos N).1.
Proof.
  unfold run_phase1_head, run_phase1_pack, debug, emit, lift, tret.
  cbn [andb].
  destruct (phase1_fill L count pos N) as [[[sendbuf destprocs] indices]|];
    [|by split]. cbn [tbind rbind].
  destruct (phase1_sort L destprocs indices) as [sorted|]; [|by split].
  cbn [tbind rbind].
  destruct (phase1_gather count sendbuf sorted) as [sortedsendbuf|];
    [|by split]. cbn [tbind rbind].
  destruct (phase1_sendcnts count N destprocs sorted) as [[sendcnts k]|];
    [|by split]. cbn [tbind rbind].
  destruct (displacements N sendcnts) as [sdispls|]; [|by split].
  cbn [tbind rbind app]. split; [done|]. by repeat constructor.
Qed.




(** ** The receive loop does not depend on the order of arrival *)

Lemma lookup_inserts_cases (l k : list Z) (i j : nat) :
  list_inserts i k l !! j
  = if decide (i <= j < i + length k /\ j < length l)%nat
    then k !! (j - i)%nat else l !! j.
Proof.
  case_decide as H.
  - apply list_lookup_inserts; lia.
  - destruct (decide (j < i)%nat); [by apply list_lookup_inserts_lt|].
    destruct (decide (i + length k <= j)%nat);
      [by apply list_lookup_inserts_ge|].
    rewrite !lookup_ge_None_2; [done|lia|rewrite length_inserts; lia].
Qed.

Lemma list_inserts_commute (l k1 k2 : list Z) (i1 i2 : nat) :
  (i1 + length k1 <= i2 \/ i2 + length k2 <= i1)%nat ->
  list_inserts i1 k1 (list_inserts i2 k2 l)
  = list_inserts i2 k2 (list_inserts i1 k1 l).
Proof.
  intros Hd. apply list_eq. intros j.
  rewrite !lookup_inserts_cases, !length_inserts.
  repeat case_decide; try done; lia.
Qed.

Lemma deliver_length pos msgs : forall perm,
  length (deliver pos perm msgs) = length perm.
Proof.
  induction msgs as [|msg msgs IH]; intros perm; [done|].
  simpl. by rewrite IH, length_inserts.
Qed.

Lemma all_disjoint_Permutation l l' :
  Permutation l l' -> all_disjoint l -> all_disjoint l'.
Proof.
  induction 1 as [|x l l' Hp IH|x y l|l l' l'' Hp IH Hp' IH']; simpl.
  - done.
  - intros [Hx Hl]. split; [by rewrite <- Hp | by apply IH].
  - intros [Hy [Hx Hl]]. apply Forall_cons in Hy as [Hyx Hy].
    split; [|done]. apply Forall_cons. split; [|done].
    destruct Hyx; [by right | by left].
  - auto.
Qed.

Lemma deliver_Permutation pos l l' :
  Permutation l l' -> all_disjoint l ->
  forall perm, Forall (msg_fits pos (length perm)) l ->
    deliver pos perm l = deliver pos perm l'.
Proof.
  induction 1 as [|x l l' Hp IH|x y l|l l' l'' Hp IH Hp' IH']; simpl.
  - done.
  - intros [Hx Hl] perm Hf. apply Forall_cons in Hf as [Hfx Hf].
    apply IH; [done|]. by rewrite length_inserts.
  - intros [Hy [Hx Hl]] perm Hf. apply Forall_cons in Hy as [Hyx Hy].
    apply Forall_cons in Hf as [Hfy Hf]. apply Forall_cons in Hf as [Hfx Hf].
    f_equal. apply list_inserts_commute.
    destruct Hfx as (? & ? & ? & ? & ?), Hfy as (? & ? & ? & ? & ?).
    unfold msg_disjoint, msg_before, msg_end in *. lia.
  - intros Hl perm Hf. rewrite IH by done.
    apply IH'; [by eapply all_disjoint_Permutation|by rewrite <- Hp].
Qed.

Lemma deliver_nothing pos msgs :
  Forall (fun msg => msg_payload msg = []) msgs ->
  forall perm, deliver pos perm msgs = perm.
Proof.
  induction 1 as [|msg msgs Hm _ IH]; intros perm; [done|].
  simpl. rewrite Hm. simpl. apply IH.
Qed.

Lemma phase3_recv_delivers pos msgs : forall remains perm,
  Forall (msg_fits pos (length perm)) msgs ->
  sumZ (msg_countp <$> msgs) <= remains < 2 ^ 32 ->
  phase3_recv pos remains perm msgs
  = if decide (sumZ (msg_countp <$> msgs) = remains)
    then Ok (deliver pos perm msgs) else Fault Deadlock.
Proof.
  induction msgs as [|msg msgs IH]; intros remains perm Hf Hsum.
  - simpl in *. destruct (Z.gtb_spec remains 0); case_decide; try done; lia.
  - apply Forall_cons in Hf as [Hm Hf].
    change (sumZ (msg_countp <$> msg :: msgs))
      with (msg_countp msg + sumZ (msg_countp <$> msgs)) in *.
    assert (Hnn : 0 <= sumZ (msg_countp <$> msgs)).
    { apply sumZ_nonneg, Forall_fmap. eapply Forall_impl; [exact Hf|].
      intros m (? & _). simpl. lia. }
    destruct Hm as (Hc & Hlen & Hpos & Hend & Hoff).
    unfold msg_end in Hend. cbn [phase3_recv].
    destruct (Z.gtb_spec remains 0) as [Hgt|Hle].
    + assert (Hwr : wr_range perm (u64 (msg_firstp msg - pos))
                      (msg_payload msg)
                    = Ok (list_inserts (Z.to_nat (msg_firstp msg - pos))
                            (msg_payload msg) perm)).
      { unfold wr_range. destruct (msg_payload msg) as [|v vs]; [done|].
        rewrite u64_small by lia.
        destruct (Z.leb_spec 0 (msg_firstp msg - pos)); [|lia].
        destruct (Z.leb_spec
                    (msg_firstp msg - pos + Z.of_nat (length (v :: vs)))
                    (Z.of_nat (length perm))); [done|lia]. }
      rewrite (u32_small (msg_countp msg)) by lia.
      destruct (Z.ltb_spec (msg_countp msg)
                  (Z.of_nat (length (msg_payload msg)))); [lia|].
      rewrite Hwr. cbn [rbind]. rewrite u32_small by lia.
      rewrite IH; [|by rewrite length_inserts|lia].
      repeat case_decide; try done; lia.
    + assert (remains = 0) as -> by lia.
      rewrite decide_True by lia.
      rewrite deliver_nothing; [done|]. constructor.
      * apply nil_length_inv. lia.
      * assert (H0 : sumZ (msg_countp <$> msgs) = 0) by lia. clear -Hf H0.
        induction Hf as [|m ms (Hc & Hl & _) Hf IH]; [done|].
        change (sumZ (msg_countp <$> m :: ms))
          with (msg_countp m + sumZ (msg_countp <$> ms)) in H0.
        assert (0 <= sumZ (msg_countp <$> ms)).
        { apply sumZ_nonneg, Forall_fmap. eapply Forall_impl; [exact Hf|].
          intros ? (? & _). simpl. lia. }
        constructor; [apply nil_length_inv; lia | apply IH; lia].
Qed.

Lemma sumZ_Permutation l l' : Permutation l l' -> sumZ l = sumZ l'.
Proof. induction 1; simpl; lia. Qed.

Lemma phase3_recv_Permutation pos remains perm inbox inbox' :
  Permutation inbox inbox' ->
  Forall (msg_fits pos (length perm)) inbox -> all_disjoint inbox ->
  sumZ (msg_countp <$> inbox) <= remains < 2 ^ 32 ->
  phase3_recv pos remains perm inbox = phase3_recv pos remains perm inbox'.
Proof.
  intros Hp Hf Hd Hsum.
  assert (Hs : sumZ (msg_countp <$> inbox) = sumZ (msg_countp <$> inbox'))
    by (by apply sumZ_Permutation, fmap_Permutation).
  rewrite !phase3_recv_delivers; [|by rewrite <- Hp|lia|done|done].
  rewrite <- Hs. case_decide; [|done]. f_equal.
  by apply deliver_Permutation.
Qed.

(** The receive loop on the first slices of its inbox, when they do not
    exhaust [remains]. *)
Lemma phase3_recv_app pos pre : forall remains perm rest,
  Forall (msg_fits pos (length perm)) pre ->
  sumZ (msg_countp <$> pre) < remains < 2 ^ 32 ->
  phase3_recv pos remains perm (pre ++ rest)
  = phase3_recv pos (remains - sumZ (msg_countp <$> pre))
      (deliver pos perm pre) rest.
Proof.
  induction pre as [|msg pre IH]; intros remains perm rest Hf Hsum.
  - simpl. by rewrite Z.sub_0_r.
  - apply Forall_cons in Hf as [Hm Hf].
    change (sumZ (msg_countp <$> msg :: pre))
      with (msg_countp msg + sumZ (msg_countp <$> pre)) in *.
    assert (Hnn : 0 <= sumZ (msg_countp <$> pre)).
    { apply sumZ_nonneg, Forall_fmap. eapply Forall_impl; [exact Hf|].
      intros a (? & _). simpl. lia. }
    destruct Hm as (Hc & Hlen & Hpos & Hend & Hoff).
    unfold msg_end in Hend. cbn [app phase3_recv].
    destruct (Z.gtb_spec remains 0) as [Hgt|Hle]; [|lia].
    rewrite (u32_small (msg_countp msg)) by lia.
    destruct (Z.ltb_spec (msg_countp msg)
                (Z.of_nat (length (msg_payload msg)))); [lia|].
    assert (Hwr : wr_range perm (u64 (msg_firstp msg - pos))
                    (msg_payload msg)
                  = Ok (list_inserts (Z.to_nat (msg_firstp msg - pos))
                          (msg_payload msg) perm)).
    { unfold wr_range. destruct (msg_payload msg) as [|v vs]; [done|].
      rewrite u64_small by lia.
      destruct (Z.leb_spec 0 (msg_firstp msg - pos)); [|lia].
      destruct (Z.leb_spec
                  (msg_firstp msg - pos + Z.of_nat (length (v :: vs)))
                  (Z.of_nat (length perm))); [done|lia]. }
    rewrite Hwr. cbn [rbind]. rewrite u32_small by lia.
    rewrite IH; [|by rewrite length_inserts|lia].
    f_equal. lia.
Qed.

(** A slice that is not empty and whose header names a position beyond
    the vector of the receiver stops the receive loop: the payload does
    not fit the count of the header, or it is stored outside the
    vector. *)
Lemma phase3_recv_foreign_header pos remains perm hdr msg rest :
  0 < remains -> msg_payload msg <> [] ->
  0 <= hdr.1 - pos < 2 ^ 64 -> Z.of_nat (length perm) <= hdr.1 - pos ->
  exists f,
    phase3_recv pos remains perm (with_header hdr msg :: rest) = Fault f.
Proof.
  intros Hrem Hpl Hoff Hlen. cbn [phase3_recv with_header msg_firstp
    msg_countp msg_payload].
  destruct (Z.gtb_spec remains 0); [|lia].
  destruct (_ <? _); [by eexists|].
  unfold wr_range. destruct (msg_payload msg) as [|v vs]; [done|].
  rewrite u64_small by done.
  destruct (Z.leb_spec (hdr.1 - pos + Z.of_nat (length (v :: vs)))
              (Z.of_nat (length perm))) as [Hle|_].
  { simpl in Hle. lia. }
  rewrite andb_false_r. by eexists.
Qed.

(** ** Transports *)

(** [buf] holds the header of a slice at the call that sends it. *)
Lemma buf_after_own (sent : list message) (i : nat) (msg : message) :
  sent !! i = Some msg -> header_of msg ∈ buf_after sent i.
Proof.
  intros Hi. unfold buf_after. rewrite Hi, (drop_S _ _ _ Hi).
  rewrite filter_cons_True by done. rewrite fmap_cons. constructor.
Qed.

(** An eager transport is one of those that complete a send at any
    time up to [MPI_Wait]. *)
Lemma eager_may_deliver (arrival : Z -> list message -> list message)
    (sent inbox : list message) (r : Z) :
  eager arrival -> inbox ⊆ sent -> may_deliver sent inbox (arrival r inbox).
Proof.
  intros Harr Hsub. exists inbox. split; [apply Harr|].
  apply Forall_Forall2_diag, Forall_forall. intros msg Hmsg.
  apply Hsub, list_elem_of_lookup_1 in Hmsg as [i Hi].
  exists i, (header_of msg). split; [done|].
  split; [by apply buf_after_own|by destruct msg].
Qed.

(** ** What the sender loop puts in flight *)

Lemma for_loop_inv {S : Type} (I : S -> Prop) cond step
    (body : Z -> S -> result S) :
  (forall k s s', I s -> body k s = Ok s' -> I s') ->
  forall (fuel : nat) (k : Z) (s s' : S), I s ->
    for_loop fuel cond step body k s = Ok s' -> I s'.
Proof.
  intros Hstep. induction fuel as [|fuel IH]; intros k s s' Hs; [done|].
  cbn [for_loop]. destruct (cond k); [|by intros [= <-]].
  destruct (body k s) as [s1|] eqn:Hb; cbn [rbind]; [|done].
  apply IH. by eapply Hstep.
Qed.

Lemma rd_range_length (a : list Z) (off len : Z) (data : list Z) :
  0 <= len -> rd_range a off len = Ok data -> Z.of_nat (length data) = len.
Proof.
  intros Hlen. unfold rd_range. destruct (Z.leb_spec len 0).
  - intros [= <-]. simpl. lia.
  - destruct (Z.leb_spec 0 off); [|done].
    destruct (Z.leb_spec (off + len) (Z.of_nat (length a))); [|done].
    intros [= <-]. rewrite length_take, length_drop. lia.
Qed.

Lemma StronglySorted_snoc {A} (R : A -> A -> Prop) (l : list A) (x : A) :
  StronglySorted R l -> Forall (fun a => R a x) l ->
  StronglySorted R (l ++ [x]).
Proof.
  induction 1 as [|a l Hs IH Ha]; intros Hx; simpl.
  - repeat constructor.
  - apply Forall_cons in Hx as [Hax Hx]. constructor; [by apply IH|].
    apply Forall_app. split; [done|]. by constructor.
Qed.

Lemma copy_loop_length temp first pos fuel cond step k perm perm' :
  for_loop fuel cond step (copy_body temp first pos) k perm = Ok perm' ->
  length perm' = length perm.
Proof.
  apply (for_loop_inv (fun p => length p = length perm)); [|done].
  intros k' s s' Hs. unfold copy_body.
  destruct (rd temp (u64 (k' - first))); cbn [rbind]; [|done].
  intros Hw. by rewrite (wr_length _ _ _ _ Hw).
Qed.

Section Send.
Variables (N rank m n first sz count : Z) (temp : list Z).
Hypothesis Hm : 1 <= m <= n.
Hypothesis Hrank : 0 <= rank < N.
Hypothesis Hn : n < 2 ^ 31.
Hypothesis Hfirst : 0 <= first.
Hypothesis Hsz : 0 <= sz.
Hypothesis Hheld : 1 <= first + sz <= n.
Hypothesis Hcount : count = Z.min m (n - rank * m).

Lemma send_body_inv st st' :
  send_inv N rank m first sz count st -> send_head m st ->
  send_body N rank temp m (rank * m) first (first + sz - 1) st = Ok st' ->
  send_inv N rank m first sz count st'
  /\ (st'.1.1.1.2 < first + sz - 1 -> send_head m st').
Proof.
  destruct st as [[[[rp firstp] remains] perm] sent].
  intros (Hfp & Hok & Hend & Hsorted & Hrem & Hov & Hlen) (Hrp & Hhead).
  unfold send_body.
  replace ((rp + 1) * m) with (rp * m + m) in * by ring.
  assert (Hrpn : rp <= n) by nia.
  unfold overlap in *.
  replace ((rank + 1) * m) with (rank * m + m) in * by ring.
  remember (rp * m) as B eqn:HB.
  rewrite (u32_small (B + m)), (u32_small (B + m - 1)) by lia.
  set (lastp := if B + m - 1 >? first + sz - 1 then first + sz - 1
                else B + m - 1).
  assert (Hlastp : lastp = Z.min (B + m - 1) (first + sz - 1)).
  { unfold lastp. destruct (Z.gtb_spec (B + m - 1) (first + sz - 1)); lia. }
  clearbody lastp.
  rewrite (u64_small (lastp - firstp + 1)), (u32_small (lastp - firstp + 1))
    by lia.
  rewrite (to_int_small rp), (u32_small (rp + 1)) by lia.
  rewrite (u64_small (firstp + (lastp - firstp + 1))) by lia.
  replace (firstp + (lastp - firstp + 1)) with (lastp + 1) by lia.
  assert (Hnext : forall remains' perm' sent',
            lastp + 1 < first + sz - 1 ->
            send_head m (rp + 1, lastp + 1, remains', perm', sent')).
  { intros ? ? ? Hlt. unfold send_head.
    replace ((rp + 1 + 1) * m) with ((rp + 1) * m + m) by ring.
    replace ((rp + 1) * m) with (B + m) by (rewrite HB; ring). lia. }
  destruct (Z.eqb_spec rank rp) as [Heq|Hne].
  - (* the slice is copied locally *)
    destruct (for_loop _ _ _ _ _ perm) as [perm'|] eqn:Hcopy;
      cbn [rbind]; [|done].
    apply copy_loop_length in Hcopy. intros [= <-]. cbn [fst snd].
    subst rank. rewrite <- HB in *.
    rewrite u32_small by lia.
    split; [|by apply Hnext]. unfold send_inv, overlap.
    replace ((rp + 1) * m) with (rp * m + m) by ring. rewrite <- HB.
    split; [lia|]. split; [done|].
    split; [eapply Forall_impl; [exact Hend|]; simpl; intros; lia|].
    split; [done|]. split; [lia|]. split; [lia|]. congruence.
  - (* the slice is sent to [rp] *)
    destruct (Z.leb_spec 0 rp); [|lia].
    destruct (Z.ltb_spec rp N) as [HrpN|]; [|done]. cbn [andb].
    destruct (rd_range _ _ _) as [payload|] eqn:Hpl; cbn [rbind]; [|done].
    apply rd_range_length in Hpl; [|lia]. intros [= <-]. cbn [fst snd].
    split; [|by apply Hnext]. unfold send_inv, overlap.
    replace ((rank + 1) * m) with (rank * m + m) by ring.
    split; [lia|].
    split.
    { apply Forall_app. split; [done|]. constructor; [|done].
      unfold slice_ok, msg_end. cbn.
      replace ((rp + 1) * m) with (rp * m + m) by ring. rewrite <- HB.
      repeat split; lia. }
    split.
    { apply Forall_app. split.
      - eapply Forall_impl; [exact Hend|]. simpl. intros; lia.
      - constructor; [|done]. unfold msg_end. cbn. lia. }
    split.
    { apply StronglySorted_snoc; [done|].
      eapply Forall_impl; [exact Hend|]. unfold msg_before. cbn. auto. }
    split; [done|]. split; [lia|]. done.
Qed.

Lemma phase3_send_facts perm remains perm' sent :
  1 <= count -> length perm = Z.to_nat count ->
  phase3_send N rank temp sz m (rank * m) count first perm
  = Ok (remains, perm', sent) ->
  Forall (slice_ok N rank m first sz) sent
  /\ StronglySorted msg_before sent
  /\ 0 <= remains <= count
  /\ count - remains
     <= overlap first (first + sz) (rank * m) ((rank + 1) * m)
  /\ length perm' = Z.to_nat count.
Proof.
  intros Hc Hlen. unfold phase3_send, do_while.
  rewrite (u64_small sz), (u64_small (first + sz - 1)) by lia.
  pose proof (Z.mul_div_le first m ltac:(lia)) as Hd1.
  pose proof (Z.mul_succ_div_gt first m ltac:(lia)) as Hd2.
  assert (Hd0 : 0 <= first / m) by (apply Z.div_pos; lia).
  assert (Hd3 : first / m <= first) by nia.
  rewrite (first_owner first m) by lia.
  destruct (send_body _ _ _ _ _ _ _ _) as [st1|] eqn:Hb1; cbn [rbind]; [|done].
  destruct (while_loop _ _ _ st1) as [st2|] eqn:Hloop; cbn [rbind]; [|done].
  apply send_body_inv in Hb1 as [Hinv1 Hhead1].
  2:{ unfold send_inv, overlap.
      repeat split; try done; try lia; constructor. }
  2:{ unfold send_head. replace ((first / m + 1) * m)
        with (m * Z.succ (first / m)) by lia. lia. }
  apply (while_loop_inv
           (fun st => send_inv N rank m first sz count st
                      /\ (st.1.1.1.2 < first + sz - 1 -> send_head m st)))
    in Hloop as [[Hinv2 _] _]; [| |done].
  - destruct st2 as [[[[rp firstp] remains2] perm2] sent2].
    intros [= <- <- <-].
    destruct Hinv2 as (Hfp & Hok & _ & Hsorted & Hrem & Hov & Hl).
    repeat split; try done; try lia.
    unfold overlap in *. lia.
  - intros s s' [Hinv Hhead] Hcond Hbody.
    apply (send_body_inv s s'); [done| |done].
    apply Hhead. destruct s as [[[[rp firstp] remains2] perm2] sent2].
    cbn in *. injection Hcond as Hcond. by apply Z.ltb_lt.
Qed.
End Send.

(** A rank that holds nothing and whose base position is 0 reads from its
    empty buffer. *)
Lemma phase3_send_nothing_at_0 N rank (temp : list Z) m pos count perm :
  1 <= m < 2 ^ 31 -> 0 <= rank < N -> length temp = 0%nat ->
  phase3_send N rank temp 0 m pos count 0 perm = Fault OutOfBounds.
Proof.
  intros Hm Hrank Htemp. apply nil_length_inv in Htemp as ->.
  unfold phase3_send, do_while.
  change (u64 (0 + u64 0 - 1)) with (2 ^ 64 - 1).
  rewrite (first_owner 0 m) by lia. change (0 / m) with 0. unfold send_body.
  change (0 + 1) with 1. rewrite Z.mul_1_l.
  rewrite (u32_small m), (u32_small (m - 1)) by lia.
  destruct (Z.gtb_spec (m - 1) (2 ^ 64 - 1)); [lia|].
  replace (m - 1 - 0 + 1) with m by lia.
  rewrite (u64_small m), (u32_small m) by lia.
  change (to_int 0) with 0.
  destruct (Z.eqb_spec rank 0) as [->|Hne].
  - cbn [for_loop]. change (u32 0) with 0.
    destruct (Z.leb_spec 0 (m - 1)); [|lia]. reflexivity.
  - destruct (Z.ltb_spec 0 N); [|lia]. cbn [Z.leb andb].
    unfold rd_range. destruct (Z.leb_spec m 0); [lia|].
    change (u64 (0 - 0)) with 0.
    destruct (Z.leb_spec (0 + m) (Z.of_nat (length (@nil Z)))); [simpl in *; lia|].
    reflexivity.
Qed.

(** ** The stages of [permute] *)

Lemma mapM_Forall2 {A B} (f : A -> result B) (l : list A) (ys : list B) :
  mapM f l = Ok ys -> Forall2 (fun x y => f x = Ok y) l ys.
Proof.
  revert ys. induction l as [|a l IH]; intros ys; simpl.
  - intros [= <-]. constructor.
  - destruct (f a) as [b|] eqn:Hb; cbn [rbind]; [|done].
    destruct (mapM f l) as [bs|]; cbn [rbind]; [|done].
    intros [= <-]. constructor; [done|by apply IH].
Qed.

Lemma mapM_ext_in {A B} (f g : A -> result B) (l : list A) :
  (forall x, x ∈ l -> f x = g x) -> mapM f l = mapM g l.
Proof.
  induction l as [|a l IH]; intros Hfg; [done|]. simpl.
  rewrite (Hfg a) by (by left). rewrite IH; [done|].
  intros x Hx. apply Hfg. by right.
Qed.

Lemma foldM_inv {A S} (I : S -> Prop) (f : S -> A -> result S) :
  (forall s a s', I s -> f s a = Ok s' -> I s') ->
  forall (l : list A) (s s' : S), I s -> foldM f s l = Ok s' -> I s'.
Proof.
  intros Hstep. induction l as [|a l IH]; intros s s' Hs; simpl.
  - by intros [= <-].
  - destruct (f s a) as [s1|] eqn:Hf; cbn [rbind]; [|done].
    apply IH. by eapply Hstep.
Qed.

Lemma wr_range_length (a : list Z) off data a' :
  wr_range a off data = Ok a' -> length a' = length a.
Proof.
  unfold wr_range. destruct data as [|v vs]; [by intros [= <-]|].
  destruct (_ && _); [|done]. intros [= <-].
  apply (length_inserts a (Z.to_nat off) (v :: vs)).
Qed.

Lemma MPI_Alltoallv_length packs rdispls r temp temp' :
  MPI_Alltoallv packs rdispls r temp = Ok temp' -> length temp' = length temp.
Proof.
  unfold MPI_Alltoallv.
  apply (foldM_inv (fun t => length t = length temp)); [|done].
  intros t [s [[sb sc] sd]] t' Ht. unfold alltoallv_block.
  destruct (rd sc r); cbn [rbind]; [|done].
  destruct (rd sd r); cbn [rbind]; [|done].
  destruct (rd_range _ _ _); cbn [rbind]; [|done].
  destruct (rd rdispls s); cbn [rbind]; [|done].
  intros Hw. by rewrite (wr_range_length _ _ _ _ Hw).
Qed.

Lemma MPI_Alltoall_ok (scs : list (list Z)) (r : Z) :
  Forall (fun sc => 0 <= r < Z.of_nat (length sc)) scs ->
  MPI_Alltoall scs r = Ok ((fun sc => sc !!! Z.to_nat r) <$> scs).
Proof.
  unfold MPI_Alltoall. induction 1 as [|sc scs Hsc _ IH]; [done|].
  simpl. rewrite rd_ok by done. cbn [rbind]. by rewrite IH.
Qed.

Lemma total_loop_ok N (recvcnts : list Z) :
  1 <= N < 2 ^ 32 -> length recvcnts = Z.to_nat N ->
  Forall (fun c => 0 <= c) recvcnts -> sumZ recvcnts < 2 ^ 32 ->
  for_loop (S (Z.to_nat N)) (fun rp => rp <=? u32 (N - 1))
    (fun rp => u32 (rp + 1)) (total_body recvcnts) 0 0
  = Ok (sumZ recvcnts).
Proof.
  intros HN Hlen Hnn Hsum. rewrite u32_small by lia.
  destruct (for_loop_range
              (fun rp total => total = sumZ (take (Z.to_nat rp) recvcnts))
              (fun rp => rp <=? N - 1) (fun rp => u32 (rp + 1))
              (total_body recvcnts) N ltac:(apply Z.leb_gt; lia)
              (Z.to_nat N) 0 (S (Z.to_nat N)) 0)
    as (total & Hloop & ->).
  - lia.
  - intros k Hk. split; [apply Z.leb_le; lia | apply u32_small; lia].
  - intros rp total Hrp ->. unfold total_body.
    rewrite rd_ok by lia. cbn [rbind]. eexists. split; [done|].
    replace (Z.to_nat (rp + 1)) with (S (Z.to_nat rp)) by lia.
    rewrite take_S_total, sumZ_app by lia. simpl.
    pose proof (sumZ_take_le recvcnts (S (Z.to_nat rp)) Hnn) as Hle.
    rewrite take_S_total, sumZ_app in Hle by lia. simpl in Hle.
    rewrite u32_small by lia. lia.
  - lia.
  - done.
  - rewrite Hloop. by rewrite <- Hlen, firstn_all.
Qed.

Lemma run_phase1_exchange_facts N packs r temp total :
  1 <= N < 2 ^ 31 -> 0 <= r < N ->
  length packs = Z.to_nat N ->
  Forall (fun p => length p.1.2 = Z.to_nat N
                   /\ Forall (fun c => 0 <= c) p.1.2) packs ->
  sumZ ((fun p => p.1.2 !!! Z.to_nat r) <$> packs) < 2 ^ 31 ->
  run_phase1_exchange N packs r = Ok (temp, total) ->
  total = sumZ ((fun p => p.1.2 !!! Z.to_nat r) <$> packs)
  /\ Z.of_nat (length temp) = total.
Proof.
  intros HN Hr Hlen Hpacks Hsum. unfold run_phase1_exchange.
  rewrite MPI_Alltoall_ok.
  2:{ apply Forall_fmap. eapply Forall_impl; [exact Hpacks|].
      intros p [Hl _]. simpl. lia. }
  cbn [rbind]. rewrite <- list_fmap_compose.
  set (recvcnts := (_ <$> packs)) in *.
  assert (Hrl : length recvcnts = Z.to_nat N)
    by (unfold recvcnts; by rewrite length_fmap).
  assert (Hrn : Forall (fun c => 0 <= c) recvcnts).
  { unfold recvcnts. apply Forall_fmap.
    eapply Forall_impl; [exact Hpacks|]. intros p [Hl Hn]. simpl.
    apply (Forall_lookup_total _ _ _ Hn). lia. }
  destruct (displacements N recvcnts) as [rdispls|]; cbn [rbind]; [|done].
  rewrite total_loop_ok by (done || lia). cbn [rbind].
  destruct (MPI_Alltoallv _ _ _ _) as [temp'|] eqn:Hv; cbn [rbind]; [|done].
  intros [= <- <-]. split; [done|].
  apply MPI_Alltoallv_length in Hv. rewrite Hv, length_replicate.
  pose proof (sumZ_nonneg _ Hrn). lia.
Qed.

Lemma run_phase2_length L temp total temp' :
  run_phase2 L temp total = Ok temp' -> length temp' = length temp.
Proof.
  unfold run_phase2. destruct (total >? 1); [|by intros [= <-]].
  destruct (for_loop _ _ _ _ _ _) as [[t g]|] eqn:Hloop; cbn [rbind]; [|done].
  intros [= <-].
  apply (for_loop_inv (fun st => length st.1 = length temp)) in Hloop;
    [done| |done].
  intros k [t1 g1] [t2 g2] Hl. unfold phase2_body. cbn [fst] in *.
  destruct (uniform_int L 0 k g1) as [l g3].
  destruct (rd t1 k); cbn [rbind]; [|done].
  destruct (rd t1 l); cbn [rbind]; [|done].
  destruct (wr t1 k _) as [t3|] eqn:H1; cbn [rbind]; [|done].
  destruct (wr t3 l _) as [t4|] eqn:H2; cbn [rbind]; [|done].
  intros [= <- <-].
  by rewrite (wr_length _ _ _ _ H2), (wr_length _ _ _ _ H1).
Qed.

Lemma sumZ_cons x l : sumZ (x :: l) = x + sumZ l.
Proof. reflexivity. Qed.

Lemma sumZ_fmap_add {A} (f g : A -> Z) (l : list A) :
  sumZ ((fun x => f x + g x) <$> l) = sumZ (f <$> l) + sumZ (g <$> l).
Proof.
  induction l as [|a l IH]; [done|]. rewrite !fmap_cons, !sumZ_cons. lia.
Qed.

Lemma fmap_lookup_total_seq (l : list Z) :
  (fun r => l !!! r) <$> seq 0 (length l) = l.
Proof.
  apply list_eq. intros i. rewrite list_lookup_fmap.
  destruct (decide (i < length l)%nat) as [Hi|Hi].
  - rewrite lookup_seq_lt by done. simpl.
    by rewrite list_lookup_lookup_total_lt.
  - rewrite lookup_seq_ge by lia. simpl. by rewrite lookup_ge_None_2 by lia.
Qed.

(** Summing the send counts by destination and then over the
    destinations is summing them by source and then over the sources. *)
Lemma sumZ_columns (scs : list (list Z)) (N : nat) :
  Forall (fun sc => length sc = N) scs ->
  sumZ ((fun r => sumZ ((fun sc => sc !!! r) <$> scs)) <$> seq 0 N)
  = sumZ (sumZ <$> scs).
Proof.
  induction 1 as [|sc scs Hsc _ IH].
  - simpl. induction (seq 0 N) as [|r l IHl]; [done|].
    rewrite fmap_cons, sumZ_cons. lia.
  - rewrite fmap_cons, sumZ_cons, <- IH.
    rewrite <- (fmap_lookup_total_seq sc) at 1. rewrite Hsc.
    rewrite <- sumZ_fmap_add. f_equal.
Qed.

(** ** Slices in ascending order *)

Lemma StronglySorted_filter {A} (R : A -> A -> Prop) (P : A -> Prop)
    `{forall x, Decision (P x)} (l : list A) :
  StronglySorted R l -> StronglySorted R (filter P l).
Proof.
  induction 1 as [|a l Hs IH Ha]; [constructor|].
  rewrite filter_cons. case_decide; [|done].
  constructor; [done|]. apply Forall_forall. intros x Hx.
  apply list_elem_of_filter in Hx as [_ Hx].
  by apply (proj1 (Forall_forall _ _) Ha).
Qed.

Lemma StronglySorted_all_disjoint (l : list message) :
  StronglySorted msg_before l -> all_disjoint l.
Proof.
  induction 1 as [|a l Hs IH Ha]; simpl; [done|]. split; [|done].
  eapply Forall_impl; [exact Ha|]. intros b Hab. by left.
Qed.

Lemma StronglySorted_concat {A} (R : A -> A -> Prop) (ls : list (list A)) :
  Forall (StronglySorted R) ls ->
  (forall (i j : nat) la lb a b, (i < j)%nat ->
     ls !! i = Some la -> ls !! j = Some lb -> a ∈ la -> b ∈ lb -> R a b) ->
  StronglySorted R (concat ls).
Proof.
  induction 1 as [|l ls Hl _ IH]; intros Hcross; simpl; [constructor|].
  apply StronglySorted_app_2; [|done|].
  - intros a b Ha Hb. apply list_elem_of_In, in_concat in Hb
      as (lb & Hlb & Hb).
    apply list_elem_of_In, list_elem_of_lookup in Hlb as [j Hj].
    apply (Hcross 0%nat (S j) l lb); [lia|done|done|done|].
    by apply list_elem_of_In.
  - apply IH. intros i j la lb a b Hij Hi Hj.
    apply (Hcross (S i) (S j)); [lia|done|done].
Qed.

(** Slices in ascending order inside [[lo, hi]] carry at most [hi - lo]
    elements. *)
Lemma chain_sum (l : list message) : forall lo hi,
  StronglySorted msg_before l ->
  Forall (fun a => lo <= msg_firstp a /\ msg_end a <= hi
                   /\ 0 <= msg_countp a) l ->
  sumZ (msg_countp <$> l) <= Z.max 0 (hi - lo).
Proof.
  induction l as [|a l IH]; intros lo hi Hs Hin; [simpl; lia|].
  apply StronglySorted_cons in Hs as [Ha Hs].
  apply Forall_cons in Hin as [(Hlo & Hhi & Hc) Hin].
  rewrite fmap_cons, sumZ_cons.
  specialize (IH (msg_end a) hi Hs). unfold msg_before, msg_end in *.
  assert (sumZ (msg_countp <$> l) <= Z.max 0 (hi - (msg_firstp a + msg_countp a))); [|lia].
  apply IH. apply Forall_forall. intros b Hb.
  pose proof (proj1 (Forall_forall _ _) Ha b Hb).
  pose proof (proj1 (Forall_forall _ _) Hin b Hb). simpl in *. lia.
Qed.

(** The same when no slice meets the positions [[h1, h2)]. *)
Lemma chain_sum_hole (h1 h2 : Z) (l : list message) : forall lo hi,
  h1 <= h2 ->
  StronglySorted msg_before l ->
  Forall (fun a => lo <= msg_firstp a /\ msg_end a <= hi
                   /\ 0 <= msg_countp a) l ->
  Forall (fun a => msg_end a <= h1 \/ h2 <= msg_firstp a) l ->
  sumZ (msg_countp <$> l)
  <= Z.max 0 (Z.min h1 hi - lo) + Z.max 0 (hi - Z.max h2 lo).
Proof.
  induction l as [|a l IH]; intros lo hi Hh Hs Hin Hhole; [simpl; lia|].
  pose proof Hs as Hs'. pose proof Hin as Hin'.
  apply StronglySorted_cons in Hs as [Ha Hs].
  apply Forall_cons in Hin as [(Hlo & Hhi & Hc) Hin].
  apply Forall_cons in Hhole as [Hah Hhole].
  destruct Hah as [Hbefore|Hafter].
  - rewrite fmap_cons, sumZ_cons.
    specialize (IH (msg_end a) hi Hh Hs). unfold msg_before, msg_end in *.
    assert (sumZ (msg_countp <$> l)
            <= Z.max 0 (Z.min h1 hi - (msg_firstp a + msg_countp a))
               + Z.max 0 (hi - Z.max h2 (msg_firstp a + msg_countp a)));
      [|lia].
    apply IH; [|done]. apply Forall_forall. intros b Hb.
    pose proof (proj1 (Forall_forall _ _) Ha b Hb).
    pose proof (proj1 (Forall_forall _ _) Hin b Hb). simpl in *. lia.
  - pose proof (chain_sum (a :: l) (Z.max h2 lo) hi Hs') as Hsum.
    assert (sumZ (msg_countp <$> a :: l) <= Z.max 0 (hi - Z.max h2 lo));
      [|lia].
    apply Hsum. apply Forall_cons. split; [lia|].
    apply Forall_forall. intros b Hb.
    pose proof (proj1 (Forall_forall _ _) Ha b Hb).
    pose proof (proj1 (Forall_forall _ _) Hin b Hb).
    unfold msg_before, msg_end in *. simpl in *. lia.
Qed.

(** Slices in ascending order inside [[lo, hi]] that carry [hi - lo]
    elements leave no gap. *)
Lemma chain_tiles (l : list message) : forall lo hi,
  StronglySorted msg_before l ->
  Forall (fun a => lo <= msg_firstp a /\ msg_end a <= hi
                   /\ 0 <= msg_countp a) l ->
  lo <= hi -> sumZ (msg_countp <$> l) = hi - lo ->
  tiles lo hi l.
Proof.
  induction l as [|a l IH]; intros lo hi Hs Hin Hle Hsum.
  - simpl in *. lia.
  - apply StronglySorted_cons in Hs as [Ha Hs].
    apply Forall_cons in Hin as [(Hlo & Hhi & Hc) Hin].
    rewrite fmap_cons, sumZ_cons in Hsum.
    assert (Hrest : Forall (fun b => msg_end a <= msg_firstp b
                                     /\ msg_end b <= hi
                                     /\ 0 <= msg_countp b) l).
    { apply Forall_forall. intros b Hb.
      pose proof (proj1 (Forall_forall _ _) Ha b Hb).
      pose proof (proj1 (Forall_forall _ _) Hin b Hb).
      unfold msg_before in *. simpl in *. lia. }
    pose proof (chain_sum l (msg_end a) hi Hs Hrest) as Hcs.
    unfold msg_end in Hcs, Hhi.
    assert (Hfa : msg_firstp a = lo) by lia.
    simpl. split; [done|]. apply IH; [done|done| |];
      unfold msg_end; lia.
Qed.

(** Such slices also cover every position of [[lo, hi)]. *)
Lemma chain_cover (l : list message) (lo hi g : Z) :
  StronglySorted msg_before l ->
  Forall (fun a => lo <= msg_firstp a /\ msg_end a <= hi
                   /\ 0 <= msg_countp a) l ->
  sumZ (msg_countp <$> l) = hi - lo -> lo <= g < hi ->
  exists msg, msg ∈ l /\ msg_firstp msg <= g < msg_end msg.
Proof.
  intros Hs Hin Hsum Hg.
  destruct (decide (Exists (fun msg => msg_firstp msg <= g < msg_end msg) l))
    as [Hex|Hnex].
  - apply Exists_exists in Hex as (msg & Hm & Hc). by exists msg.
  - exfalso. apply not_Exists_Forall in Hnex; [|apply _].
    pose proof (chain_sum_hole g (g + 1) l lo hi ltac:(lia) Hs Hin) as Hle.
    assert (sumZ (msg_countp <$> l)
            <= Z.max 0 (Z.min g hi - lo) + Z.max 0 (hi - Z.max (g + 1) lo));
      [|lia].
    apply Hle. eapply Forall_impl; [exact Hnex|]. simpl.
    intros msg Hm. unfold msg_end in *. lia.
Qed.

Lemma tiles_inside (l : list message) : forall lo hi,
  tiles lo hi l -> Forall (fun a => 0 <= msg_countp a) l ->
  lo <= hi
  /\ Forall (fun a => lo <= msg_firstp a /\ msg_end a <= hi) l.
Proof.
  induction l as [|a l IH]; intros lo hi Ht Hc; simpl in Ht.
  - split; [lia|constructor].
  - destruct Ht as [Hf Ht]. apply Forall_cons in Hc as [Ha Hc].
    destruct (IH _ _ Ht Hc) as [Hle Hin]. unfold msg_end in *.
    split; [lia|]. constructor; [lia|].
    eapply Forall_impl; [exact Hin|]. simpl. intros; lia.
Qed.

(** ** Phase 2 on values that fit the temporary of the swap *)

(** X9.  [run_phase2], all of whose values lie below [2^31], is the
    Fisher-Yates procedure, and its result holds the elements it was
    given. *)
Theorem run_phase2_in_range (L : library) (buf : list Z) :
  library_ok L ->
  Z.of_nat (length buf) <= 2 ^ 31 ->
  Forall (fun v => 0 <= v < 2 ^ 31) buf ->
  run_phase2 L buf (Z.of_nat (length buf)) = Ok (fisher_yates L buf)
  /\ Permutation (fisher_yates L buf) buf.
Proof.
  intros HL Hlen Hsmall. split; [by apply run_phase2_small|].
  unfold fisher_yates. destruct buf as [|x buf]; [done|].
  apply fisher_yates_from_Permutation; [done|]. simpl. lia.
Qed.

Lemma run_phase2_in_range_witness :
  run_phase2 (tape_library [5; 7; 1]) [3; 1; 4; 1] 4
  = Ok (fisher_yates (tape_library [5; 7; 1]) [3; 1; 4; 1])
  /\ Permutation (fisher_yates (tape_library [5; 7; 1]) [3; 1; 4; 1])
       [3; 1; 4; 1].
Proof.
  apply (run_phase2_in_range (tape_library [5; 7; 1]) [3; 1; 4; 1]).
  - apply tape_library_ok.
  - simpl. lia.
  - repeat constructor; lia.
Defined.

(** ** [verify] *)

Lemma foldl_const {A B} (l : list B) (v : A) : foldl (fun v _ => v) v l = v.
Proof. induction l; simpl; auto. Qed.

Lemma Sorted_seqZ (n a : Z) : Sorted Z.le (seqZ a n).
Proof.
  destruct (decide (0 <= n)) as [Hn|Hn];
    [|rewrite seqZ_nil by lia; constructor].
  rewrite <- (Z2Nat.id n) by lia. clear Hn. revert a.
  induction (Z.to_nat n) as [|k IH]; intros a;
    [rewrite seqZ_nil by lia; constructor|].
  rewrite seqZ_cons by lia. constructor.
  - replace (Z.pred (Z.of_nat (S k))) with (Z.of_nat k) by lia. apply IH.
  - replace (Z.pred (Z.of_nat (S k))) with (Z.of_nat k) by lia.
    destruct k as [|k]; [rewrite seqZ_nil by lia; constructor|].
    rewrite seqZ_cons by lia. constructor. lia.
Qed.

(** X13.  [verify] leaves the vector in ascending order with the elements it
    had, and that is all it does: a vector that held a permutation of
    [0 .. n-1] holds [0, 1, ..., n-1] afterwards. *)
Theorem verify_sorts (L : library) (N : Z) (p_out : list Z) :
  library_ok L ->
  Sorted Z.le (verify L N p_out)
  /\ Permutation (verify L N p_out) p_out
  /\ forall n, Permutation p_out (seqZ 0 n) -> verify L N p_out = seqZ 0 n.
Proof.
  intros HL. unfold verify. cbv zeta. rewrite foldl_const.
  pose proof (std_sort_perm L HL (fun x => x) p_out) as Hp.
  pose proof (std_sort_sorted L HL (fun x => x) p_out) as Hs.
  cbv beta in Hp, Hs. split; [done|]. split; [done|].
  intros n Hn. apply (Sorted_unique Z.le); [done|apply Sorted_seqZ|].
  by rewrite Hp.
Qed.

Lemma verify_sorts_witness :
  Sorted Z.le (verify (tape_library []) 2 [2; 0; 3; 1])
  /\ Permutation (verify (tape_library []) 2 [2; 0; 3; 1]) [2; 0; 3; 1]
  /\ forall n, Permutation [2; 0; 3; 1] (seqZ 0 n) ->
               verify (tape_library []) 2 [2; 0; 3; 1] = seqZ 0 n.
Proof.
  apply (verify_sorts (tape_library []) 2 [2; 0; 3; 1]).
  apply tape_library_ok.
Defined.

(** ** The receive loop: what ends up in the output vector *)

Lemma deliver_lookup_out pos msgs : forall (perm : list Z) (i : nat),
  (forall msg, msg ∈ msgs ->
     ~ (Z.to_nat (msg_firstp msg - pos) <= i
        < Z.to_nat (msg_firstp msg - pos) + length (msg_payload msg))%nat) ->
  deliver pos perm msgs !! i = perm !! i.
Proof.
  induction msgs as [|msg msgs IH]; intros perm i Hout; [done|].
  change (deliver pos perm (msg :: msgs))
    with (deliver pos (list_inserts (Z.to_nat (msg_firstp msg - pos))
                         (msg_payload msg) perm) msgs).
  rewrite IH by (intros msg' Hm; apply Hout; by right).
  rewrite lookup_inserts_cases. rewrite decide_False; [done|].
  intros [Hin _]. apply (Hout msg); [by left|done].
Qed.

Lemma deliver_lookup_in pos msgs : forall (perm : list Z),
  Forall (msg_fits pos (length perm)) msgs -> all_disjoint msgs ->
  forall msg (j : nat) v,
    msg ∈ msgs -> msg_payload msg !! j = Some v ->
    deliver pos perm msgs !! (Z.to_nat (msg_firstp msg - pos) + j)%nat
    = Some v.
Proof.
  induction msgs as [|m0 msgs IH]; intros perm Hf Hd msg j v Hin Hv;
    [by apply elem_of_nil in Hin|].
  apply Forall_cons in Hf as [Hf0 Hf]. destruct Hd as [Hd0 Hd].
  change (deliver pos perm (m0 :: msgs))
    with (deliver pos (list_inserts (Z.to_nat (msg_firstp m0 - pos))
                         (msg_payload m0) perm) msgs).
  pose proof (lookup_lt_Some _ _ _ Hv) as Hj.
  apply elem_of_cons in Hin as [->|Hin].
  - rewrite deliver_lookup_out.
    + rewrite lookup_inserts_cases, decide_True.
      * by replace (Z.to_nat (msg_firstp m0 - pos) + j
                    - Z.to_nat (msg_firstp m0 - pos))%nat with j by lia.
      * destruct Hf0 as (? & ? & ? & ? & ?). unfold msg_end in *. lia.
    + intros m1 Hm1.
      pose proof (proj1 (Forall_forall _ _) Hd0 m1 Hm1) as Hdis.
      pose proof (proj1 (Forall_forall _ _) Hf m1 Hm1)
        as (? & ? & ? & ? & ?).
      destruct Hf0 as (? & ? & ? & ? & ?).
      unfold msg_disjoint, msg_before, msg_end in *. lia.
  - apply IH; [by rewrite length_inserts|done..].
Qed.

(** X12.  The receive loop, fed with slices that fit the output vector and do
    not overlap: when they carry exactly [remains] elements the loop
    returns, every element of every slice sits at its position
    [firstp - pos + j], and the cells no slice covers keep their value;
    when they carry fewer, the loop waits for a message that never
    comes. *)
Theorem phase3_recv_outcome (pos remains : Z) (perm : list Z)
    (inbox : list message) :
  Forall (msg_fits pos (length perm)) inbox -> all_disjoint inbox ->
  sumZ (msg_countp <$> inbox) <= remains < 2 ^ 32 ->
  (sumZ (msg_countp <$> inbox) < remains ->
     phase3_recv pos remains perm inbox = Fault Deadlock)
  /\ (sumZ (msg_countp <$> inbox) = remains ->
      exists out,
        phase3_recv pos remains perm inbox = Ok out
        /\ length out = length perm
        /\ (forall msg (j : nat) v,
              msg ∈ inbox -> msg_payload msg !! j = Some v ->
              out !! (Z.to_nat (msg_firstp msg - pos) + j)%nat = Some v)
        /\ (forall i : nat,
              (forall msg, msg ∈ inbox ->
                 ~ (msg_firstp msg - pos <= Z.of_nat i
                    < msg_end msg - pos)) ->
              out !! i = perm !! i)).
Proof.
  intros Hf Hd Hsum. rewrite phase3_recv_delivers by done. split.
  - intros Hlt. by rewrite decide_False by lia.
  - intros Heq. rewrite decide_True by done.
    exists (deliver pos perm inbox). split; [done|].
    split; [apply deliver_length|]. split.
    + intros msg j v. by apply deliver_lookup_in.
    + intros i Hout. apply deliver_lookup_out. intros msg Hmsg Hin.
      apply (Hout msg Hmsg).
      pose proof (proj1 (Forall_forall _ _) Hf msg Hmsg)
        as (? & ? & ? & ? & ?).
      unfold msg_end in *. lia.
Qed.

Lemma phase3_recv_outcome_witness :
  (sumZ (msg_countp <$> [Message 1 0 2 1 [7]; Message 2 0 0 1 [9]]) < 2 ->
     phase3_recv 0 2 [0; 5; 0] [Message 1 0 2 1 [7]; Message 2 0 0 1 [9]]
     = Fault Deadlock)
  /\ (sumZ (msg_countp <$> [Message 1 0 2 1 [7]; Message 2 0 0 1 [9]]) = 2 ->
      exists out,
        phase3_recv 0 2 [0; 5; 0] [Message 1 0 2 1 [7]; Message 2 0 0 1 [9]]
        = Ok out
        /\ length out = length [0; 5; 0]
        /\ (forall msg (j : nat) v,
              msg ∈ [Message 1 0 2 1 [7]; Message 2 0 0 1 [9]] ->
              msg_payload msg !! j = Some v ->
              out !! (Z.to_nat (msg_firstp msg - 0) + j)%nat = Some v)
        /\ (forall i : nat,
              (forall msg, msg ∈ [Message 1 0 2 1 [7]; Message 2 0 0 1 [9]] ->
                 ~ (msg_firstp msg - 0 <= Z.of_nat i < msg_end msg - 0)) ->
              out !! i = [0; 5; 0] !! i)).
Proof.
  apply (phase3_recv_outcome 0 2 [0; 5; 0]
           [Message 1 0 2 1 [7]; Message 2 0 0 1 [9]]).
  - repeat constructor; unfold msg_end; simpl; lia.
  - simpl. split; [|by split; [constructor|]].
    constructor; [|constructor]. right. unfold msg_before, msg_end. simpl.
    lia.
  - simpl. lia.
Defined.

(** ** Displacements *)

(** X8.  The displacement loops of Phase 1 (send and receive side) fill entry
    [j] with the sum of the counts before [j], so the blocks of the
    buffer lie side by side in rank order. *)
Theorem displacements_running_sums (N : Z) (cnts : list Z) :
  1 <= N < 2 ^ 32 -> length cnts = Z.to_nat N ->
  Forall (fun c => 0 <= c) cnts -> sumZ cnts < 2 ^ 31 ->
  exists displs,
    displacements N cnts = Ok displs
    /\ length displs = Z.to_nat N
    /\ forall (j : nat) c,
         cnts !! j = Some c ->
         displs !! j = Some (sumZ (take j cnts))
         /\ (displs ++ [sumZ cnts]) !! S j = Some (sumZ (take j cnts) + c).
Proof.
  intros HN Hlen Hnn Hsum. rewrite displacements_ok by done.
  eexists. split; [done|]. split; [by rewrite length_fmap, length_seq|].
  intros j c Hj. pose proof (lookup_lt_Some _ _ _ Hj) as Hlt.
  split.
  - rewrite list_lookup_fmap, lookup_seq_lt by lia. done.
  - rewrite <- (sumZ_take_S cnts j c Hj).
    destruct (decide (S j < Z.to_nat N)%nat) as [Hs|Hs].
    + rewrite lookup_app_l by (rewrite length_fmap, length_seq; lia).
      rewrite list_lookup_fmap, lookup_seq_lt by lia. done.
    + rewrite lookup_app_r by (rewrite length_fmap, length_seq; lia).
      rewrite length_fmap, length_seq.
      replace (S j - Z.to_nat N)%nat with 0%nat by lia. simpl.
      rewrite firstn_all2 by lia. done.
Qed.

Lemma displacements_running_sums_witness :
  exists displs,
    displacements 3 [2; 0; 4] = Ok displs
    /\ length displs = Z.to_nat 3
    /\ forall (j : nat) c,
         [2; 0; 4] !! j = Some c ->
         displs !! j = Some (sumZ (take j [2; 0; 4]))
         /\ (displs ++ [sumZ [2; 0; 4]]) !! S j
            = Some (sumZ (take j [2; 0; 4]) + c).
Proof.
  apply (displacements_running_sums 3 [2; 0; 4]).
  - lia.
  - reflexivity.
  - repeat constructor; lia.
  - simpl. lia.
Defined.

(** ** [permute] when the layout leaves a rank without indices *)

Lemma mapM_first_fault {A B} (f : A -> result B) (l : list A) e :
  (forall x, x ∈ l -> f x = Fault e \/ exists y, f x = Ok y) ->
  (exists x, x ∈ l /\ f x = Fault e) ->
  mapM f l = Fault e.
Proof.
  induction l as [|a l IH]; intros Hall (x & Hx & Hf);
    [by apply elem_of_nil in Hx|].
  simpl. destruct (Hall a ltac:(by left)) as [Ha|[y Ha]]; rewrite Ha; [done|].
  cbn [rbind]. apply elem_of_cons in Hx as [->|Hx]; [congruence|].
  rewrite IH; [done| |by exists x]. intros z Hz. apply Hall. by right.
Qed.

Lemma fewer_indices_than_ranks n N :
  0 <= n < N -> N <= 2 ^ 53 -> n <= (N - 1) * ceil_quot n N.
Proof.
  intros Hn HN. rewrite ceil_quot_exact by lia.
  destruct (decide (n = 0)) as [->|Hne].
  - change (- 0) with 0. rewrite Z.div_0_l by lia. lia.
  - assert (- n / N = -1); [|lia].
    symmetry. apply (Z.div_unique_pos _ _ _ (N - n)); lia.
Qed.

Lemma permute_empty_rank_fault (L : library)
    (arrival : Z -> list message -> list message) (n N : Z)
    (p_out : Z -> list Z) :
  library_ok L -> 0 <= n -> 1 <= N -> n + N < 2 ^ 31 ->
  n <= (N - 1) * ceil_quot n N ->
  permute L arrival n N p_out = Fault OutOfBounds.
Proof.
  intros HL Hn HN Hfit Hempty. unfold permute, permute_sends. cbv zeta.
  rewrite (mapM_first_fault _ _ OutOfBounds); [done| |].
  - intros r Hr. apply elem_of_seqZ in Hr.
    pose proof (block_layout_count n N Hn HN ltac:(lia) r ltac:(lia)) as Hc.
    pose proof (layout_m_bounds n N Hn HN ltac:(lia)) as [Hm _].
    destruct (decide (lay_count (block_layout n N r) = 0)) as [H0|H0].
    + left. rewrite H0, u32_small by lia.
      apply run_phase1_pack_count0_oob. lia.
    + right. rewrite u32_small by lia.
      destruct (run_phase1_pack_ok L (lay_count (block_layout n N r))
                  (lay_pos (block_layout n N r)) N HL ltac:(lia)
                  ltac:(lia)) as (packed & sendcnts & Hrun & _).
      rewrite Hrun. by eexists.
  - exists (N - 1). split; [apply elem_of_seqZ; lia|].
    pose proof (block_layout_count n N Hn HN ltac:(lia) (N - 1) ltac:(lia))
      as Hc.
    replace (lay_count (block_layout n N (N - 1))) with 0 by lia.
    rewrite u32_small by lia. apply run_phase1_pack_count0_oob. lia.
Qed.

(** X3.  For [0 <= n] and [1 <= N] with [n + N < 2^31]: whenever there
    are fewer indices than processes, and more generally whenever the
    block layout leaves the last rank without indices
    ([n <= (N-1) * ceil(n/N)]), the call stops in Phase 1 with an access
    outside its arrays and no rank gets an output. *)
Theorem permute_empty_rank (L : library)
    (arrival : Z -> list message -> list message) (n N : Z)
    (p_out : Z -> list Z) :
  library_ok L -> 0 <= n -> 1 <= N -> n + N < 2 ^ 31 ->
  n < N \/ n <= (N - 1) * ceil_quot n N ->
  permute L arrival n N p_out = Fault OutOfBounds.
Proof.
  intros HL Hn HN Hfit [Hlt|Hle].
  - apply permute_empty_rank_fault; [done..|].
    apply fewer_indices_than_ranks; lia.
  - by apply permute_empty_rank_fault.
Qed.

Lemma permute_empty_rank_witness :
  permute (tape_library [4; 1; 3]) (fun _ inbox => inbox) 9 4 (fun _ => [])
  = Fault OutOfBounds.
Proof.
  apply permute_empty_rank.
  - apply tape_library_ok.
  - lia.
  - lia.
  - lia.
  - right. vm_compute. discriminate.
Defined.

(** ** Every rank draws the same destinations *)

Lemma phase1_draws_length L hi k : length (phase1_draws L hi k).1 = k.
Proof.
  induction k as [|k IH]; [done|]. simpl.
  destruct (phase1_draws L hi k) as [ds gen].
  destruct (uniform_int L 0 hi gen) as [d gen']. simpl in *.
  rewrite length_app. simpl. lia.
Qed.

Lemma phase1_draws_range L hi k :
  library_ok L -> 0 <= hi ->
  Forall (fun d => 0 <= d <= hi) (phase1_draws L hi k).1.
Proof.
  intros HL Hhi. induction k as [|k IH]; [constructor|]. simpl.
  destruct (phase1_draws L hi k) as [ds gen].
  pose proof (uniform_int_range L HL 0 hi gen Hhi) as Hr.
  destruct (uniform_int L 0 hi gen) as [d gen']. simpl in *.
  apply Forall_app. split; [done|]. constructor; [done|constructor].
Qed.

Section Draws.
Context (L : library) (HL : library_ok L).
Variables count pos N : Z.
Hypothesis Hcount : 1 <= count < 2 ^ 31 - 1.
Hypothesis HN : 1 <= N < 2 ^ 31.

Let vals (k : Z) : list Z := (fun j => u64 (pos + j)) <$> seqZ 0 k.

Let draws_inv (k : Z) (st : list Z * list Z * list Z * engine L) : Prop :=
  st = (vals k ++ replicate (Z.to_nat (count + 1 - k)) 0,
        (phase1_draws L (N - 1) (Z.to_nat k)).1
          ++ replicate (Z.to_nat (count + 1 - k)) 0,
        seqZ 0 k ++ replicate (Z.to_nat (count + 1 - k)) 0,
        (phase1_draws L (N - 1) (Z.to_nat k)).2).

Lemma phase1_fill_draws :
  phase1_fill L count pos N
  = Ok (vals count ++ [0],
        (phase1_draws L (N - 1) (Z.to_nat count)).1 ++ [N],
        seqZ 0 (count + 1)).
Proof.
  unfold phase1_fill.
  rewrite (u32_small (count + 1)), (u32_small (count - 1)) by lia.
  rewrite (u32_small (N - 1)), to_int_small by lia.
  destruct (Z.ltb_spec (N - 1) 0); [lia|].
  assert (Hvl : forall k, 0 <= k -> length (vals k) = Z.to_nat k)
    by (intros k Hk; unfold vals; by rewrite length_fmap, length_seqZ).
  destruct (for_loop_range draws_inv (fun k => k <=? count - 1)
              (fun k => u32 (k + 1))
              (phase1_fill_body L pos (N - 1)) count
              ltac:(apply Z.leb_gt; lia) (Z.to_nat count) 0
              (S (S (Z.to_nat (count + 1))))
              (replicate (Z.to_nat (count + 1)) 0,
               replicate (Z.to_nat (count + 1)) 0,
               replicate (Z.to_nat (count + 1)) 0, default_engine L))
    as (st & Hloop & ->).
  - lia.
  - intros k Hk. split; [apply Z.leb_le; lia | apply u32_small; lia].
  - intros k s Hk ->.
    rewrite phase1_fill_body_ok;
      rewrite ?length_app, ?length_replicate, ?length_seqZ, ?Hvl,
        ?phase1_draws_length; [|lia..].
    eexists. split; [done|]. unfold draws_inv.
    replace (Z.to_nat (count + 1 - k))
      with (S (Z.to_nat (count + 1 - (k + 1)))) by lia.
    rewrite !insert_fill
      by (by rewrite ?length_seqZ, ?Hvl, ?phase1_draws_length by lia).
    replace (Z.to_nat (k + 1)) with (S (Z.to_nat k)) by lia.
    cbn [phase1_draws].
    pose proof (phase1_draws_range L (N - 1) (Z.to_nat k) HL ltac:(lia)).
    destruct (phase1_draws L (N - 1) (Z.to_nat k)) as [ds gen].
    cbn [fst snd] in *.
    pose proof (uniform_int_range L HL 0 (N - 1) gen ltac:(lia)) as Hr.
    destruct (uniform_int L 0 (N - 1) gen) as [d gen']. cbn [fst snd] in *.
    rewrite u32_small by lia.
    unfold vals. rewrite (seqZ_snoc 0 k) by lia. by rewrite fmap_app.
  - lia.
  - unfold draws_inv, vals. rewrite seqZ_nil by lia.
    by rewrite Z.sub_0_r.
  - rewrite Hloop. cbn [rbind].
    replace (Z.to_nat (count + 1 - count)) with 1%nat by lia.
    rewrite !wr_ok
      by (rewrite ?length_app, ?length_seqZ, ?Hvl, ?phase1_draws_length;
          simpl; lia).
    cbn [rbind].
    rewrite !(insert_fill _ _ 0)
      by (by rewrite ?length_seqZ, ?Hvl, ?phase1_draws_length by lia).
    rewrite !app_nil_r. by rewrite (seqZ_snoc 0 count) by lia.
Qed.
End Draws.

Lemma run_phase1_pack_uniform (L : library) (count N : Z) :
  library_ok L -> 1 <= count < 2 ^ 31 - 1 -> 1 <= N < 2 ^ 31 ->
  exists ixs sendcnts sdispls,
    Permutation ixs (seqZ 0 count)
    /\ length sendcnts = Z.to_nat N
    /\ Forall (fun c => 0 <= c) sendcnts
    /\ sumZ sendcnts = count
    /\ forall pos,
         run_phase1_pack L count pos N
         = Ok (((fun i => u64 (pos + i)) <$> ixs) ++ [0], sendcnts, sdispls).
Proof.
  intros HL Hcount HN.
  set (dests := (phase1_draws L (N - 1) (Z.to_nat count)).1).
  assert (Hdlen : length dests = Z.to_nat count)
    by apply phase1_draws_length.
  assert (Hdests : Forall (fun d => 0 <= d < N) dests).
  { eapply Forall_impl;
      [apply (phase1_draws_range L (N - 1) (Z.to_nat count) HL); lia|].
    simpl. intros d Hd. lia. }
  destruct (sorted_sentinel_last L HL count N Hcount dests Hdlen Hdests)
    as (front & Hfront & Hperm).
  destruct (pack_result L HL count 0 N Hcount HN dests Hdlen Hdests
              (phase1_fill_draws L HL count 0 N Hcount HN))
    as (_ & sendcnts & _ & _ & Hsc & Hsl & Hnn & Hsum).
  exists front, sendcnts,
    ((fun j => sumZ (take j sendcnts)) <$> seq 0 (Z.to_nat N)).
  split; [done|]. split; [done|]. split; [done|]. split; [done|].
  intros pos.
  assert (Hflen : length front = Z.to_nat count)
    by (by rewrite Hperm, length_seqZ).
  unfold run_phase1_pack.
  rewrite (phase1_fill_draws L HL count pos N Hcount HN). cbn [rbind].
  fold dests.
  rewrite (phase1_sort_seqZ L (dests ++ [N]) count)
    by (rewrite ?length_app, ?Hdlen; simpl; lia).
  cbn [rbind].
  rewrite phase1_gather_ok;
    [|lia|apply (sorted_length L HL)|].
  2:{ apply Forall_forall. intros i Hi.
      apply (sorted_elem L HL count N dests Hdlen) in Hi.
      rewrite length_app, length_fmap, length_seqZ. simpl. lia. }
  cbn [rbind]. rewrite Hsc. cbn [rbind].
  rewrite displacements_ok by (done || lia). cbn [rbind].
  do 3 f_equal. rewrite Hfront, fmap_app. f_equal.
  - apply list_fmap_ext. intros k i Hi.
    assert (Hin : i ∈ front) by (apply list_elem_of_lookup; by exists k).
    rewrite Hperm in Hin. apply elem_of_seqZ in Hin.
    rewrite lookup_total_app_l by (rewrite length_fmap, length_seqZ; lia).
    apply list_lookup_total_correct.
    rewrite list_lookup_fmap, lookup_seqZ_lt by lia. simpl.
    do 3 f_equal. lia.
  - simpl. rewrite lookup_total_app_r
      by (rewrite length_fmap, length_seqZ; lia).
    rewrite length_fmap, length_seqZ.
    by replace (Z.to_nat count - Z.to_nat count)%nat with 0%nat by lia.
Qed.

(** X7.  For [1 <= count < 2^31 - 1] and [1 <= N < 2^31]: the generator
    of [run_phase1] is default-constructed on every rank, so the packing
    does not depend on the rank beyond the offset [pos]: ranks that own
    the same number [count] of indices send their [i]-th own index to
    the same process.  Phase 1 returns its packing, and the local
    indices [ixs] in buffer order, the send counts and the displacements
    are the same for every [pos]. *)
Theorem run_phase1_pack_same_on_every_rank (L : library) (count N : Z) :
  library_ok L -> 1 <= count < 2 ^ 31 - 1 -> 1 <= N < 2 ^ 31 ->
  exists ixs sendcnts sdispls,
    Permutation ixs (seqZ 0 count)
    /\ forall pos,
         run_phase1_pack L count pos N
         = Ok (((fun i => u64 (pos + i)) <$> ixs) ++ [0], sendcnts, sdispls).
Proof.
  intros HL Hcount HN.
  destruct (run_phase1_pack_uniform L count N HL Hcount HN)
    as (ixs & sendcnts & sdispls & Hperm & _ & _ & _ & Hrun).
  by exists ixs, sendcnts, sdispls.
Qed.

Lemma run_phase1_pack_same_on_every_rank_witness :
  exists ixs sendcnts sdispls,
    Permutation ixs (seqZ 0 3)
    /\ forall pos,
         run_phase1_pack (tape_library [1; 0; 1]) 3 pos 2
         = Ok (((fun i => u64 (pos + i)) <$> ixs) ++ [0], sendcnts, sdispls).
Proof.
  apply (run_phase1_pack_same_on_every_rank (tape_library [1; 0; 1]) 3 2).
  - apply tape_library_ok.
  - lia.
  - lia.
Defined.

(** ** What the exchange of Phase 1 delivers *)

Lemma list_inserts_fill (acc data : list Z) (k : nat) :
  list_inserts (length acc) data (acc ++ replicate (length data + k) 0)
  = (acc ++ data) ++ replicate k 0.
Proof.
  apply list_eq. intros j. rewrite lookup_inserts_cases.
  rewrite !length_app, length_replicate.
  case_decide as Hj.
  - rewrite <- app_assoc, lookup_app_r by lia.
    by rewrite lookup_app_l by lia.
  - destruct (decide (j < length acc)%nat).
    + rewrite <- app_assoc. by rewrite !lookup_app_l by lia.
    + destruct (decide (j < length acc + (length data + k))%nat).
      * rewrite lookup_app_r by lia.
        rewrite lookup_app_r by (rewrite length_app; lia).
        rewrite !lookup_replicate_2; [done|rewrite length_app; lia|lia].
      * rewrite !lookup_ge_None_2;
          [done|rewrite !length_app, length_replicate; lia
               |rewrite length_app, length_replicate; lia].
Qed.

Lemma segment_length r p :
  pack_block_ok r p -> Z.of_nat (length (segment p r)) = p.1.2 !!! r.
Proof.
  intros (_ & _ & Hc & Hd & Hfit). unfold segment.
  rewrite length_take, length_drop. lia.
Qed.

Lemma alltoallv_block_ok rdispls (r : nat) (s : Z) p (acc : list Z) (k : nat) :
  pack_block_ok r p ->
  0 <= s -> rdispls !! Z.to_nat s = Some (Z.of_nat (length acc)) ->
  alltoallv_block rdispls (Z.of_nat r)
    (acc ++ replicate (length (segment p r) + k) 0) (s, p)
  = Ok ((acc ++ segment p r) ++ replicate k 0).
Proof.
  intros Hp Hs Hrd. pose proof (segment_length r p Hp) as Hlen.
  destruct Hp as (Hc1 & Hd1 & Hc & Hd & Hfit).
  destruct p as [[buf cnts] dsp]. cbn [fst snd] in *.
  unfold alltoallv_block.
  rewrite !rd_ok by lia. cbn [rbind]. rewrite Nat2Z.id.
  assert (Hdata : rd_range buf (dsp !!! r) (cnts !!! r)
                  = Ok (segment (buf, cnts, dsp) r)).
  { unfold rd_range, segment. cbn [fst snd].
    destruct (Z.leb_spec (cnts !!! r) 0) as [H0|H0].
    - by replace (Z.to_nat (cnts !!! r)) with 0%nat by lia.
    - destruct (Z.leb_spec 0 (dsp !!! r)); [|lia].
      by destruct (Z.leb_spec (dsp !!! r + cnts !!! r)
                     (Z.of_nat (length buf))); [|lia]. }
  rewrite Hdata. cbn [rbind].
  assert (Hrd' : rd rdispls s = Ok (Z.of_nat (length acc))).
  { unfold rd. destruct (Z.ltb_spec s 0); [lia|]. by rewrite Hrd. }
  rewrite Hrd'. cbn [rbind]. unfold wr_range.
  destruct (segment (buf, cnts, dsp) r) as [|v vs] eqn:Hseg.
  - simpl. by rewrite app_nil_r.
  - rewrite <- Hseg. rewrite Nat2Z.id.
    destruct (Z.leb_spec 0 (Z.of_nat (length acc))); [|lia].
    rewrite length_app, length_replicate.
    destruct (Z.leb_spec
                (Z.of_nat (length acc)
                 + Z.of_nat (length (segment (buf, cnts, dsp) r)))
                (Z.of_nat (length acc
                           + (length (segment (buf, cnts, dsp) r) + k))));
      [|lia].
    cbn [andb]. by rewrite list_inserts_fill.
Qed.

Lemma MPI_Alltoallv_fold rdispls (r : nat) :
  forall (packs : list (list Z * list Z * list Z)) (s0 : nat)
         (acc : list Z) (k : nat),
    Forall (pack_block_ok r) packs ->
    (forall i p, packs !! i = Some p ->
       rdispls !! (s0 + i)%nat
       = Some (Z.of_nat (length acc)
               + sumZ (take i ((fun p => p.1.2 !!! r) <$> packs)))) ->
    foldM (alltoallv_block rdispls (Z.of_nat r))
      (acc ++ replicate
                (length (concat ((fun p => segment p r) <$> packs)) + k) 0)
      (zip (seqZ (Z.of_nat s0) (Z.of_nat (length packs))) packs)
    = Ok ((acc ++ concat ((fun p => segment p r) <$> packs))
          ++ replicate k 0).
Proof.
  induction packs as [|p packs IH]; intros s0 acc k Hok Hrd.
  - simpl. by rewrite app_nil_r.
  - apply Forall_cons in Hok as [Hp Hok].
    rewrite seqZ_cons by (simpl; lia).
    replace (Z.pred (Z.of_nat (length (p :: packs))))
      with (Z.of_nat (length packs)) by (simpl; lia).
    replace (Z.succ (Z.of_nat s0)) with (Z.of_nat (S s0)) by lia.
    cbn [zip zip_with foldM fmap list_fmap concat].
    rewrite length_app, <- Nat.add_assoc.
    rewrite alltoallv_block_ok; [|done|lia|].
    2:{ rewrite Nat2Z.id. specialize (Hrd 0%nat p eq_refl).
        rewrite Nat.add_0_r in Hrd. rewrite Hrd. simpl. f_equal. lia. }
    cbn [rbind]. rewrite IH; [by rewrite app_assoc|done|].
    intros i q Hq. specialize (Hrd (S i) q Hq).
    replace (S s0 + i)%nat with (s0 + S i)%nat by lia. rewrite Hrd.
    f_equal. rewrite length_app.
    change (take (S i) ((fun p => p.1.2 !!! r) <$> p :: packs))
      with (p.1.2 !!! r :: take i ((fun p => p.1.2 !!! r) <$> packs)).
    rewrite sumZ_cons. pose proof (segment_length r p Hp). lia.
Qed.

Lemma concat_segments_length r packs :
  Forall (pack_block_ok r) packs ->
  Z.of_nat (length (concat ((fun p => segment p r) <$> packs)))
  = sumZ ((fun p => p.1.2 !!! r) <$> packs).
Proof.
  induction 1 as [|p packs Hp _ IH]; [done|].
  rewrite !fmap_cons, sumZ_cons. cbn [concat]. rewrite length_app.
  pose proof (segment_length r p Hp). lia.
Qed.

(** The exchange of rank [r] always completes, and [temp] holds the
    blocks addressed to [r] in the order of their senders. *)
Lemma run_phase1_exchange_ok N packs (r : nat) :
  1 <= N < 2 ^ 31 -> Z.of_nat r < N ->
  length packs = Z.to_nat N ->
  Forall (fun p => length p.1.2 = Z.to_nat N
                   /\ Forall (fun c => 0 <= c) p.1.2) packs ->
  Forall (pack_block_ok r) packs ->
  sumZ ((fun p => p.1.2 !!! r) <$> packs) < 2 ^ 31 ->
  run_phase1_exchange N packs (Z.of_nat r)
  = Ok (concat ((fun p => segment p r) <$> packs),
        sumZ ((fun p => p.1.2 !!! r) <$> packs)).
Proof.
  intros HN Hr Hlen Hpacks Hblocks Hsum. unfold run_phase1_exchange.
  rewrite MPI_Alltoall_ok.
  2:{ apply Forall_fmap. eapply Forall_impl; [exact Hpacks|].
      intros p [Hl _]. simpl. lia. }
  cbn [rbind]. rewrite <- list_fmap_compose. rewrite Nat2Z.id.
  change ((fun sc : list Z => sc !!! r) ∘ (fun p => p.1.2))
    with (fun p : list Z * list Z * list Z => p.1.2 !!! r).
  set (recvcnts := (_ <$> packs)) in *.
  assert (Hrl : length recvcnts = Z.to_nat N)
    by (unfold recvcnts; by rewrite length_fmap).
  assert (Hrn : Forall (fun c => 0 <= c) recvcnts).
  { unfold recvcnts. apply Forall_fmap.
    eapply Forall_impl; [exact Hblocks|]. by intros p (_ & _ & ? & _). }
  rewrite displacements_ok by (done || lia). cbn [rbind].
  rewrite total_loop_ok by (done || lia). cbn [rbind].
  unfold MPI_Alltoallv.
  pose proof (concat_segments_length r packs Hblocks) as Hcl.
  fold recvcnts in Hcl.
  pose proof (MPI_Alltoallv_fold
                ((fun j => sumZ (take j recvcnts)) <$> seq 0 (Z.to_nat N))
                r packs 0 [] 0 Hblocks) as Hfold.
  rewrite Nat.add_0_r, !app_nil_l, app_nil_r in Hfold.
  change (Z.of_nat 0) with 0 in Hfold.
  replace (Z.to_nat (sumZ recvcnts))
    with (length (concat ((fun p => segment p r) <$> packs))) by lia.
  rewrite Hfold; [done|].
  intros i p Hp. pose proof (lookup_lt_Some _ _ _ Hp).
  rewrite list_lookup_fmap, lookup_seq_lt by lia. simpl. done.
Qed.

(** ** Blocks that lie side by side *)

Lemma segments_tile (buf : list Z) (cnts : list Z) :
  Forall (fun c => 0 <= c) cnts ->
  concat ((fun r => take (Z.to_nat (cnts !!! r))
                      (drop (Z.to_nat (sumZ (take r cnts))) buf))
          <$> seq 0 (length cnts))
  = take (Z.to_nat (sumZ cnts)) buf.
Proof.
  induction cnts as [|c cnts IH] using rev_ind; intros Hnn; [done|].
  apply Forall_app in Hnn as [Hnn Hc]. apply Forall_cons in Hc as [Hc _].
  rewrite length_app. simpl. rewrite Nat.add_1_r, seq_S, fmap_app.
  rewrite concat_app. simpl. rewrite app_nil_r.
  rewrite lookup_total_app_r by lia. rewrite Nat.sub_diag. simpl.
  rewrite take_app_length.
  rewrite sumZ_app. simpl. rewrite Z.add_0_r.
  pose proof (sumZ_nonneg cnts Hnn).
  rewrite Z2Nat.inj_add by lia. rewrite <- take_take_drop. f_equal.
  rewrite <- IH by done. f_equal. apply list_fmap_ext.
  intros i r Hr. apply lookup_seq in Hr as [-> Hr]. simpl.
  rewrite lookup_total_app_l by lia.
  by rewrite take_app_le by lia.
Qed.

Lemma concat_fmap_app {A B} (g h : A -> list B) (l : list A) :
  Permutation (concat ((fun a => g a ++ h a) <$> l))
              (concat (g <$> l) ++ concat (h <$> l)).
Proof.
  induction l as [|a l IH]; [done|]. simpl. rewrite IH.
  rewrite <- !app_assoc. apply Permutation_app_head.
  rewrite !app_assoc. apply Permutation_app_tail, Permutation_app_comm.
Qed.

Lemma concat_fmap_nil {A B} (l : list A) :
  concat ((fun _ => @nil B) <$> l) = [].
Proof. induction l; simpl; auto. Qed.

Lemma concat_transpose {A B C} (f : A -> B -> list C)
    (la : list A) (lb : list B) :
  Permutation (concat ((fun a => concat ((fun b => f a b) <$> lb)) <$> la))
              (concat ((fun b => concat ((fun a => f a b) <$> la)) <$> lb)).
Proof.
  induction la as [|a la IH]; simpl.
  - by rewrite concat_fmap_nil.
  - rewrite IH. symmetry.
    apply (concat_fmap_app (fun b => f a b)
             (fun b => concat ((fun a => f a b) <$> la))).
Qed.

Lemma blocks_tile (m n : Z) (k : nat) :
  1 <= m -> 0 <= n ->
  concat ((fun s => seqZ (s * m) (Z.max 0 (Z.min m (n - s * m))))
          <$> seqZ 0 (Z.of_nat k))
  = seqZ 0 (Z.min n (Z.of_nat k * m)).
Proof.
  intros Hm Hn. induction k as [|k IH]; [by rewrite !seqZ_nil by lia|].
  rewrite seqZ_S, fmap_app, concat_app, IH. simpl. rewrite app_nil_r.
  destruct (decide (Z.of_nat k * m <= n)) as [Hle|Hgt].
  - replace (Z.min n (Z.of_nat k * m)) with (Z.of_nat k * m) by lia.
    replace (Z.min n (Z.of_nat (S k) * m))
      with (Z.of_nat k * m + Z.max 0 (Z.min m (n - Z.of_nat k * m)))
      by lia.
    rewrite seqZ_app by lia. done.
  - rewrite (seqZ_nil (Z.of_nat k * m)) by lia. rewrite app_nil_r.
    f_equal. lia.
Qed.

Lemma fmap_u64_seqZ (a c : Z) :
  0 <= a -> a + c < 2 ^ 64 ->
  (fun j => u64 (a + j)) <$> seqZ 0 c = seqZ a c.
Proof.
  intros Ha Hc. apply list_eq. intros i. rewrite list_lookup_fmap.
  destruct (decide (Z.of_nat i < c)) as [Hi|Hi].
  - rewrite !lookup_seqZ_lt by lia. simpl. f_equal.
    rewrite u64_small by lia. lia.
  - by rewrite !lookup_seqZ_ge by lia.
Qed.

Lemma concat_Forall2_Permutation {A B C} (f : A -> list C) (g : B -> list C)
    (l : list A) (k : list B) :
  Forall2 (fun x y => Permutation (f x) (g y)) l k ->
  Permutation (concat (f <$> l)) (concat (g <$> k)).
Proof. induction 1 as [|x y l k Hxy _ IH]; simpl; [done|]. by rewrite Hxy, IH. Qed.

(** ** The sender loop, slice by slice *)

Lemma list_inserts_snoc (l : list Z) (i : nat) (k : list Z) (x : Z) :
  (i + length k < length l)%nat ->
  <[(i + length k)%nat := x]> (list_inserts i k l) = list_inserts i (k ++ [x]) l.
Proof.
  intros Hi. apply list_eq. intros j.
  rewrite lookup_inserts_cases, length_app. simpl.
  destruct (decide (j = i + length k)%nat) as [->|Hne].
  - rewrite list_lookup_insert_eq by (rewrite length_inserts; lia).
    rewrite decide_True by lia.
    replace (i + length k - i)%nat with (length k) by lia.
    by rewrite lookup_app_r, Nat.sub_diag by lia.
  - rewrite list_lookup_insert_ne by done.
    rewrite lookup_inserts_cases.
    repeat case_decide; try lia; try done.
    by rewrite lookup_app_l by lia.
Qed.

(** The copy loop stores [temp[a - first .. b - first]] at
    [perm[a - pos ..]]. *)
Lemma copy_loop_ok (temp perm : list Z) (first pos a b : Z) (fuel : nat) :
  0 <= first <= a -> 0 <= pos <= a -> a <= b + 1 -> b < 2 ^ 32 - 1 ->
  b - first < Z.of_nat (length temp) -> b - pos < Z.of_nat (length perm) ->
  (Z.to_nat (b + 1 - a) < fuel)%nat ->
  for_loop fuel (fun k => k <=? b) (fun k => u32 (k + 1))
    (copy_body temp first pos) a perm
  = Ok (list_inserts (Z.to_nat (a - pos))
          (take (Z.to_nat (b + 1 - a)) (drop (Z.to_nat (a - first)) temp))
          perm).
Proof.
  intros Hf Hp Hab Hb Hbt Hbp Hfuel.
  destruct (for_loop_range
              (fun k p => p = list_inserts (Z.to_nat (a - pos))
                                (take (Z.to_nat (k - a))
                                   (drop (Z.to_nat (a - first)) temp)) perm)
              (fun k => k <=? b) (fun k => u32 (k + 1))
              (copy_body temp first pos) (b + 1)
              ltac:(apply Z.leb_gt; lia) (Z.to_nat (b + 1 - a)) a fuel perm)
    as (p & Hloop & ->).
  - lia.
  - intros k Hk. split; [apply Z.leb_le; lia | apply u32_small; lia].
  - intros k p Hk ->. unfold copy_body.
    rewrite (u64_small (k - first)), (u64_small (k - pos)) by lia.
    rewrite rd_ok by lia. cbn [rbind].
    rewrite wr_ok by (rewrite length_inserts; lia).
    eexists. split; [done|].
    assert (Hlen : length (take (Z.to_nat (k - a))
                             (drop (Z.to_nat (a - first)) temp))
                   = Z.to_nat (k - a))
      by (rewrite length_take, length_drop; lia).
    replace (Z.to_nat (k - pos))
      with (Z.to_nat (a - pos)
            + length (take (Z.to_nat (k - a))
                        (drop (Z.to_nat (a - first)) temp)))%nat
      by (rewrite Hlen; lia).
    rewrite list_inserts_snoc by (rewrite Hlen; lia). f_equal.
    replace (Z.to_nat (k + 1 - a)) with (S (Z.to_nat (k - a))) by lia.
    assert (Hlk : drop (Z.to_nat (a - first)) temp !! Z.to_nat (k - a)
                  = Some (temp !!! Z.to_nat (k - first))).
    { rewrite lookup_drop.
      replace (Z.to_nat (a - first) + Z.to_nat (k - a))%nat
        with (Z.to_nat (k - first)) by lia.
      apply list_lookup_lookup_total_lt. lia. }
    by rewrite (take_S_r _ _ _ Hlk).
  - lia.
  - by rewrite Z.sub_diag.
  - by rewrite Hloop.
Qed.

Lemma deliver_snoc pos perm msgs msg :
  deliver pos perm (msgs ++ [msg])
  = list_inserts (Z.to_nat (msg_firstp msg - pos)) (msg_payload msg)
      (deliver pos perm msgs).
Proof. unfold deliver. by rewrite foldl_app. Qed.

Lemma filter_none (r : Z) (l : list message) :
  Forall (fun msg => msg_dst msg < r) l ->
  filter (fun msg => msg_dst msg = r) l = [].
Proof.
  induction 1 as [|msg l Hm _ IH]; [done|].
  rewrite filter_cons_False by lia. done.
Qed.

Section Trace.
Variables (N rank m n first sz count : Z) (temp perm0 : list Z).
Hypothesis Hm : 1 <= m <= n.
Hypothesis Hrank : 0 <= rank < N.
Hypothesis Hn : n < 2 ^ 31.
Hypothesis HNm : n <= N * m.
Hypothesis Hfirst : 0 <= first.
Hypothesis Hsz : 0 <= sz.
Hypothesis Hheld : 1 <= first + sz <= n.
Hypothesis Hcount : count = Z.min m (n - rank * m).
Hypothesis Hc0 : 0 <= count.
Hypothesis Htemp : Z.of_nat (length temp) = sz.
Hypothesis Hperm0 : length perm0 = Z.to_nat count.

Lemma send_step rp firstp remains perm sent slices :
  send_trace N rank m first sz count temp perm0 slices
    (rp, firstp, remains, perm, sent) ->
  0 <= rp < N -> rp * m <= firstp < (rp + 1) * m ->
  firstp < first + sz - 1 \/ firstp = first ->
  exists msg remains' perm' sent',
    send_body N rank temp m (rank * m) first (first + sz - 1)
      (rp, firstp, remains, perm, sent)
    = Ok (rp + 1, msg_end msg, remains', perm', sent')
    /\ send_trace N rank m first sz count temp perm0 (slices ++ [msg])
         (rp + 1, msg_end msg, remains', perm', sent')
    /\ (msg_end msg < first + sz - 1 -> msg_end msg = (rp + 1) * m)
    /\ (msg_end msg < first + sz - 1
        \/ msg_end msg = handled_end m first sz).
Proof.
  intros (Hfp & Hok & Hend & Hsorted & Hsum & Hsent & Hperm & Hrem & Hwhole)
    Hrp Hhead Hpre.
  unfold send_body.
  replace ((rp + 1) * m) with (rp * m + m) in * by ring.
  assert (Hrpn : rp <= n).
  { assert (rp * 1 <= rp * m) by (apply Z.mul_le_mono_nonneg_l; lia). lia. }
  remember (rp * m) as B eqn:HB.
  rewrite (u32_small (B + m)), (u32_small (B + m - 1)) by lia.
  set (lastp := if B + m - 1 >? first + sz - 1 then first + sz - 1
                else B + m - 1).
  assert (Hlastp : lastp = Z.min (B + m - 1) (first + sz - 1)).
  { unfold lastp. destruct (Z.gtb_spec (B + m - 1) (first + sz - 1)); lia. }
  clearbody lastp.
  rewrite (u64_small (lastp - firstp + 1)), (u32_small (lastp - firstp + 1))
    by lia.
  rewrite (to_int_small rp), (u32_small (rp + 1)) by lia.
  rewrite (u64_small (firstp + (lastp - firstp + 1))) by lia.
  set (countp := lastp - firstp + 1).
  set (payload := take (Z.to_nat countp)
                    (drop (Z.to_nat (firstp - first)) temp)).
  set (msg := Message rank rp firstp countp payload).
  assert (Hmend : msg_end msg = firstp + countp) by done.
  assert (Hmsg : slice_of N rank m first sz temp msg).
  { unfold slice_of, msg_end. cbn.
    replace ((rp + 1) * m) with (rp * m + m) by ring. rewrite <- HB.
    unfold countp. repeat split; try lia; done. }
  assert (Hexit1 : msg_end msg < first + sz - 1 -> msg_end msg = B + m).
  { rewrite Hmend. unfold countp. lia. }
  assert (Hexit2 : msg_end msg < first + sz - 1
                   \/ msg_end msg = handled_end m first sz).
  { rewrite Hmend. unfold countp, handled_end.
    destruct (decide (B + m - 1 < first + sz - 1)) as [Hlt|Hge].
    - destruct (decide (B + m < first + sz - 1)); [left; lia|right].
      rewrite decide_True; [lia|]. split; [lia|].
      replace (first + sz - 1) with ((rp + 1) * m) by lia.
      apply Z.mod_mul. lia.
    - right. rewrite decide_False; [lia|]. intros [H2 Hmod].
      assert (Hd : (first + sz - 1) mod m = first + sz - 1 - B).
      { symmetry. apply (Z.mod_unique_pos _ _ rp); lia. }
      lia. }
  assert (Hplen : Z.of_nat (length payload) = countp).
  { unfold payload. rewrite length_take, length_drop. unfold countp. lia. }
  assert (Htrace : forall remains' perm' sent',
            sent' = filter (fun msg => msg_dst msg <> rank) (slices ++ [msg]) ->
            perm' = deliver (rank * m) perm0
                      (filter (fun msg => msg_dst msg = rank)
                         (slices ++ [msg])) ->
            remains' = count - sumZ (msg_countp
                         <$> filter (fun msg => msg_dst msg = rank)
                               (slices ++ [msg])) ->
            send_trace N rank m first sz count temp perm0 (slices ++ [msg])
              (rp + 1, msg_end msg, remains', perm', sent')).
  { intros remains' perm' sent' Hs Hp Hr. unfold send_trace.
    rewrite Hmend. unfold countp.
    split; [lia|]. split; [apply Forall_app; split; [done|by constructor]|].
    split.
    { apply Forall_app. split.
      - eapply Forall_impl; [exact Hend|]. simpl. intros; lia.
      - constructor; [|done]. unfold msg_end. cbn. unfold countp. lia. }
    split.
    { apply StronglySorted_snoc; [done|].
      eapply Forall_impl; [exact Hend|]. unfold msg_before. cbn.
      intros; lia. }
    split.
    { rewrite fmap_app, sumZ_app, Hsum. simpl. unfold countp. lia. }
    do 3 (split; [done|]).
    apply Forall_app. split; [done|]. constructor; [|done].
    unfold whole_slice, msg_end. cbn.
    replace ((rp + 1) * m) with (rp * m + m) by ring. rewrite <- HB.
    unfold countp. lia. }
  exists msg. rewrite Hmend.
  replace (firstp + (lastp - firstp + 1)) with (firstp + countp)
    by (unfold countp; lia).
  destruct (Z.eqb_spec rank rp) as [Heq|Hne].
  - (* the slice is copied into the own vector *)
    assert (Hnone : filter (fun msg => msg_dst msg = rank) slices = []).
    { apply filter_none. eapply Forall_impl; [exact Hend|].
      simpl. intros; lia. }
    rewrite Hnone in Hperm, Hrem. simpl in Hperm, Hrem.
    rewrite Z.sub_0_r in Hrem. subst perm remains.
    rewrite (u32_small firstp) by lia.
    assert (HrB : rank * m = B) by (by rewrite Heq).
    assert (Hcp : countp <= count) by (unfold countp; lia).
    rewrite copy_loop_ok; [|lia|lia|lia|lia|lia|rewrite Hperm0; lia
                           |rewrite Hperm0; unfold countp in *; lia].
    cbn [rbind].
    rewrite (u32_small (count - countp)) by (unfold countp in *; lia).
    eexists _, _, _. split; [reflexivity|].
    split; [|by rewrite <- Hmend].
    rewrite <- Hmend. apply Htrace.
    + rewrite filter_app, filter_cons_False by (cbn; lia).
      by rewrite app_nil_r.
    + rewrite filter_app, (filter_cons_True _ msg) by (cbn; lia).
      rewrite Hnone. cbn [app filter list_filter].
      replace (lastp + 1 - firstp) with countp by (unfold countp; lia).
      done.
    + rewrite filter_app, (filter_cons_True _ msg) by (cbn; lia).
      rewrite Hnone. cbn. lia.
  - (* the slice is put in flight *)
    destruct (Z.leb_spec 0 rp); [|lia].
    destruct (Z.ltb_spec rp N) as [HrpN|]; [|lia]. cbn [andb].
    assert (Hrd : rd_range temp (u64 (firstp - first)) countp = Ok payload).
    { unfold rd_range, payload. rewrite u64_small by lia.
      destruct (Z.leb_spec countp 0) as [H0|H0].
      - by replace (Z.to_nat countp) with 0%nat by lia.
      - destruct (Z.leb_spec 0 (firstp - first)); [|lia].
        destruct (Z.leb_spec (firstp - first + countp)
                    (Z.of_nat (length temp)));
          [done|unfold countp in *; lia]. }
    rewrite Hrd. cbn [rbind].
    eexists _, _, _. split; [reflexivity|].
    split; [|by rewrite <- Hmend].
    rewrite <- Hmend. apply Htrace.
    + rewrite filter_app, (filter_cons_True _ msg) by (cbn; lia).
      by rewrite Hsent.
    + rewrite filter_app, filter_cons_False by (cbn; lia).
      by rewrite app_nil_r.
    + rewrite filter_app, filter_cons_False by (cbn; lia).
      by rewrite app_nil_r.
Qed.

(** The loop state between iterations. *)
Let loop_inv (st : Z * Z * Z * list Z * list message) : Prop :=
  exists slices,
    send_trace N rank m first sz count temp perm0 slices st
    /\ 0 <= st.1.1.1.1
    /\ (st.1.1.1.2 < first + sz - 1 -> st.1.1.1.2 = st.1.1.1.1 * m)
    /\ (st.1.1.1.2 < first + sz - 1
        \/ st.1.1.1.2 = handled_end m first sz).

Lemma phase3_send_total :
  first / m < N ->
  exists slices res,
    phase3_send N rank temp sz m (rank * m) count first perm0 = Ok res
    /\ sender_done N rank m first sz count temp perm0 slices res.
Proof.
  intros Hrp0. unfold phase3_send, do_while.
  rewrite (u64_small sz), (u64_small (first + sz - 1)) by lia.
  pose proof (Z.mul_div_le first m ltac:(lia)) as Hd1.
  pose proof (Z.mul_succ_div_gt first m ltac:(lia)) as Hd2.
  assert (Hd0 : 0 <= first / m) by (apply Z.div_pos; lia).
  assert (Hd3 : first / m <= first).
  { assert (first / m * 1 <= first / m * m)
      by (apply Z.mul_le_mono_nonneg_l; lia). lia. }
  rewrite (first_owner first m) by lia.
  destruct (send_step (first / m) first count perm0 [] [])
    as (msg & remains1 & perm1 & sent1 & Hb & Htr & Hex1 & Hex2).
  { unfold send_trace. repeat split; try done; try lia; try constructor;
      simpl; lia. }
  { lia. }
  { replace ((first / m + 1) * m) with (m * Z.succ (first / m)) by lia. lia. }
  { by right. }
  rewrite Hb. cbn [rbind].
  destruct (while_loop_measure loop_inv
              (fun st => Z.to_nat (N - st.1.1.1.1))
              (send_cond (first + sz - 1))
              (send_body N rank temp m (rank * m) first (first + sz - 1)))
    with (fuel := S (Z.to_nat N))
         (s := (first / m + 1, msg_end msg, remains1, perm1, sent1))
    as (st2 & Hloop & (slices & Htr2 & _ & _ & Hex) & Hcond).
  - intros [[[[rp firstp] remains] perm] sent] (slices & Htr' & Hrp & Hhd & Hx).
    cbn [fst snd] in *. unfold send_cond.
    destruct (Z.ltb_spec firstp (first + sz - 1)) as [Hlt|Hge]; [right|by left].
    split; [done|]. specialize (Hhd Hlt).
    destruct (send_step rp firstp remains perm sent slices Htr')
      as (msg' & remains' & perm' & sent' & Hb' & Htr'' & Hex1' & Hex2').
    { split; [lia|]. destruct (decide (rp < N)) as [|Hge]; [done|].
      assert (N * m <= rp * m) by (apply Z.mul_le_mono_nonneg_r; lia).
      lia. }
    { replace ((rp + 1) * m) with (rp * m + m) by ring. lia. }
    { by left. }
    eexists. split; [exact Hb'|]. split.
    + exists (slices ++ [msg']). cbn [fst snd]. split; [done|].
      split; [lia|]. split; [done|done].
    + cbn [fst snd]. destruct (decide (rp < N)) as [|Hge]; [lia|].
      assert (N * m <= rp * m) by (apply Z.mul_le_mono_nonneg_r; lia).
      lia.
  - exists [msg]. cbn [fst snd]. split; [done|]. split; [lia|]. done.
  - cbn [fst snd]. lia.
  - rewrite Hloop. cbn [rbind].
    destruct st2 as [[[[rp2 firstp2] remains2] perm2] sent2].
    cbn [fst snd] in *. unfold send_cond in Hcond.
    injection Hcond as Hcond. apply Z.ltb_ge in Hcond.
    destruct Hex as [Hex|Hex]; [lia|].
    exists slices, (remains2, perm2, sent2). split; [done|].
    destruct Htr2
      as (Hfp & Hok & Hend & Hsorted & Hsum & Hsent & Hperm & Hrem & Hwhole).
    unfold sender_done. rewrite <- Hex.
    do 6 (split; [done|]). split; [|done].
    apply chain_tiles; [done| |lia|done].
    apply Forall_forall. intros a Ha.
    destruct (proj1 (Forall_forall _ _) Hok a Ha)
      as (_ & _ & _ & _ & Hf & _ & Hc & _).
    destruct (proj1 (Forall_forall _ _) Hend a Ha) as [He _]. done.
Qed.

Lemma phase3_send_done res :
  phase3_send N rank temp sz m (rank * m) count first perm0 = Ok res ->
  exists slices, sender_done N rank m first sz count temp perm0 slices res.
Proof.
  intros Hrun. destruct (decide (first / m < N)) as [Hlt|Hge].
  - destruct (phase3_send_total Hlt) as (slices & res' & Hrun' & Hdone).
    exists slices. congruence.
  - exfalso. revert Hrun. unfold phase3_send, do_while.
    pose proof (Z.mul_div_le first m ltac:(lia)) as Hd1.
    assert (Hd0 : 0 <= first / m) by (apply Z.div_pos; lia).
    assert (Hd3 : first / m <= first).
  { assert (first / m * 1 <= first / m * m)
      by (apply Z.mul_le_mono_nonneg_l; lia). lia. }
    rewrite (first_owner first m) by lia.
    unfold send_body. rewrite (to_int_small (first / m)) by lia.
    destruct (Z.eqb_spec rank (first / m)); [lia|].
    destruct (Z.ltb_spec (first / m) N); [lia|].
    rewrite andb_false_r. done.
Qed.
End Trace.

(** A sender whose base position lies behind the last block addresses a
    rank outside the group. *)
Lemma phase3_send_invalid_rank N rank (temp : list Z) sz m pos count first
    perm :
  1 <= m -> 0 <= rank < N -> 0 <= first < 2 ^ 31 -> N <= first / m ->
  phase3_send N rank temp sz m pos count first perm = Fault InvalidRank.
Proof.
  intros Hm Hrank Hfirst Hge. unfold phase3_send, do_while.
  pose proof (Z.mul_div_le first m ltac:(lia)) as Hd1.
  assert (Hd0 : 0 <= first / m) by (apply Z.div_pos; lia).
  assert (Hd3 : first / m <= first).
  { assert (first / m * 1 <= first / m * m)
      by (apply Z.mul_le_mono_nonneg_l; lia). lia. }
  rewrite (first_owner first m) by lia.
  unfold send_body. rewrite (to_int_small (first / m)) by lia.
  destruct (Z.eqb_spec rank (first / m)); [lia|].
  destruct (Z.ltb_spec (first / m) N); [lia|].
  rewrite andb_false_r. done.
Qed.

Lemma sumZ_filter_split (P : message -> Prop) `{forall x, Decision (P x)}
    (l : list message) :
  sumZ (msg_countp <$> l)
  = sumZ (msg_countp <$> filter P l)
    + sumZ (msg_countp <$> filter (fun x => ~ P x) l).
Proof.
  induction l as [|a l IH]; [done|].
  rewrite fmap_cons, sumZ_cons, IH.
  destruct (decide (P a)) as [Ha|Ha].
  - rewrite (filter_cons_True P) by done.
    rewrite (filter_cons_False (fun x => ~ P x)) by tauto.
    rewrite fmap_cons, sumZ_cons. lia.
  - rewrite (filter_cons_False P) by done.
    rewrite (filter_cons_True (fun x => ~ P x)) by done.
    rewrite fmap_cons, sumZ_cons. lia.
Qed.

(** X10.  For [n < 2^31], a layout with [1 <= m <= n <= N * m], a rank
    [0 <= rank < N] whose vector has [count = min m (n - rank * m) >= 0]
    cells, and a held range [[first, first + sz)] with [0 <= first],
    [1 <= sz] and [first + sz <= n] whose [sz] elements are in [temp]:
    the sender loop always returns.  Its iterations handle slices that
    follow one another without gap from [first] to [handled_end] (the
    end of the held range, or one position before it when the rank
    holds at least two positions and the last one is the first position
    of a block), each inside the block of one valid rank and inside the
    held range, none empty, each reaching to the end of its block or of
    the held range, each carrying the elements of [temp] at its
    positions; the slices for other ranks are in flight in that order,
    the slice for the rank itself is stored in its vector, and
    [remains] has dropped by the length of that slice. *)
Theorem phase3_send_slices (N rank m n first sz count : Z)
    (temp perm0 : list Z) :
  1 <= m <= n -> 0 <= rank < N -> n < 2 ^ 31 -> n <= N * m ->
  0 <= first -> 1 <= sz -> first + sz <= n ->
  count = Z.min m (n - rank * m) -> 0 <= count ->
  Z.of_nat (length temp) = sz -> length perm0 = Z.to_nat count ->
  exists slices remains perm sent,
    phase3_send N rank temp sz m (rank * m) count first perm0
    = Ok (remains, perm, sent)
    /\ sender_done N rank m first sz count temp perm0 slices
         (remains, perm, sent).
Proof.
  intros Hm Hrank Hn HNm Hfirst Hsz Hheld Hcount Hc0 Htemp Hperm0.
  destruct (phase3_send_total N rank m n first sz count temp perm0)
    as (slices & [[remains perm] sent] & Hrun & Hdone);
    try done; try lia.
  - pose proof (Z.mul_div_le first m ltac:(lia)).
    apply Z.div_lt_upper_bound; lia.
  - by exists slices, remains, perm, sent.
Qed.

Lemma phase3_send_slices_witness :
  exists slices remains perm sent,
    phase3_send 3 1 [10; 11; 12; 13] 4 2 (1 * 2) 2 1 [0; 0]
    = Ok (remains, perm, sent)
    /\ sender_done 3 1 2 1 4 2 [10; 11; 12; 13] [0; 0] slices
         (remains, perm, sent).
Proof.
  apply (phase3_send_slices 3 1 2 6 1 4 2 [10; 11; 12; 13] [0; 0]);
    first [ lia | reflexivity ].
Defined.

(** X11.  Which elements the sender loop hands over, for [n < 2^31], a
    layout with [1 <= m <= n <= N * m], a rank [0 <= rank < N] whose
    vector has [count = min m (n - rank * m) >= 0] cells, and a held
    range [[first, first + sz)] with [0 <= first], [1 <= sz] and
    [first + sz <= n] whose [sz] elements are in [temp].  With [stop] the
    position [handled_end] (one before the end of the held range when
    the rank holds at least two positions and the last one is the first
    position of a block, the end of the range otherwise): every position
    [g] of [[first, stop)] is either stored in the own vector at
    [g - pos], when the rank owns it, or carried by a slice in flight to
    its owner [g / m]; no slice in flight reaches [stop] or beyond, and
    the cells of the own vector outside [[first, stop)] keep their value.
    So in the corner case the element at the last held position, and
    only that one, is neither copied nor sent: [sz - 1] elements are
    handed over, and [sz] otherwise. *)
Theorem phase3_send_handled_count (N rank m n first sz count : Z)
    (temp perm0 : list Z) :
  1 <= m <= n -> 0 <= rank < N -> n < 2 ^ 31 -> n <= N * m ->
  0 <= first -> 1 <= sz -> first + sz <= n ->
  count = Z.min m (n - rank * m) -> 0 <= count ->
  Z.of_nat (length temp) = sz -> length perm0 = Z.to_nat count ->
  exists remains perm sent,
    phase3_send N rank temp sz m (rank * m) count first perm0
    = Ok (remains, perm, sent)
    /\ (count - remains) + sumZ (msg_countp <$> sent)
       = (if decide (2 <= sz /\ (first + sz - 1) mod m = 0)
          then sz - 1 else sz)
    /\ (forall g, first <= g < handled_end m first sz -> g / m = rank ->
          perm !! Z.to_nat (g - rank * m)
          = Some (temp !!! Z.to_nat (g - first)))
    /\ (forall g, first <= g < handled_end m first sz -> g / m <> rank ->
          exists msg,
            msg ∈ sent /\ msg_dst msg = g / m
            /\ msg_firstp msg <= g < msg_end msg
            /\ msg_payload msg !! Z.to_nat (g - msg_firstp msg)
               = Some (temp !!! Z.to_nat (g - first)))
    /\ Forall (fun msg => first <= msg_firstp msg
                          /\ msg_end msg <= handled_end m first sz) sent
    /\ (forall i : nat,
          ~ (first <= rank * m + Z.of_nat i < handled_end m first sz) ->
          perm !! i = perm0 !! i).
Proof.
  intros Hm Hrank Hn HNm Hfirst Hsz Hheld Hcount Hc0 Htemp Hperm0.
  destruct (phase3_send_total N rank m n first sz count temp perm0)
    as (slices & [[remains perm] sent] & Hrun & Hdone);
    try done; try lia.
  { pose proof (Z.mul_div_le first m ltac:(lia)).
    apply Z.div_lt_upper_bound; lia. }
  exists remains, perm, sent. split; [done|].
  destruct Hdone
    as (Hok & Hsorted & Hsum & Hsent & Hperm & Hrem & Htiles & _).
  set (stop := handled_end m first sz) in *.
  assert (Hstop : stop <= first + sz)
    by (unfold stop, handled_end; case_decide; lia).
  assert (Hnn : Forall (fun a => 0 <= msg_countp a) slices).
  { eapply Forall_impl; [exact Hok|]. by intros a (_ & _ & _ & _ & _ & _ & ? & _). }
  destruct (tiles_inside slices first stop Htiles Hnn) as [Hle Hin].
  assert (Hfacts : forall msg, msg ∈ slices ->
            msg_dst msg * m <= msg_firstp msg
            /\ msg_end msg <= (msg_dst msg + 1) * m
            /\ first <= msg_firstp msg /\ msg_end msg <= stop
            /\ 0 <= msg_countp msg
            /\ Z.of_nat (length (msg_payload msg)) = msg_countp msg
            /\ forall g, msg_firstp msg <= g < msg_end msg ->
                 msg_payload msg !! Z.to_nat (g - msg_firstp msg)
                 = Some (temp !!! Z.to_nat (g - first))).
  { intros msg Hmsg.
    destruct (proj1 (Forall_forall _ _) Hok msg Hmsg)
      as (_ & _ & Hlo & Hhi & Hf & He & Hc & Hpl).
    destruct (proj1 (Forall_forall _ _) Hin msg Hmsg) as [_ Hes].
    unfold msg_end in *.
    repeat split; try done.
    - rewrite Hpl, length_take, length_drop. lia.
    - intros g Hg. rewrite Hpl, lookup_take_lt, lookup_drop by lia.
      replace (Z.to_nat (msg_firstp msg - first)
               + Z.to_nat (g - msg_firstp msg))%nat
        with (Z.to_nat (g - first)) by lia.
      apply list_lookup_lookup_total_lt. lia. }
  assert (Hcover : forall g, first <= g < stop ->
            exists msg, msg ∈ slices /\ msg_firstp msg <= g < msg_end msg
                        /\ msg_dst msg = g / m).
  { intros g Hg.
    destruct (chain_cover slices first stop g Hsorted) as (msg & Hmsg & Hc);
      [|done|done|].
    { apply Forall_forall. intros a Ha.
      destruct (Hfacts a Ha) as (_ & _ & ? & ? & ? & _). done. }
    exists msg. split; [done|]. split; [done|].
    destruct (Hfacts msg Hmsg) as (Hlo & Hhi & _). unfold msg_end in *.
    apply (Z.div_unique_pos g m (msg_dst msg) (g - msg_dst msg * m)); lia. }
  set (local := filter (fun msg => msg_dst msg = rank) slices) in *.
  assert (Hlocal : forall msg, msg ∈ local ->
            msg ∈ slices /\ rank * m <= msg_firstp msg
            /\ msg_end msg <= rank * m + count).
  { intros msg Hmsg. apply list_elem_of_filter in Hmsg as [Hd Hmsg].
    destruct (Hfacts msg Hmsg) as (Hlo & Hhi & _ & He & _).
    rewrite Hd in *. split; [done|]. lia. }
  assert (Hfits : Forall (msg_fits (rank * m) (length perm0)) local).
  { apply Forall_forall. intros msg Hmsg.
    destruct (Hlocal msg Hmsg) as (Hmsg' & Hlo & Hhi).
    destruct (Hfacts msg Hmsg') as (_ & _ & _ & _ & Hc & Hpl & _).
    unfold msg_fits, msg_end in *. rewrite Hperm0. lia. }
  split.
  { rewrite Hsent, Hrem.
    rewrite (sumZ_filter_split (fun msg => msg_dst msg = rank)) in Hsum.
    fold local in Hsum. unfold stop, handled_end in Hsum.
    case_decide; lia. }
  split.
  { intros g Hg Hown.
    destruct (Hcover g Hg) as (msg & Hmsg & Hc & Hd).
    destruct (Hfacts msg Hmsg) as (Hlo & _ & _ & _ & _ & _ & Hpl).
    assert (Hml : msg ∈ local)
      by (apply list_elem_of_filter; split; [congruence|done]).
    destruct (Hlocal msg Hml) as (_ & Hl & _).
    rewrite Hperm.
    replace (Z.to_nat (g - rank * m))
      with (Z.to_nat (msg_firstp msg - rank * m)
            + Z.to_nat (g - msg_firstp msg))%nat by lia.
    apply deliver_lookup_in; [done| |done|by apply Hpl].
    by apply StronglySorted_all_disjoint, StronglySorted_filter. }
  split.
  { intros g Hg Hown.
    destruct (Hcover g Hg) as (msg & Hmsg & Hc & Hd).
    destruct (Hfacts msg Hmsg) as (_ & _ & _ & _ & _ & _ & Hpl).
    exists msg. rewrite Hsent.
    split; [apply list_elem_of_filter; split; [congruence|done]|].
    split; [done|]. split; [done|]. by apply Hpl. }
  split.
  { rewrite Hsent. apply Forall_forall. intros msg Hmsg.
    apply list_elem_of_filter in Hmsg as [_ Hmsg].
    destruct (Hfacts msg Hmsg) as (_ & _ & ? & ? & _). done. }
  intros i Hout. rewrite Hperm. apply deliver_lookup_out.
  intros msg Hmsg Hcov. apply Hout.
  destruct (Hlocal msg Hmsg) as (Hmsg' & Hl & _).
  destruct (Hfacts msg Hmsg') as (_ & _ & Hf & He & Hc & Hpl & _).
  unfold msg_end in *. lia.
Qed.

Lemma phase3_send_handled_count_witness :
  exists remains perm sent,
    phase3_send 3 1 [10; 11; 12; 13] 4 2 (1 * 2) 2 1 [0; 0]
    = Ok (remains, perm, sent)
    /\ (2 - remains) + sumZ (msg_countp <$> sent)
       = (if decide (2 <= 4 /\ (1 + 4 - 1) mod 2 = 0) then 4 - 1 else 4)
    /\ (forall g, 1 <= g < handled_end 2 1 4 -> g / 2 = 1 ->
          perm !! Z.to_nat (g - 1 * 2)
          = Some ([10; 11; 12; 13] !!! Z.to_nat (g - 1)))
    /\ (forall g, 1 <= g < handled_end 2 1 4 -> g / 2 <> 1 ->
          exists msg,
            msg ∈ sent /\ msg_dst msg = g / 2
            /\ msg_firstp msg <= g < msg_end msg
            /\ msg_payload msg !! Z.to_nat (g - msg_firstp msg)
               = Some ([10; 11; 12; 13] !!! Z.to_nat (g - 1)))
    /\ Forall (fun msg => 1 <= msg_firstp msg
                          /\ msg_end msg <= handled_end 2 1 4) sent
    /\ (forall i : nat,
          ~ (1 <= 1 * 2 + Z.of_nat i < handled_end 2 1 4) ->
          perm !! i = [0; 0] !! i).
Proof.
  apply (phase3_send_handled_count 3 1 2 6 1 4 2 [10; 11; 12; 13] [0; 0]);
    first [ lia | reflexivity ].
Defined.

(** ** Lists of slices *)

Lemma list_choice {A B} (P : nat -> A -> B -> Prop) (l : list A) :
  (forall i x, l !! i = Some x -> exists y, P i x y) ->
  exists ys, length ys = length l
             /\ forall i x y, l !! i = Some x -> ys !! i = Some y -> P i x y.
Proof.
  induction l as [|x l IH] using rev_ind; intros Hex.
  - exists []. split; [done|]. intros i x y Hx. done.
  - destruct IH as (ys & Hlen & Hys).
    { intros i a Ha. apply (Hex i a). by apply lookup_app_l_Some. }
    destruct (Hex (length l) x) as [y Hy].
    { by rewrite lookup_app_r, Nat.sub_diag by lia. }
    exists (ys ++ [y]). split; [rewrite !length_app; simpl; lia|].
    intros i a b Ha Hb.
    destruct (decide (i < length l)%nat) as [Hi|Hi].
    + rewrite lookup_app_l in Ha by lia. rewrite lookup_app_l in Hb by lia.
      by apply Hys.
    + rewrite lookup_app_r in Ha by lia. rewrite lookup_app_r in Hb by lia.
      rewrite Hlen in Hb.
      destruct (i - length l)%nat as [|k] eqn:Hk; [|by destruct k].
      simpl in Ha, Hb. injection Ha as <-. injection Hb as <-.
      by replace i with (length l) by lia.
Qed.

Lemma concat_block (ls : list (list Z)) (i : nat) (l : list Z) :
  ls !! i = Some l ->
  take (length l) (drop (length (concat (take i ls))) (concat ls)) = l.
Proof.
  intros Hl. rewrite <- (take_drop_middle ls i l Hl) at 2.
  rewrite concat_app. simpl. rewrite drop_app_length.
  by rewrite take_app_length.
Qed.

Lemma concat_take_length (ls : list (list Z)) (i : nat) :
  Z.of_nat (length (concat (take i ls)))
  = sumZ (take i ((fun l => Z.of_nat (length l)) <$> ls)).
Proof.
  revert i. induction ls as [|l ls IH]; intros [|i]; simpl; try done.
  rewrite length_app, Nat2Z.inj_add, IH. done.
Qed.

Lemma filter_split {A} (P Q : A -> Prop) `{forall x, Decision (P x)}
    `{forall x, Decision (Q x)} (l : list A) :
  Permutation (filter P l)
    (filter (fun x => P x /\ Q x) l ++ filter (fun x => P x /\ ~ Q x) l).
Proof.
  induction l as [|a l IH]; [done|].
  destruct (decide (P a)) as [Ha|Ha].
  - rewrite (filter_cons_True P) by done.
    destruct (decide (Q a)) as [Hq|Hq].
    + rewrite (filter_cons_True (fun x => P x /\ Q x)) by done.
      rewrite (filter_cons_False (fun x => P x /\ ~ Q x)) by tauto.
      simpl. by rewrite IH.
    + rewrite (filter_cons_False (fun x => P x /\ Q x)) by tauto.
      rewrite (filter_cons_True (fun x => P x /\ ~ Q x)) by done.
      rewrite IH. apply Permutation_middle.
  - rewrite (filter_cons_False P) by done.
    rewrite (filter_cons_False (fun x => P x /\ Q x)) by tauto.
    by rewrite (filter_cons_False (fun x => P x /\ ~ Q x)) by tauto.
Qed.

Lemma filter_concat {A} (P : A -> Prop) `{forall x, Decision (P x)}
    (ls : list (list A)) :
  filter P (concat ls) = concat (filter P <$> ls).
Proof.
  induction ls as [|l ls IH]; [done|]. simpl. by rewrite filter_app, IH.
Qed.

Lemma deliver_app pos perm msgs1 msgs2 :
  deliver pos perm (msgs1 ++ msgs2)
  = deliver pos (deliver pos perm msgs1) msgs2.
Proof. unfold deliver. by rewrite foldl_app. Qed.

(** Slices in ascending order inside [[lo, hi)] that carry [hi - lo]
    elements cover every position of [[lo, hi)]. *)
Lemma take_drop_sub (l : list Z) (f len d c : nat) :
  (d + c <= len)%nat ->
  take c (drop d (take len (drop f l))) = take c (drop (f + d) l).
Proof.
  intros Hdc. apply list_eq. intros j.
  destruct (decide (j < c)%nat) as [Hj|Hj].
  - rewrite !lookup_take_lt, !lookup_drop by lia.
    rewrite lookup_take_lt, lookup_drop by lia. f_equal. lia.
  - by rewrite !lookup_take_ge by lia.
Qed.

Lemma filter_ext_in {A} (P Q : A -> Prop) `{forall x, Decision (P x)}
    `{forall x, Decision (Q x)} (l : list A) :
  (forall x, x ∈ l -> P x <-> Q x) -> filter P l = filter Q l.
Proof.
  induction l as [|a l IH]; intros Hpq; [done|].
  rewrite !filter_cons.
  pose proof (Hpq a ltac:(by left)) as Ha.
  rewrite IH by (intros x Hx; apply Hpq; by right).
  repeat case_decide; tauto.
Qed.

Lemma filter_all {A} (P : A -> Prop) `{forall x, Decision (P x)} (l : list A) :
  Forall P l -> filter P l = l.
Proof.
  induction 1 as [|a l Ha _ IH]; [done|].
  by rewrite filter_cons_True, IH by done.
Qed.

Lemma filter_nothing {A} (P : A -> Prop) `{forall x, Decision (P x)}
    (l : list A) :
  Forall (fun x => ~ P x) l -> filter P l = [].
Proof.
  induction 1 as [|a l Ha _ IH]; [done|].
  by rewrite filter_cons_False, IH by done.
Qed.

(** When the slices of [traces !! j] all come from rank [k + j], the
    slices of rank [k + r] in the concatenation are [traces !! r]. *)
Lemma filter_src_concat (traces : list (list message)) : forall (k r : nat),
  (forall j slices msg, traces !! j = Some slices -> msg ∈ slices ->
     msg_src msg = Z.of_nat (k + j)) ->
  filter (fun msg => msg_src msg = Z.of_nat (k + r)) (concat traces)
  = default [] (traces !! r).
Proof.
  induction traces as [|l traces IH]; intros k r Hsrc; [done|].
  simpl. rewrite filter_app. destruct r as [|r].
  - rewrite filter_all.
    2:{ apply Forall_forall. intros msg Hm. by apply (Hsrc 0%nat l). }
    rewrite filter_nothing; [by rewrite app_nil_r|].
    apply Forall_forall. intros msg Hm.
    apply list_elem_of_In, in_concat in Hm as (lb & Hlb & Hm).
    apply list_elem_of_In, list_elem_of_lookup in Hlb as [j Hj].
    rewrite (Hsrc (S j) lb msg Hj) by (by apply list_elem_of_In). lia.
  - rewrite filter_nothing.
    2:{ apply Forall_forall. intros msg Hm.
        rewrite (Hsrc 0%nat l msg eq_refl Hm). lia. }
    simpl. replace (k + S r)%nat with (S k + r)%nat by lia.
    apply IH. intros j slices msg Hj Hm.
    rewrite (Hsrc (S j) slices msg Hj Hm). f_equal. lia.
Qed.

Lemma blocks_concat (l : list Z) (m k : nat) :
  concat ((fun r : nat => take m (drop (r * m) l)) <$> seq 0 k)
  = take (k * m) l.
Proof.
  induction k as [|k IH]; [done|].
  rewrite seq_S, fmap_app, concat_app, IH. simpl.
  rewrite app_nil_r, take_take_drop. f_equal. lia.
Qed.

Lemma fisher_yates_Permutation (L : library) (buf : list Z) :
  library_ok L -> Permutation (fisher_yates L buf) buf.
Proof.
  intros HL. unfold fisher_yates. destruct buf as [|x buf]; [done|].
  apply fisher_yates_from_Permutation; [done|]. simpl. lia.
Qed.

Lemma sumZ_fmap_const {A} (f : A -> Z) (v : Z) (l : list A) :
  Forall (fun x => f x = v) l -> sumZ (f <$> l) = Z.of_nat (length l) * v.
Proof.
  induction 1 as [|x l Hx _ IH]; [done|].
  rewrite fmap_cons, sumZ_cons, IH, Hx. simpl length. lia.
Qed.

(** ** [permute] does not depend on the order of arrival *)

Lemma Forall2_fmap_eq {A B C} (P : A -> B -> Prop) (f : A -> C) (g : B -> C)
    (l : list A) (k : list B) :
  (forall x y, P x y -> g y = f x) -> Forall2 P l k -> g <$> k = f <$> l.
Proof. intros HP. induction 1; simpl; f_equal; auto. Qed.

Section Arrival.
Context (L : library) (HL : library_ok L).
Variables (n N : Z) (p_out : Z -> list Z).
Hypothesis Hn : 0 <= n.
Hypothesis HN : 1 <= N.
Hypothesis Hfit : n + N < 2 ^ 31.

Let m : Z := ceil_quot n N.
Let count (r : Z) : Z := lay_count (block_layout n N r).

Variable packs : list (list Z * list Z * list Z).
Hypothesis Hpacks :
  mapM (fun r => run_phase1_pack L (lay_count (block_layout n N r))
                   (lay_pos (block_layout n N r)) (u32 N))
       (seqZ 0 N) = Ok packs.

Lemma count_spec r : 0 <= r < N -> count r = Z.max 0 (Z.min m (n - r * m)).
Proof. intros Hr. apply block_layout_count; lia. Qed.

Lemma packs_lookup (i : nat) :
  Z.of_nat i < N ->
  exists p, packs !! i = Some p
    /\ run_phase1_pack L (count (Z.of_nat i))
         (lay_pos (block_layout n N (Z.of_nat i))) N = Ok p.
Proof.
  intros Hi. apply mapM_Forall2 in Hpacks.
  assert (Hi' : seqZ 0 N !! i = Some (Z.of_nat i))
    by (rewrite lookup_seqZ_lt by lia; f_equal; lia).
  destruct (Forall2_lookup_l _ _ _ i (Z.of_nat i) Hpacks Hi')
    as (p & Hp & Hrun).
  exists p. split; [done|]. by rewrite u32_small in Hrun by lia.
Qed.

Lemma count_pos r : 0 <= r < N -> 1 <= count r.
Proof.
  intros Hr. destruct (packs_lookup (Z.to_nat r) ltac:(lia)) as (p & _ & Hrun).
  rewrite Z2Nat.id in Hrun by lia.
  destruct (decide (count r = 0)) as [H0|H0].
  - rewrite H0, run_phase1_pack_count0 in Hrun. done.
  - rewrite count_spec in * by done. lia.
Qed.

Lemma n_pos : 1 <= n.
Proof.
  pose proof (count_pos 0 ltac:(lia)) as H. rewrite count_spec in H by lia.
  lia.
Qed.

Lemma m_bounds : 1 <= m <= n.
Proof.
  pose proof n_pos. pose proof (ceil_quot_spec n N ltac:(lia) HN).
  pose proof (ceil_quot_bounds n N ltac:(lia) HN). unfold m. nia.
Qed.

Lemma count_min r : 0 <= r < N -> count r = Z.min m (n - r * m).
Proof.
  intros Hr. pose proof (count_pos r Hr). rewrite count_spec in * by done.
  lia.
Qed.

Lemma allocsz_count r :
  0 <= r < N -> lay_allocsz (block_layout n N r) = count r.
Proof.
  intros Hr. pose proof (count_pos r Hr) as Hc.
  unfold count in *. unfold block_layout in *. cbn [lay_allocsz lay_count] in *.
  rewrite (to_int_small (N - 1)) by lia.
  destruct (Z.eqb_spec r (N - 1)) as [Heq|Hne].
  - cbn [andb]. match goal with |- (if ?c >? 0 then _ else _) = _ =>
      destruct (Z.gtb_spec c 0); [done|lia] end.
  - cbn [andb]. pose proof (count_min r Hr) as Hr1.
    pose proof (count_min (r + 1) ltac:(lia)) as Hr2.
    pose proof (count_pos (r + 1) ltac:(lia)) as Hc2.
    pose proof m_bounds.
    unfold count in Hr1, Hr2, Hc2. unfold block_layout in Hr1.
    cbn [lay_count] in Hr1. rewrite Hr1.
    fold m. rewrite (double_to_u32_small m) by lia. lia.
Qed.

Lemma packs_length : length packs = Z.to_nat N.
Proof.
  apply mapM_Forall2, Forall2_length in Hpacks.
  by rewrite <- Hpacks, length_seqZ.
Qed.

Lemma packs_sendcnts (i : nat) p :
  packs !! i = Some p ->
  length p.1.2 = Z.to_nat N /\ Forall (fun c => 0 <= c) p.1.2
  /\ sumZ p.1.2 = count (Z.of_nat i).
Proof.
  intros Hp. pose proof (lookup_lt_Some _ _ _ Hp) as Hi.
  rewrite packs_length in Hi.
  destruct (packs_lookup i ltac:(lia)) as (p' & Hp' & Hrun).
  assert (p' = p) as -> by congruence.
  pose proof (count_pos (Z.of_nat i) ltac:(lia)).
  pose proof (count_min (Z.of_nat i) ltac:(lia)). pose proof m_bounds.
  destruct (run_phase1_pack_ok L (count (Z.of_nat i))
              (lay_pos (block_layout n N (Z.of_nat i))) N HL
              ltac:(lia) ltac:(lia))
    as (packed & sendcnts & Hrun' & _ & Hl & Hnn & Hsum).
  rewrite Hrun' in Hrun. injection Hrun as <-. done.
Qed.

Lemma packs_Forall :
  Forall (fun p => length p.1.2 = Z.to_nat N
                   /\ Forall (fun c => 0 <= c) p.1.2) packs.
Proof.
  apply Forall_lookup. intros i p Hp.
  destruct (packs_sendcnts i p Hp) as (? & ? & _). done.
Qed.

Lemma packs_sum : sumZ ((fun p => sumZ p.1.2) <$> packs) = n.
Proof.
  rewrite <- (block_counts_sum n N Hn HN ltac:(lia)). f_equal.
  unfold block_counts. apply list_eq. intros i.
  rewrite !list_lookup_fmap.
  destruct (packs !! i) as [p|] eqn:Hp; simpl.
  - pose proof (lookup_lt_Some _ _ _ Hp) as Hi. rewrite packs_length in Hi.
    rewrite lookup_seqZ_lt by lia. simpl.
    destruct (packs_sendcnts i p Hp) as (_ & _ & ->). unfold count.
    repeat f_equal; lia.
  - apply lookup_ge_None in Hp. rewrite packs_length in Hp.
    by rewrite lookup_seqZ_ge by lia.
Qed.

(** The sizes of the shuffle buffers: the column sums of the send
    counts. *)
Let sizes : list Z :=
  (fun r => sumZ ((fun p => p.1.2 !!! r) <$> packs)) <$> seq 0 (Z.to_nat N).

Lemma sizes_length : length sizes = Z.to_nat N.
Proof. unfold sizes. by rewrite length_fmap, length_seq. Qed.

Lemma sizes_nonneg : Forall (fun s => 0 <= s) sizes.
Proof.
  unfold sizes. apply Forall_fmap, Forall_forall. intros r Hr. simpl.
  apply elem_of_seq in Hr.
  apply sumZ_nonneg, Forall_fmap. eapply Forall_impl; [exact packs_Forall|].
  intros p [Hl Hnn]. simpl. apply (Forall_lookup_total _ _ _ Hnn). lia.
Qed.

Lemma sizes_sum : sumZ sizes = n.
Proof.
  rewrite <- packs_sum.
  transitivity (sumZ (sumZ <$> ((fun p => p.1.2) <$> packs)));
    [|by rewrite <- list_fmap_compose].
  rewrite <- (sumZ_columns _ (Z.to_nat N)).
  - unfold sizes. f_equal. apply list_fmap_ext. intros i r _.
    by rewrite <- list_fmap_compose.
  - apply Forall_fmap. eapply Forall_impl; [exact packs_Forall|].
    by intros p [Hl _].
Qed.

Lemma sizes_lookup (i : nat) :
  (i < Z.to_nat N)%nat ->
  sizes !! i = Some (sumZ ((fun p => p.1.2 !!! i) <$> packs)).
Proof.
  intros Hi. unfold sizes. by rewrite list_lookup_fmap, lookup_seq_lt.
Qed.

Lemma sizes_bound (i : nat) :
  (i < Z.to_nat N)%nat -> 0 <= sizes !!! i <= n.
Proof.
  intros Hi. rewrite <- sizes_sum.
  apply (sumZ_lookup_le sizes i); [apply sizes_nonneg|].
  apply list_lookup_lookup_total_lt. by rewrite sizes_length.
Qed.

Variable temps : list (list Z * Z).
Hypothesis Htemps :
  mapM (run_phase1_exchange (u32 N) packs) (seqZ 0 N) = Ok temps.

Lemma temps_length : length temps = Z.to_nat N.
Proof.
  apply mapM_Forall2, Forall2_length in Htemps.
  by rewrite <- Htemps, length_seqZ.
Qed.

Lemma temps_lookup (i : nat) ts :
  temps !! i = Some ts ->
  ts.2 = sizes !!! i /\ Z.of_nat (length ts.1) = ts.2.
Proof.
  intros Hts. pose proof (lookup_lt_Some _ _ _ Hts) as Hi.
  rewrite temps_length in Hi.
  apply mapM_Forall2 in Htemps.
  destruct (Forall2_lookup_r _ _ _ i ts Htemps Hts) as (r & Hr & Hrun).
  apply lookup_seqZ in Hr as [-> _]. rewrite u32_small in Hrun by lia.
  destruct ts as [temp total]. cbn [fst snd].
  pose proof (sizes_bound i Hi) as Hb.
  rewrite (list_lookup_total_correct _ _ _ (sizes_lookup i Hi)) in *.
  apply run_phase1_exchange_facts in Hrun as [-> Hlen];
    [| lia | lia | apply packs_length | apply packs_Forall |].
  - by replace (Z.to_nat (0 + Z.of_nat i)) with i in * by lia.
  - replace (Z.to_nat (0 + Z.of_nat i)) with i by lia. lia.
Qed.

Variable temps2 : list (list Z * Z).
Hypothesis Htemps2 :
  mapM (fun '(temp, sz) => temp <- run_phase2 L temp sz;; Ok (temp, sz))
       temps = Ok temps2.

Lemma temps2_length : length temps2 = Z.to_nat N.
Proof.
  apply mapM_Forall2, Forall2_length in Htemps2.
  by rewrite <- Htemps2, temps_length.
Qed.

Lemma temps2_lookup (i : nat) ts :
  temps2 !! i = Some ts ->
  ts.2 = sizes !!! i /\ Z.of_nat (length ts.1) = ts.2.
Proof.
  intros Hts. apply mapM_Forall2 in Htemps2.
  destruct (Forall2_lookup_r _ _ _ i ts Htemps2 Hts)
    as ([temp sz] & Hts1 & Hrun).
  destruct (temps_lookup i _ Hts1) as [Hsz Hlen]. cbn [fst snd] in *.
  destruct (run_phase2 L temp sz) as [temp'|] eqn:Hp2; cbn [rbind] in Hrun;
    [|done].
  injection Hrun as <-. cbn [fst snd].
  by rewrite (run_phase2_length _ _ _ _ Hp2).
Qed.

Lemma temps2_sizes : snd <$> temps2 = sizes.
Proof.
  apply list_eq. intros i. rewrite list_lookup_fmap.
  destruct (temps2 !! i) as [ts|] eqn:Hts; simpl.
  - destruct (temps2_lookup i ts Hts) as [-> _].
    pose proof (lookup_lt_Some _ _ _ Hts) as Hi. rewrite temps2_length in Hi.
    symmetry. apply list_lookup_lookup_total_lt. by rewrite sizes_length.
  - apply lookup_ge_None in Hts. rewrite temps2_length in Hts.
    symmetry. apply lookup_ge_None. by rewrite sizes_length.
Qed.

(** The base position of rank [i]: the sizes of the ranks before it. *)
Let first (i : nat) : Z := sumZ (take i sizes).

Lemma first_bounds (i : nat) :
  (i < Z.to_nat N)%nat -> 0 <= first i /\ first i + sizes !!! i <= n.
Proof.
  intros Hi. unfold first.
  pose proof (sumZ_take_le sizes i sizes_nonneg).
  pose proof (sumZ_take_le sizes (S i) sizes_nonneg) as HS.
  rewrite take_S_total, sumZ_app, sizes_sum in HS
    by (rewrite sizes_length; lia).
  simpl in HS. lia.
Qed.

Lemma first_mono (i j : nat) :
  (i < j)%nat -> (j <= Z.to_nat N)%nat -> first i + sizes !!! i <= first j.
Proof.
  intros Hij Hj. unfold first.
  pose proof (sumZ_take_mono sizes (S i) j sizes_nonneg ltac:(lia)) as Hm.
  rewrite take_S_total, sumZ_app in Hm by (rewrite sizes_length; lia).
  simpl in Hm. lia.
Qed.

Variable sends : list (Z * list Z * list message).
Hypothesis Hsends :
  mapM (fun '(r, (temp, sz)) =>
          phase3_send N r temp sz (lay_m (block_layout n N r))
            (lay_pos (block_layout n N r)) (lay_count (block_layout n N r))
            (phase3_first (snd <$> temps2) r)
            (resize (p_out r) (lay_allocsz (block_layout n N r))))
       (zip (seqZ 0 N) temps2) = Ok sends.

Lemma sends_length : length sends = Z.to_nat N.
Proof.
  apply mapM_Forall2, Forall2_length in Hsends.
  rewrite <- Hsends, length_zip, length_seqZ, temps2_length. lia.
Qed.

Lemma sends_lookup (i : nat) remains perm sent :
  sends !! i = Some (remains, perm, sent) ->
  Forall (slice_ok N (Z.of_nat i) m (first i) (sizes !!! i)) sent
  /\ StronglySorted msg_before sent
  /\ 0 <= remains <= count (Z.of_nat i)
  /\ count (Z.of_nat i) - remains
     <= overlap (first i) (first i + sizes !!! i)
          (Z.of_nat i * m) ((Z.of_nat i + 1) * m)
  /\ length perm = Z.to_nat (count (Z.of_nat i)).
Proof.
  intros Hs. pose proof (lookup_lt_Some _ _ _ Hs) as Hi.
  rewrite sends_length in Hi.
  apply mapM_Forall2 in Hsends.
  destruct (Forall2_lookup_r _ _ _ i _ Hsends Hs)
    as ([r [temp sz]] & Hx & Hrun).
  apply lookup_zip_Some in Hx as [Hr Hts].
  apply lookup_seqZ in Hr as [-> _].
  replace (0 + Z.of_nat i) with (Z.of_nat i) in Hrun by lia.
  destruct (temps2_lookup i _ Hts) as [Hsz Hlen]. cbn [fst snd] in *.
  pose proof m_bounds as Hm. pose proof n_pos.
  pose proof (first_bounds i Hi) as Hfb.
  pose proof (sizes_bound i Hi) as Hsb.
  rewrite block_layout_m, block_layout_pos, allocsz_count in Hrun by lia.
  fold m in Hrun. fold (count (Z.of_nat i)) in Hrun.
  rewrite temps2_sizes in Hrun.
  rewrite phase3_first_prefix in Hrun;
    [|apply sizes_nonneg|rewrite sizes_sum; lia|rewrite sizes_length; lia].
  fold (first i) in Hrun. subst sz.
  destruct (decide (first i + sizes !!! i = 0)) as [H0|H0].
  - assert (first i = 0) as Hf0 by lia.
    assert (sizes !!! i = 0) as Hs0 by lia. rewrite Hf0, Hs0 in Hrun.
    rewrite phase3_send_nothing_at_0 in Hrun; [done|lia|lia|lia].
  - apply (phase3_send_facts N (Z.of_nat i) m n (first i) (sizes !!! i)
             (count (Z.of_nat i)) temp) in Hrun;
      first [ exact Hrun | lia | apply count_min; lia
            | apply count_pos; lia | apply resize_length ].
Qed.

(** Everything in flight, in the order of the sending ranks. *)
Let flying : list message := in_flight sends.

Lemma in_flight_elem msg :
  msg ∈ flying ->
  exists (i : nat) remains perm sent,
    sends !! i = Some (remains, perm, sent) /\ msg ∈ sent.
Proof.
  unfold flying, in_flight. intros Hmsg.
  apply list_elem_of_In, in_concat in Hmsg as (sent & Hsent & Hmsg).
  apply list_elem_of_In, list_elem_of_fmap in Hsent as ([[remains perm] sent']
    & -> & Hs).
  apply list_elem_of_lookup in Hs as [i Hi].
  exists i, remains, perm, sent'. split; [done|]. by apply list_elem_of_In.
Qed.

Lemma in_flight_sorted : StronglySorted msg_before flying.
Proof.
  apply StronglySorted_concat.
  - apply Forall_fmap, Forall_lookup. intros i [[remains perm] sent] Hs.
    by destruct (sends_lookup i _ _ _ Hs) as (_ & ? & _).
  - intros i j la lb a b Hij Hi Hj Ha Hb.
    rewrite list_lookup_fmap in Hi, Hj.
    destruct (sends !! i) as [[[ri pi] si]|] eqn:Hsi; [|done].
    destruct (sends !! j) as [[[rj pj] sj]|] eqn:Hsj; [|done].
    simpl in Hi, Hj. injection Hi as <-. injection Hj as <-.
    pose proof (lookup_lt_Some _ _ _ Hsj) as Hjn. rewrite sends_length in Hjn.
    destruct (sends_lookup i _ _ _ Hsi) as (Hoki & _).
    destruct (sends_lookup j _ _ _ Hsj) as (Hokj & _).
    pose proof (proj1 (Forall_forall _ _) Hoki a Ha)
      as (_ & _ & _ & _ & _ & _ & Hae & _).
    pose proof (proj1 (Forall_forall _ _) Hokj b Hb)
      as (_ & _ & _ & _ & _ & Hbf & _).
    pose proof (first_mono i j Hij ltac:(lia)). unfold msg_before. lia.
Qed.

(** What the slices addressed to a rank look like: they fit its vector,
    do not overlap, and are not more than the rank still waits for. *)
Lemma inbox_facts (i : nat) remains perm sent :
  sends !! i = Some (remains, perm, sent) ->
  lay_pos (block_layout n N (Z.of_nat i)) = Z.of_nat i * m
  /\ Z.of_nat (length perm) <= m
  /\ Forall (msg_fits (Z.of_nat i * m) (length perm))
       (filter (fun msg => msg_dst msg = Z.of_nat i) flying)
  /\ StronglySorted msg_before
       (filter (fun msg => msg_dst msg = Z.of_nat i) flying)
  /\ sumZ (msg_countp
           <$> filter (fun msg => msg_dst msg = Z.of_nat i) flying)
     <= remains < 2 ^ 32.
Proof.
  intros Hs.
  pose proof (lookup_lt_Some _ _ _ Hs) as Hi. rewrite sends_length in Hi.
  destruct (sends_lookup i _ _ _ Hs) as (_ & _ & Hrem & Hov & Hlen).
  pose proof m_bounds as Hm. pose proof n_pos.
  pose proof (count_min (Z.of_nat i) ltac:(lia)) as Hc.
  pose proof (count_pos (Z.of_nat i) ltac:(lia)) as Hc1.
  pose proof (first_bounds i Hi) as Hfb.
  pose proof (sizes_bound i Hi) as Hsb.
  rewrite block_layout_pos by lia. fold m.
  set (inbox := filter _ flying) in *.
  assert (Hsorted : StronglySorted msg_before inbox)
    by (apply StronglySorted_filter, in_flight_sorted).
  assert (Hfacts : Forall (fun msg =>
            msg_fits (Z.of_nat i * m) (length perm) msg
            /\ (Z.of_nat i * m <= msg_firstp msg
                /\ msg_end msg <= Z.of_nat i * m + count (Z.of_nat i)
                /\ 0 <= msg_countp msg)
            /\ (msg_end msg <= first i
                \/ first i + sizes !!! i <= msg_firstp msg)) inbox).
  { apply Forall_forall. intros msg Hmsg.
    apply list_elem_of_filter in Hmsg as [Hdst Hmsg].
    apply in_flight_elem in Hmsg as (j & rj & pj & sj & Hsj & Hmsg).
    pose proof (lookup_lt_Some _ _ _ Hsj) as Hj. rewrite sends_length in Hj.
    destruct (sends_lookup j _ _ _ Hsj) as (Hok & _).
    pose proof (proj1 (Forall_forall _ _) Hok msg Hmsg)
      as (Hsrc & Hd & Hne & Hlo & Hhi & Hf & He & Hcp & Hpl).
    pose proof (first_bounds j Hj) as Hfj.
    rewrite Hdst in *.
    replace ((Z.of_nat i + 1) * m) with (Z.of_nat i * m + m) in * by ring.
    unfold msg_fits, msg_end in *. rewrite Hlen.
    assert (Hij : (j < i)%nat \/ (i < j)%nat) by lia.
    split; [lia|]. split; [lia|].
    destruct Hij as [Hij|Hij].
    - left. pose proof (first_mono j i Hij ltac:(lia)). lia.
    - right. pose proof (first_mono i j Hij ltac:(lia)). lia. }
  split; [done|]. split; [lia|]. split.
  { eapply Forall_impl; [exact Hfacts|]. by intros msg (? & _). }
  split; [done|].
  assert (Hle : first i <= first i + sizes !!! i) by lia.
  pose proof (chain_sum_hole (first i) (first i + sizes !!! i) inbox
                (Z.of_nat i * m) (Z.of_nat i * m + count (Z.of_nat i))
                Hle Hsorted) as Hsum.
  unfold overlap in Hov.
  replace ((Z.of_nat i + 1) * m) with (Z.of_nat i * m + m) in * by ring.
  assert (sumZ (msg_countp <$> inbox)
          <= Z.max 0 (Z.min (first i)
                        (Z.of_nat i * m + count (Z.of_nat i))
                      - Z.of_nat i * m)
             + Z.max 0 (Z.of_nat i * m + count (Z.of_nat i)
                        - Z.max (first i + sizes !!! i) (Z.of_nat i * m)));
    [|lia].
  apply Hsum.
  + eapply Forall_impl; [exact Hfacts|]. by intros msg (_ & ? & _).
  + eapply Forall_impl; [exact Hfacts|]. by intros msg (_ & _ & ?).
Qed.

Lemma inbox_independent (i : nat) remains perm sent inbox' :
  sends !! i = Some (remains, perm, sent) ->
  Permutation inbox'
    (filter (fun msg => msg_dst msg = Z.of_nat i) flying) ->
  phase3_recv (lay_pos (block_layout n N (Z.of_nat i))) remains perm inbox'
  = phase3_recv (lay_pos (block_layout n N (Z.of_nat i))) remains perm
      (filter (fun msg => msg_dst msg = Z.of_nat i) flying).
Proof.
  intros Hs Hperm. symmetry.
  destruct (inbox_facts i _ _ _ Hs) as (_ & _ & Hfits & Hsorted & Hsum).
  apply phase3_recv_Permutation; [done| | |done].
  - by rewrite (proj1 (inbox_facts i _ _ _ Hs)).
  - by apply StronglySorted_all_disjoint.
Qed.

Lemma recv_independent (arrival1 arrival2 : Z -> list message -> list message) :
  (forall r l, Permutation (arrival1 r l) l) ->
  (forall r l, Permutation (arrival2 r l) l) ->
  mapM (fun '(r, (remains, perm, _)) =>
          phase3_recv (lay_pos (block_layout n N r)) remains perm
            (arrival1 r (filter (fun msg => msg_dst msg = r) flying)))
       (zip (seqZ 0 N) sends)
  = mapM (fun '(r, (remains, perm, _)) =>
            phase3_recv (lay_pos (block_layout n N r)) remains perm
              (arrival2 r (filter (fun msg => msg_dst msg = r) flying)))
         (zip (seqZ 0 N) sends).
Proof.
  intros H1 H2. apply mapM_ext_in.
  intros [r [[remains perm] sent]] Hx.
  apply list_elem_of_lookup in Hx as [i Hx].
  apply lookup_zip_Some in Hx as [Hr Hs].
  apply lookup_seqZ in Hr as [-> _].
  replace (0 + Z.of_nat i) with (Z.of_nat i) by lia.
  rewrite (inbox_independent i _ _ _ _ Hs (H1 _ _)).
  by rewrite (inbox_independent i _ _ _ _ Hs (H2 _ _)).
Qed.
(** *** What the ranks hold after Phase 1 *)

Lemma packs_content (i : nat) p :
  packs !! i = Some p ->
  exists packed,
    p.1.1 = packed ++ [0]
    /\ Permutation packed (seqZ (Z.of_nat i * m) (count (Z.of_nat i)))
    /\ p.2 = (fun j => sumZ (take j p.1.2)) <$> seq 0 (Z.to_nat N).
Proof.
  intros Hp. pose proof (lookup_lt_Some _ _ _ Hp) as Hi.
  rewrite packs_length in Hi.
  destruct (packs_lookup i ltac:(lia)) as (p' & Hp' & Hrun).
  assert (p' = p) as -> by congruence.
  pose proof (count_pos (Z.of_nat i) ltac:(lia)).
  pose proof (count_min (Z.of_nat i) ltac:(lia)). pose proof m_bounds.
  destruct (run_phase1_pack_ok L (count (Z.of_nat i))
              (lay_pos (block_layout n N (Z.of_nat i))) N HL
              ltac:(lia) ltac:(lia))
    as (packed & sendcnts & Hrun' & Hperm & _).
  rewrite Hrun' in Hrun. injection Hrun as <-. cbn [fst snd].
  exists packed. split; [done|]. split; [|done].
  rewrite Hperm, block_layout_pos by lia. fold m.
  apply reflexive_eq, fmap_u64_seqZ; nia.
Qed.

Lemma packs_block_ok (r : nat) :
  (r < Z.to_nat N)%nat -> Forall (pack_block_ok r) packs.
Proof.
  intros Hr. apply Forall_lookup. intros i p Hp.
  destruct (packs_sendcnts i p Hp) as (Hl & Hnn & Hsum).
  destruct (packs_content i p Hp) as (packed & Hbuf & Hperm & Hdsp).
  pose proof (lookup_lt_Some _ _ _ Hp) as Hi. rewrite packs_length in Hi.
  pose proof (count_pos (Z.of_nat i) ltac:(lia)).
  assert (Hd : ((fun j => sumZ (take j p.1.2)) <$> seq 0 (Z.to_nat N)) !!! r
               = sumZ (take r p.1.2)).
  { apply list_lookup_total_correct.
    by rewrite list_lookup_fmap, lookup_seq_lt by lia. }
  unfold pack_block_ok. rewrite Hdsp, Hbuf, Hl, Hd.
  rewrite length_fmap, length_seq, length_app, Hperm, length_seqZ.
  pose proof (sumZ_take_le p.1.2 r Hnn) as [H0 _].
  pose proof (sumZ_take_le p.1.2 (S r) Hnn) as [_ HS].
  rewrite take_S_total, sumZ_app in HS by lia. simpl in HS.
  pose proof (Forall_lookup_total _ p.1.2 r Hnn ltac:(lia)).
  simpl in *. lia.
Qed.

(** The exchange completes on every rank; rank [r] receives the blocks
    addressed to it in the order of the senders. *)
Lemma exchange_result :
  mapM (run_phase1_exchange (u32 N) packs) (seqZ 0 N)
  = Ok ((fun r => (concat ((fun p => segment p (Z.to_nat r)) <$> packs),
                   sizes !!! Z.to_nat r)) <$> seqZ 0 N).
Proof.
  apply mapM_fmap. intros r Hr. apply elem_of_seqZ in Hr.
  assert (Hlt : (Z.to_nat r < Z.to_nat N)%nat) by lia.
  pose proof (sizes_bound (Z.to_nat r) Hlt) as Hb.
  rewrite (list_lookup_total_correct _ _ _ (sizes_lookup (Z.to_nat r) Hlt))
    in *.
  rewrite u32_small by lia.
  rewrite <- (Z2Nat.id r) at 1 by lia.
  apply run_phase1_exchange_ok;
    [lia|lia|apply packs_length|apply packs_Forall
    |apply packs_block_ok; lia|lia].
Qed.

Lemma segments_of_pack (i : nat) p :
  packs !! i = Some p ->
  Permutation (concat ((fun r => segment p (Z.to_nat r)) <$> seqZ 0 N))
              (seqZ (Z.of_nat i * m) (count (Z.of_nat i))).
Proof.
  intros Hp.
  destruct (packs_sendcnts i p Hp) as (Hl & Hnn & Hsum).
  destruct (packs_content i p Hp) as (packed & Hbuf & Hperm & Hdsp).
  rewrite <- Hperm.
  pose proof (segments_tile p.1.1 p.1.2 Hnn) as Ht.
  rewrite Hl, Hsum in Ht.
  assert (Hpl : length packed = Z.to_nat (count (Z.of_nat i)))
    by (by rewrite Hperm, length_seqZ).
  assert (Htake : take (Z.to_nat (count (Z.of_nat i))) p.1.1 = packed)
    by (rewrite Hbuf; by apply take_app_length').
  rewrite Htake in Ht. rewrite <- Ht. apply reflexive_eq. f_equal.
  unfold seqZ. rewrite <- list_fmap_compose. apply list_fmap_ext.
  intros k r Hr. apply lookup_seq in Hr as [-> Hr]. simpl.
  unfold segment. rewrite Z.add_0_r, Nat2Z.id.
  replace (p.2 !!! k) with (sumZ (take k p.1.2)); [done|].
  symmetry. rewrite Hdsp. apply list_lookup_total_correct.
  by rewrite list_lookup_fmap, lookup_seq_lt by lia.
Qed.

(** After Phase 1 every index [0 .. n-1] sits in the buffer of exactly
    one rank. *)
Lemma temps_content : Permutation (concat (fst <$> temps)) (seqZ 0 n).
Proof.
  pose proof exchange_result as He. rewrite Htemps in He.
  injection He as He. rewrite He, <- list_fmap_compose.
  change (concat ((fst ∘ _) <$> seqZ 0 N))
    with (concat ((fun r : Z =>
                     concat ((fun p => segment p (Z.to_nat r)) <$> packs))
                  <$> seqZ 0 N)).
  rewrite (concat_transpose (fun r p => segment p (Z.to_nat r))
             (seqZ 0 N) packs).
  pose proof m_bounds as Hm.
  rewrite <- (Z.min_l n (Z.of_nat (Z.to_nat N) * m))
    by (pose proof (layout_m_bounds n N Hn HN ltac:(lia)); unfold m; lia).
  rewrite <- (blocks_tile m n (Z.to_nat N)) by lia.
  rewrite Z2Nat.id by lia.
  apply concat_Forall2_Permutation.
  apply Forall2_same_length_lookup_2;
    [by rewrite packs_length, length_seqZ|].
  intros i p r Hp Hr. apply lookup_seqZ in Hr as [-> Hr].
  rewrite (segments_of_pack i p Hp). rewrite Z.add_0_l.
  by rewrite <- count_spec by lia.
Qed.

(** *** Stages that cannot fail *)

Lemma phase2_stage_total :
  exists shuffled,
    mapM (fun '(temp, sz) => temp <- run_phase2 L temp sz;; Ok (temp, sz))
         temps = Ok shuffled.
Proof.
  apply mapM_total. intros [temp sz] Hx.
  apply list_elem_of_lookup in Hx as [i Ht].
  destruct (temps_lookup i _ Ht) as [Hsz Hlen]. cbn [fst snd] in *.
  pose proof (lookup_lt_Some _ _ _ Ht) as Hi. rewrite temps_length in Hi.
  pose proof (sizes_bound i Hi) as Hb.
  rewrite <- Hlen, run_phase2_small; [by eexists | done | lia |].
  apply Forall_forall. intros v Hv.
  assert (Hin : v ∈ concat (fst <$> temps)).
  { apply list_elem_of_In, in_concat. exists temp. split.
    - apply list_elem_of_In, list_elem_of_fmap. exists (temp, sz).
      split; [done|]. apply list_elem_of_lookup. by exists i.
    - by apply list_elem_of_In. }
  rewrite temps_content in Hin. apply elem_of_seqZ in Hin. lia.
Qed.

Lemma send_stage_total :
  (forall i : nat, (i < Z.to_nat N)%nat -> 1 <= sizes !!! i) ->
  exists sent_by,
    mapM (fun '(r, (temp, sz)) =>
            phase3_send N r temp sz (lay_m (block_layout n N r))
              (lay_pos (block_layout n N r))
              (lay_count (block_layout n N r))
              (phase3_first (snd <$> temps2) r)
              (resize (p_out r) (lay_allocsz (block_layout n N r))))
         (zip (seqZ 0 N) temps2) = Ok sent_by.
Proof.
  intros Hpos. apply mapM_total. intros [r [temp sz]] Hx.
  apply list_elem_of_lookup in Hx as [i Hx].
  apply lookup_zip_Some in Hx as [Hr Hts].
  apply lookup_seqZ in Hr as [-> Hi].
  replace (0 + Z.of_nat i) with (Z.of_nat i) by lia.
  destruct (temps2_lookup i _ Hts) as [Hsz Hlen]. cbn [fst snd] in *.
  pose proof m_bounds as Hm. pose proof n_pos.
  assert (Hi' : (i < Z.to_nat N)%nat) by lia.
  pose proof (first_bounds i Hi') as Hfb.
  pose proof (Hpos i Hi') as Hs1.
  pose proof (layout_m_bounds n N Hn HN ltac:(lia)) as [_ HNm].
  pose proof (count_pos (Z.of_nat i) ltac:(lia)) as Hc1.
  rewrite block_layout_m, block_layout_pos, allocsz_count by lia.
  fold m. fold (count (Z.of_nat i)).
  rewrite temps2_sizes.
  rewrite phase3_first_prefix;
    [|apply sizes_nonneg|rewrite sizes_sum; lia|rewrite sizes_length; lia].
  fold (first i). subst sz.
  destruct (phase3_send_total N (Z.of_nat i) m n (first i) (sizes !!! i)
              (count (Z.of_nat i)) temp
              (resize (p_out (Z.of_nat i)) (count (Z.of_nat i))))
    as (slices & res & Hrun & _);
    first [ lia | apply count_min; lia | apply resize_length
          | unfold m; lia | idtac ].
  - pose proof (Z.mul_div_le (first i) m ltac:(lia)).
    apply Z.div_lt_upper_bound; [lia|]. unfold m in *. nia.
  - by exists res.
Qed.

(** *** As many processes as indices *)

Lemma square_layout :
  n = N -> m = 1 /\ forall r, 0 <= r < N -> count r = 1.
Proof.
  intros Hsq. pose proof m_bounds as Hm.
  pose proof (layout_m_bounds n N Hn HN ltac:(lia)) as [_ [Hlo _]].
  assert (Hm1 : m = 1).
  { destruct (decide (m = 1)) as [|Hne]; [done|]. exfalso.
    assert (1 * N <= (ceil_quot n N - 1) * N)
      by (apply Z.mul_le_mono_nonneg_r; unfold m in *; lia).
    lia. }
  split; [done|]. intros r Hr. rewrite count_min by done. lia.
Qed.

Lemma packs_square :
  n = N ->
  exists c, length c = Z.to_nat N /\ Forall (fun x => 0 <= x) c
            /\ sumZ c = 1 /\ Forall (fun p => p.1.2 = c) packs.
Proof.
  intros Hsq. destruct (square_layout Hsq) as [_ Hc1].
  destruct (run_phase1_pack_uniform L 1 N HL ltac:(lia) ltac:(lia))
    as (ixs & c & sd & _ & Hl & Hnn & Hsum & Hrun).
  exists c. split; [done|]. split; [done|]. split; [done|].
  apply Forall_lookup. intros i p Hp.
  pose proof (lookup_lt_Some _ _ _ Hp) as Hi. rewrite packs_length in Hi.
  destruct (packs_lookup i ltac:(lia)) as (p' & Hp' & Hrun').
  assert (p' = p) as -> by congruence.
  rewrite Hc1, Hrun in Hrun' by lia. by injection Hrun' as <-.
Qed.

Lemma send_stage_square :
  n = N -> 2 <= N ->
  exists e,
    mapM (fun '(r, (temp, sz)) =>
            phase3_send N r temp sz (lay_m (block_layout n N r))
              (lay_pos (block_layout n N r))
              (lay_count (block_layout n N r))
              (phase3_first (snd <$> temps2) r)
              (resize (p_out r) (lay_allocsz (block_layout n N r))))
         (zip (seqZ 0 N) temps2) = Fault e.
Proof.
  intros Hsq HN2. destruct (square_layout Hsq) as [Hm1 Hc1].
  destruct (packs_square Hsq) as (c & Hl & Hnn & Hsum & Hall).
  assert (Hsz : forall i : nat, (i < Z.to_nat N)%nat ->
            sizes !!! i = N * c !!! i).
  { intros i Hi.
    rewrite (list_lookup_total_correct _ _ _ (sizes_lookup i Hi)).
    rewrite (sumZ_fmap_const _ (c !!! i)), packs_length by
      (eapply Forall_impl; [exact Hall|]; by intros p ->).
    lia. }
  destruct c as [|c0 [|c1 rest]]; [simpl in Hl; lia..|].
  apply Forall_cons in Hnn as [Hc0 Hnn]. apply Forall_cons in Hnn as [Hc1' Hnn].
  pose proof (sumZ_nonneg rest Hnn) as Hrest.
  rewrite !sumZ_cons in Hsum.
  pose proof (Hsz 0%nat ltac:(lia)) as Hs0.
  pose proof (Hsz 1%nat ltac:(lia)) as Hs1. simpl in Hs0, Hs1.
  assert (Hf : forall (i : nat) ts e,
            temps2 !! i = Some ts ->
            (forall temp, ts = (temp, sizes !!! i) ->
               Z.of_nat (length temp) = sizes !!! i ->
               phase3_send N (Z.of_nat i) temp (sizes !!! i) 1
                 (Z.of_nat i * 1) 1 (sumZ (take i sizes))
                 (resize (p_out (Z.of_nat i)) 1) = Fault e) ->
            exists e', mapM (fun '(r, (temp, sz)) =>
              phase3_send N r temp sz (lay_m (block_layout n N r))
                (lay_pos (block_layout n N r))
                (lay_count (block_layout n N r))
                (phase3_first (snd <$> temps2) r)
                (resize (p_out r) (lay_allocsz (block_layout n N r))))
              (zip (seqZ 0 N) temps2) = Fault e').
  { intros i [temp sz] e Hts Hrun.
    pose proof (lookup_lt_Some _ _ _ Hts) as Hi. rewrite temps2_length in Hi.
    destruct (temps2_lookup i _ Hts) as [Hsz' Hlen]. cbn [fst snd] in *.
    subst sz.
    apply (mapM_fault _ _ (Z.of_nat i, (temp, sizes !!! i)) e).
    - apply list_elem_of_lookup. exists i. apply lookup_zip_Some.
      split; [|done]. rewrite lookup_seqZ_lt by lia; f_equal; lia.
    - rewrite block_layout_m, block_layout_pos, allocsz_count by lia.
      fold m. fold (count (Z.of_nat i)). rewrite Hm1, Hc1 by lia.
      rewrite temps2_sizes.
      rewrite phase3_first_prefix;
        [|apply sizes_nonneg|rewrite sizes_sum; lia
         |rewrite sizes_length; lia].
      by apply Hrun. }
  destruct (lookup_lt_is_Some_2 temps2 0) as [ts0 Hts0];
    [rewrite temps2_length; lia|].
  destruct (lookup_lt_is_Some_2 temps2 1) as [ts1 Hts1];
    [rewrite temps2_length; lia|].
  destruct (decide (c0 = 0)) as [H0|H0].
  - apply (Hf 0%nat ts0 OutOfBounds Hts0). intros temp _ Hlen.
    rewrite Hs0, H0 in *. replace (N * 0) with 0 in * by lia.
    apply phase3_send_nothing_at_0; lia.
  - apply (Hf 1%nat ts1 InvalidRank Hts1). intros temp _ Hlen.
    assert (Hfirst : sumZ (take 1 sizes) = N).
    { rewrite take_S_total by (rewrite sizes_length; lia).
      simpl. rewrite Hs0. nia. }
    rewrite Hfirst.
    apply phase3_send_invalid_rank; [lia|lia|lia|].
    rewrite Z.div_1_r. lia.
Qed.

(** *** The shuffle buffers as one list *)

(** The shuffle buffers of all ranks, one after the other: position [g]
    of this list is the element at global position [g]. *)
Let held : list Z := concat (fst <$> temps2).

Lemma lengths_sizes :
  (fun l => Z.of_nat (length l)) <$> (fst <$> temps2) = sizes.
Proof.
  rewrite <- temps2_sizes, <- list_fmap_compose.
  apply list_eq. intros i. rewrite !list_lookup_fmap.
  destruct (temps2 !! i) as [ts|] eqn:Hts; [|done]. simpl.
  destruct (temps2_lookup i ts Hts) as [_ Hlen]. by rewrite Hlen.
Qed.

Lemma held_length : Z.of_nat (length held) = n.
Proof.
  unfold held.
  rewrite <- (firstn_all (fst <$> temps2)) at 1.
  by rewrite concat_take_length, lengths_sizes, firstn_all2, sizes_sum
    by (rewrite sizes_length, length_fmap, temps2_length; lia).
Qed.

Lemma held_block (i : nat) temp :
  temps2 !! i = Some (temp, sizes !!! i) ->
  take (length temp) (drop (Z.to_nat (first i)) held) = temp.
Proof.
  intros Hts. unfold held, first.
  rewrite <- lengths_sizes, <- concat_take_length, Nat2Z.id.
  apply concat_block. by rewrite list_lookup_fmap, Hts.
Qed.

Lemma shuffled_content : Permutation held (seqZ 0 n).
Proof.
  rewrite <- temps_content. unfold held.
  apply concat_Forall2_Permutation.
  pose proof Htemps2 as Hall. apply mapM_Forall2 in Hall.
  apply Forall2_same_length_lookup_2;
    [by rewrite temps2_length, temps_length|].
  intros i [temp2 sz2] [temp sz] Ht2 Ht.
  pose proof (Forall2_lookup_lr _ _ _ _ _ _ Hall Ht Ht2) as Hrun.
  simpl in Hrun. revert Hrun. simpl.
  destruct (temps_lookup i _ Ht) as [Hsz Hlen]. cbn [fst snd] in *.
  pose proof (lookup_lt_Some _ _ _ Ht) as Hi. rewrite temps_length in Hi.
  pose proof (sizes_bound i Hi) as Hb.
  rewrite <- Hlen, run_phase2_small; [| done | lia |].
  - cbn [rbind]. intros [= <- _]. by apply fisher_yates_Permutation.
  - apply Forall_forall. intros v Hv.
    assert (Hin : v ∈ concat (fst <$> temps)).
    { apply list_elem_of_In, in_concat. exists temp. split.
      - apply list_elem_of_In, list_elem_of_fmap. exists (temp, sz).
        split; [done|]. apply list_elem_of_lookup. by exists i.
      - by apply list_elem_of_In. }
    rewrite temps_content in Hin. apply elem_of_seqZ in Hin. lia.
Qed.

(** The blocks of [held] of length [m]: together they hold [0 .. n-1],
    each once, and block [r] has [count r] elements. *)
Lemma blocks_permutation :
  Permutation
    (concat ((fun r : nat => take (Z.to_nat m) (drop (r * Z.to_nat m) held))
             <$> seq 0 (Z.to_nat N)))
    (seqZ 0 n)
  /\ Forall2 (fun r out => Z.of_nat (length out) = count r) (seqZ 0 N)
       ((fun r : nat => take (Z.to_nat m) (drop (r * Z.to_nat m) held))
        <$> seq 0 (Z.to_nat N)).
Proof.
  pose proof m_bounds as Hm. pose proof held_length as Hhl.
  pose proof (layout_m_bounds n N Hn HN ltac:(lia)) as [_ HNm]. split.
  - assert (Hmul : Z.of_nat (Z.to_nat N * Z.to_nat m) = N * m)
      by (rewrite Nat2Z.inj_mul, !Z2Nat.id; lia).
    rewrite blocks_concat, firstn_all2
      by (unfold m in *; rewrite Z.mul_comm in Hmul;
          remember (Z.to_nat N * Z.to_nat (ceil_quot n N))%nat as q; lia).
    apply shuffled_content.
  - apply Forall2_same_length_lookup_2;
      [by rewrite length_seqZ, length_fmap, length_seq|].
    intros i r out Hr Hout. apply lookup_seqZ in Hr as [-> Hi].
    rewrite list_lookup_fmap, lookup_seq_lt in Hout by lia.
    injection Hout as <-.
    pose proof (count_min (0 + Z.of_nat i) ltac:(lia)) as Hcm.
    rewrite length_take, length_drop.
    assert (Hmul : Z.of_nat (i * Z.to_nat m) = (0 + Z.of_nat i) * m)
      by (rewrite Nat2Z.inj_mul, Z2Nat.id; lia).
    assert (Hblock : (0 + Z.of_nat i) * m < n).
    { pose proof (count_pos (0 + Z.of_nat i) ltac:(lia)). lia. }
    remember (i * Z.to_nat m)%nat as q. remember ((0 + Z.of_nat i) * m) as P.
    lia.
Qed.

(** *** The slices of every sender *)

Lemma sends_done (i : nat) send :
  sends !! i = Some send ->
  exists temp slices,
    temps2 !! i = Some (temp, sizes !!! i)
    /\ sender_done N (Z.of_nat i) m (first i) (sizes !!! i)
         (count (Z.of_nat i)) temp
         (resize (p_out (Z.of_nat i)) (count (Z.of_nat i))) slices send.
Proof.
  intros Hs. pose proof (lookup_lt_Some _ _ _ Hs) as Hi.
  rewrite sends_length in Hi.
  pose proof Hsends as Hall. apply mapM_Forall2 in Hall.
  destruct (Forall2_lookup_r _ _ _ i _ Hall Hs)
    as ([r [temp sz]] & Hx & Hrun).
  apply lookup_zip_Some in Hx as [Hr Hts].
  apply lookup_seqZ in Hr as [-> _].
  replace (0 + Z.of_nat i) with (Z.of_nat i) in Hrun by lia.
  destruct (temps2_lookup i _ Hts) as [Hsz Hlen]. cbn [fst snd] in *.
  pose proof m_bounds as Hm. pose proof n_pos.
  pose proof (first_bounds i Hi) as Hfb.
  pose proof (sizes_bound i Hi) as Hsb.
  pose proof (layout_m_bounds n N Hn HN ltac:(lia)) as [_ HNm].
  pose proof (count_pos (Z.of_nat i) ltac:(lia)) as Hc1.
  rewrite block_layout_m, block_layout_pos, allocsz_count in Hrun by lia.
  fold m in Hrun. fold (count (Z.of_nat i)) in Hrun.
  rewrite temps2_sizes in Hrun.
  rewrite phase3_first_prefix in Hrun;
    [|apply sizes_nonneg|rewrite sizes_sum; lia|rewrite sizes_length; lia].
  fold (first i) in Hrun. subst sz. exists temp.
  destruct (decide (first i + sizes !!! i = 0)) as [H0|H0].
  - assert (first i = 0) as Hf0 by lia.
    assert (sizes !!! i = 0) as Hs0 by lia. rewrite Hf0, Hs0 in Hrun.
    rewrite phase3_send_nothing_at_0 in Hrun; [done|lia|lia|lia].
  - destruct (phase3_send_done N (Z.of_nat i) m n (first i) (sizes !!! i)
                (count (Z.of_nat i)) temp
                (resize (p_out (Z.of_nat i)) (count (Z.of_nat i))))
      with (res := send) as [slices Hdone];
      first [ exact Hrun | lia | apply count_min; lia | apply resize_length
            | unfold m; lia | idtac ].
    by exists slices.
Qed.

Lemma traces_exist :
  exists traces : list (list message),
    length traces = Z.to_nat N
    /\ forall (i : nat) send slices,
         sends !! i = Some send -> traces !! i = Some slices ->
         exists temp,
           temps2 !! i = Some (temp, sizes !!! i)
           /\ sender_done N (Z.of_nat i) m (first i) (sizes !!! i)
                (count (Z.of_nat i)) temp
                (resize (p_out (Z.of_nat i)) (count (Z.of_nat i)))
                slices send.
Proof.
  destruct (list_choice
              (fun (i : nat) send slices =>
                 exists temp,
                   temps2 !! i = Some (temp, sizes !!! i)
                   /\ sender_done N (Z.of_nat i) m (first i) (sizes !!! i)
                        (count (Z.of_nat i)) temp
                        (resize (p_out (Z.of_nat i)) (count (Z.of_nat i)))
                        slices send) sends) as (traces & Hlen & Htr).
  - intros i send Hs. destruct (sends_done i send Hs) as (temp & slices & H).
    by exists slices, temp.
  - exists traces. split; [by rewrite Hlen, sends_length|done].
Qed.

(** *** A header that is transmitted late *)

Lemma sent_src (i : nat) remains perm sent msg :
  sends !! i = Some (remains, perm, sent) -> msg ∈ sent ->
  msg_src msg = Z.of_nat i.
Proof.
  intros Hs Hmsg. destruct (sends_lookup i _ _ _ Hs) as (Hok & _).
  by destruct (proj1 (Forall_forall _ _) Hok msg Hmsg) as (? & _).
Qed.

Lemma flying_src (i : nat) remains perm sent msg :
  sends !! i = Some (remains, perm, sent) -> msg ∈ flying ->
  msg_src msg = Z.of_nat i -> msg ∈ sent.
Proof.
  intros Hs Hmsg Hsrc.
  apply in_flight_elem in Hmsg as (j & rj & pj & sj & Hsj & Hmsg).
  pose proof (sent_src j _ _ _ _ Hsj Hmsg) as Hj.
  assert (j = i) as -> by lia. rewrite Hs in Hsj. by injection Hsj as _ _ ->.
Qed.

Lemma flying_at (i : nat) remains perm sent :
  sends !! i = Some (remains, perm, sent) ->
  exists before after, flying = before ++ sent ++ after.
Proof.
  intros Hs. unfold flying, in_flight.
  rewrite <- (take_drop_middle _ _ _ Hs), fmap_app, fmap_cons, concat_app.
  simpl. by eexists _, _.
Qed.

(** The second slice of a rank starts beyond the block of the rank the
    first one goes to, and no other slice of the rank goes there. *)
Lemma two_slices (i : nat) remains perm msgA msgB rest :
  sends !! i = Some (remains, perm, msgA :: msgB :: rest) ->
  1 <= msg_countp msgA ->
  (msg_dst msgA + 1) * m <= msg_firstp msgB <= n
  /\ forall msg, msg ∈ msgA :: msgB :: rest ->
       msg_dst msg = msg_dst msgA -> msg = msgA.
Proof.
  intros Hs HcA.
  pose proof (lookup_lt_Some _ _ _ Hs) as Hi. rewrite sends_length in Hi.
  pose proof (first_bounds i Hi) as Hfb.
  destruct (sends_done i _ Hs) as (temp & slices & _ & Hdone).
  destruct Hdone as (Hok & _ & _ & Hsent & _ & _ & _ & Hwhole).
  destruct (sends_lookup i _ _ _ Hs) as (_ & Hss & _).
  assert (Hin : forall msg, msg ∈ msgA :: msgB :: rest ->
            slice_of N (Z.of_nat i) m (first i) (sizes !!! i) temp msg
            /\ whole_slice m (first i) (sizes !!! i) msg).
  { intros msg Hmsg. rewrite Hsent in Hmsg.
    apply list_elem_of_filter in Hmsg as [_ Hmsg]. split.
    - exact (proj1 (Forall_forall _ _) Hok msg Hmsg).
    - exact (proj1 (Forall_forall _ _) Hwhole msg Hmsg). }
  destruct (Hin msgA ltac:(constructor))
    as [(_ & _ & _ & _ & HfA & HeA & _ & _) [HendA _]].
  unfold msg_end in *.
  assert (Hsz : 1 <= sizes !!! i) by lia.
  assert (Hlater : forall msg, msg ∈ msgB :: rest ->
            (msg_dst msgA + 1) * m <= msg_firstp msg <= n
            /\ msg_firstp msg < (msg_dst msg + 1) * m).
  { intros msg Hmsg.
    apply StronglySorted_inv in Hss as [_ Hall].
    pose proof (proj1 (Forall_forall _ _) Hall msg Hmsg) as Hbef.
    unfold msg_before, msg_end in Hbef.
    destruct (Hin msg ltac:(by constructor))
      as [(_ & _ & _ & Hhi & _ & He & _ & _) [_ Hne]].
    specialize (Hne Hsz). unfold msg_end in *. lia. }
  split; [apply Hlater; constructor|].
  intros msg Hmsg Hd. apply elem_of_cons in Hmsg as [->|Hmsg]; [done|].
  exfalso. destruct (Hlater msg Hmsg) as [Hlo Hhi]. rewrite Hd in Hhi. lia.
Qed.

(** Handing over the first slice of a rank with the header of its second
    slice is within what the transport may do. *)
Lemma late_header_legal (i : nat) remains perm msgA msgB rest (r : Z) :
  sends !! i = Some (remains, perm, msgA :: msgB :: rest) ->
  1 <= msg_countp msgA ->
  may_deliver flying (filter (fun msg => msg_dst msg = r) flying)
    (late_header (header_of msgB) (Z.of_nat i) (msg_dst msgA) r
       (filter (fun msg => msg_dst msg = r) flying)).
Proof.
  intros Hs HcA. eexists. split; [reflexivity|].
  unfold late_header.
  apply Forall2_fmap_r, Forall_Forall2_diag, Forall_forall.
  intros msg Hmsg. simpl.
  apply list_elem_of_filter in Hmsg as [Hdst Hmsg].
  destruct ((msg_src msg =? Z.of_nat i) && (msg_dst msg =? msg_dst msgA))
    eqn:Hc.
  - apply andb_true_iff in Hc as [Hsrc Hd].
    apply Z.eqb_eq in Hsrc. apply Z.eqb_eq in Hd.
    assert (msg = msgA) as ->.
    { apply (proj2 (two_slices i _ _ _ _ _ Hs HcA)); [|done].
      by eapply flying_src. }
    destruct (flying_at i _ _ _ Hs) as (before & after & Hfl).
    assert (HB : msg_src msgB = Z.of_nat i)
      by (eapply sent_src; [exact Hs|]; by do 2 constructor).
    exists (length before), (header_of msgB).
    assert (Hat : flying !! length before = Some msgA)
      by (by rewrite Hfl, lookup_app_r, Nat.sub_diag by lia).
    split; [done|]. split; [|done].
    unfold buf_after. rewrite Hat, Hfl, drop_app_length. cbn [app].
    rewrite filter_cons_True by done.
    rewrite filter_cons_True by congruence.
    rewrite !fmap_cons. by do 2 constructor.
  - apply list_elem_of_lookup_1 in Hmsg as [j Hj].
    exists j, (header_of msg). split; [done|].
    split; [by apply buf_after_own|by destruct msg].
Qed.

(** The rank that is handed that slice stops in its receive loop. *)
Lemma late_header_faults (i : nat) remains perm msgA msgB rest :
  sends !! i = Some (remains, perm, msgA :: msgB :: rest) ->
  1 <= msg_countp msgA ->
  exists f,
    mapM (fun '(r, (remains, perm, _)) =>
            phase3_recv (lay_pos (block_layout n N r)) remains perm
              (late_header (header_of msgB) (Z.of_nat i) (msg_dst msgA) r
                 (filter (fun msg => msg_dst msg = r) flying)))
         (zip (seqZ 0 N) sends) = Fault f.
Proof.
  intros Hs HcA.
  destruct (two_slices i _ _ _ _ _ Hs HcA) as [HB Huniq].
  destruct (sends_lookup i _ _ _ Hs) as (Hok & _).
  apply Forall_cons in Hok as [HokA _].
  destruct HokA as (HsrcA & HdA & HneA & HloA & HhiA & HfA & HeA & _ & HplA).
  set (d := msg_dst msgA) in *.
  destruct (lookup_lt_is_Some_2 sends (Z.to_nat d))
    as [[[remd permd] sentd] Hsd]; [rewrite sends_length; lia|].
  destruct (inbox_facts (Z.to_nat d) _ _ _ Hsd)
    as (Hpos & Hlen & Hfits & Hsorted & Hsum).
  rewrite Z2Nat.id in Hpos, Hfits, Hsorted, Hsum by lia.
  assert (HAin : msgA ∈ filter (fun msg => msg_dst msg = d) flying).
  { apply list_elem_of_filter. split; [done|].
    destruct (flying_at i _ _ _ Hs) as (before & after & ->).
    rewrite !elem_of_app. right. left. constructor. }
  apply list_elem_of_split in HAin as (pre & post & Hsplit).
  set (late := fun msg : message =>
         if (msg_src msg =? Z.of_nat i) && (msg_dst msg =? d)
         then with_header (header_of msgB) msg else msg).
  assert (Hpre : late <$> pre = pre).
  { rewrite <- (list_fmap_id pre) at 2. apply list_fmap_ext.
    intros k x Hx. unfold late. simpl.
    destruct ((msg_src x =? Z.of_nat i) && (msg_dst x =? d)) eqn:Hc; [|done].
    exfalso. apply andb_true_iff in Hc as [Hsrc Hd].
    apply Z.eqb_eq in Hsrc. apply Z.eqb_eq in Hd.
    apply list_elem_of_lookup_2 in Hx.
    assert (Hxin : x ∈ filter (fun msg => msg_dst msg = d) flying)
      by (rewrite Hsplit, elem_of_app; by left).
    apply list_elem_of_filter in Hxin as [_ Hxf].
    assert (x = msgA) as ->.
    { apply Huniq; [|done]. by eapply flying_src. }
    rewrite Hsplit in Hsorted.
    pose proof (StronglySorted_app_1_elem_of _ _ _ msgA msgA Hsorted Hx
                  ltac:(constructor)) as Hbef.
    unfold msg_before, msg_end in Hbef. lia. }
  assert (HlateA : late msgA = with_header (header_of msgB) msgA).
  { unfold late. by rewrite HsrcA, !Z.eqb_refl. }
  rewrite Hsplit, Forall_app, Forall_cons in Hfits.
  destruct Hfits as (Hfpre & HfA' & Hfpost).
  rewrite Hsplit, fmap_app, fmap_cons, sumZ_app in Hsum.
  change (sumZ (msg_countp msgA :: (msg_countp <$> post)))
    with (msg_countp msgA + sumZ (msg_countp <$> post)) in Hsum.
  assert (Hnn : 0 <= sumZ (msg_countp <$> post)).
  { apply sumZ_nonneg, Forall_fmap. eapply Forall_impl; [exact Hfpost|].
    intros a (? & _). simpl. lia. }
  replace ((d + 1) * m) with (d * m + m) in * by ring.
  pose proof m_bounds as Hm.
  destruct (phase3_recv_foreign_header (d * m)
              (remd - sumZ (msg_countp <$> pre))
              (deliver (d * m) permd pre) (header_of msgB) msgA
              (late <$> post)) as [f Hf].
  { lia. }
  { intros Hnil. rewrite Hnil in HplA. simpl in HplA. lia. }
  { cbn [header_of fst]. lia. }
  { rewrite deliver_length. cbn [header_of fst]. lia. }
  apply (mapM_fault _ _ (d, (remd, permd, sentd)) f).
  - apply list_elem_of_lookup. exists (Z.to_nat d).
    apply lookup_zip_Some. split; [|done].
    apply lookup_seqZ. lia.
  - rewrite Hpos, Hsplit. unfold late_header. fold late.
    rewrite fmap_app, fmap_cons, Hpre, HlateA.
    rewrite phase3_recv_app; [exact Hf|done|lia].
Qed.

Variable traces : list (list message).
Hypothesis Htl : length traces = Z.to_nat N.
Hypothesis Htraces :
  forall (i : nat) send slices,
    sends !! i = Some send -> traces !! i = Some slices ->
    exists temp,
      temps2 !! i = Some (temp, sizes !!! i)
      /\ sender_done N (Z.of_nat i) m (first i) (sizes !!! i)
           (count (Z.of_nat i)) temp
           (resize (p_out (Z.of_nat i)) (count (Z.of_nat i))) slices send.

Lemma trace_slice (i : nat) slices msg :
  traces !! i = Some slices -> msg ∈ slices ->
  msg_src msg = Z.of_nat i /\ 0 <= msg_dst msg < N
  /\ msg_dst msg * m <= msg_firstp msg
  /\ msg_end msg <= (msg_dst msg + 1) * m
  /\ first i <= msg_firstp msg /\ msg_end msg <= first i + sizes !!! i
  /\ 0 <= msg_countp msg
  /\ msg_payload msg
     = take (Z.to_nat (msg_countp msg))
         (drop (Z.to_nat (msg_firstp msg)) held).
Proof.
  intros Htr Hmsg. pose proof (lookup_lt_Some _ _ _ Htr) as Hi.
  rewrite Htl in Hi.
  destruct (lookup_lt_is_Some_2 sends i) as [send Hs];
    [by rewrite sends_length|].
  destruct (Htraces i send slices Hs Htr) as (temp & Hts & Hdone).
  destruct send as [[remains perm] sent].
  destruct Hdone as (Hok & _).
  pose proof (proj1 (Forall_forall _ _) Hok msg Hmsg)
    as (Hsrc & Hdst & Hlo & Hhi & Hf & He & Hc & Hpl).
  repeat split; try done; try lia.
  rewrite Hpl, <- (held_block i temp Hts).
  destruct (temps2_lookup i _ Hts) as [_ Hlen]. cbn [fst snd] in Hlen.
  pose proof (first_bounds i Hi) as Hfb. unfold msg_end in *.
  rewrite take_drop_sub by lia. do 2 f_equal. lia.
Qed.

(** The slices of all senders, in rank order. *)
Let all_slices : list message := concat traces.

Lemma trace_sorted (i : nat) slices :
  traces !! i = Some slices -> StronglySorted msg_before slices.
Proof.
  intros Htr. pose proof (lookup_lt_Some _ _ _ Htr) as Hi.
  rewrite Htl in Hi.
  destruct (lookup_lt_is_Some_2 sends i) as [send Hs];
    [by rewrite sends_length|].
  destruct (Htraces i send slices Hs Htr) as (temp & Hts & Hdone).
  destruct send as [[remains perm] sent]. by destruct Hdone as (_ & ? & _).
Qed.

Lemma all_slices_sorted : StronglySorted msg_before all_slices.
Proof.
  apply StronglySorted_concat.
  - apply Forall_lookup. intros i slices Htr. by apply (trace_sorted i).
  - intros i j la lb a b Hij Hi Hj Ha Hb.
    pose proof (lookup_lt_Some _ _ _ Hj) as Hjn. rewrite Htl in Hjn.
    destruct (trace_slice i la a Hi Ha) as (_ & _ & _ & _ & _ & Hae & _).
    destruct (trace_slice j lb b Hj Hb) as (_ & _ & _ & _ & Hbf & _).
    pose proof (first_mono i j Hij ltac:(lia)). unfold msg_before. lia.
Qed.

Lemma in_flight_slices :
  flying = filter (fun msg => msg_dst msg <> msg_src msg) all_slices.
Proof.
  unfold flying, in_flight, all_slices. rewrite filter_concat. f_equal.
  apply list_eq. intros i. rewrite !list_lookup_fmap.
  destruct (sends !! i) as [[[remains perm] sent]|] eqn:Hs.
  - destruct (lookup_lt_is_Some_2 traces i) as [slices Htr].
    { rewrite Htl, <- sends_length. by eapply lookup_lt_Some. }
    rewrite Htr. simpl. f_equal.
    destruct (Htraces i _ slices Hs Htr) as (temp & Hts & Hdone).
    destruct Hdone as (_ & _ & _ & -> & _).
    apply filter_ext_in. intros msg Hmsg.
    destruct (trace_slice i slices msg Htr Hmsg) as (-> & _). done.
  - apply lookup_ge_None in Hs. rewrite sends_length, <- Htl in Hs.
    apply lookup_ge_None in Hs. by rewrite Hs.
Qed.

Lemma slices_of_rank (i : nat) slices :
  traces !! i = Some slices ->
  filter (fun msg => msg_src msg = Z.of_nat i) all_slices = slices.
Proof.
  intros Htr. unfold all_slices.
  pose proof (filter_src_concat traces 0 i) as Hf. simpl in Hf.
  rewrite Hf; [by rewrite Htr|].
  intros j sl msg Hj Hmsg.
  by destruct (trace_slice j sl msg Hj Hmsg) as (-> & _).
Qed.

(** The slices addressed to rank [i]: the one it keeps and the ones it
    receives. *)
Lemma rank_slices (i : nat) slices :
  traces !! i = Some slices ->
  Permutation (filter (fun msg => msg_dst msg = Z.of_nat i) all_slices)
    (filter (fun msg => msg_dst msg = Z.of_nat i) slices
     ++ filter (fun msg => msg_dst msg = Z.of_nat i) flying).
Proof.
  intros Htr.
  rewrite (filter_split (fun msg => msg_dst msg = Z.of_nat i)
             (fun msg => msg_src msg = Z.of_nat i) all_slices).
  rewrite <- (slices_of_rank i slices Htr).
  rewrite in_flight_slices, !list_filter_filter.
  apply reflexive_eq. f_equal. apply list_filter_iff. intros msg.
  split; intros [Hd Hs]; (split; [done|]); congruence.
Qed.

(** What a slice addressed to rank [i] looks like from the receiving
    side. *)
Lemma rank_slice_facts (i : nat) msg :
  (i < Z.to_nat N)%nat ->
  msg ∈ filter (fun msg => msg_dst msg = Z.of_nat i) all_slices ->
  Z.of_nat i * m <= msg_firstp msg
  /\ msg_end msg <= Z.of_nat i * m + count (Z.of_nat i)
  /\ 0 <= msg_countp msg
  /\ msg_payload msg
     = take (Z.to_nat (msg_countp msg))
         (drop (Z.to_nat (msg_firstp msg)) held).
Proof.
  intros Hi Hmsg. apply list_elem_of_filter in Hmsg as [Hdst Hmsg].
  unfold all_slices in Hmsg.
  apply list_elem_of_In, in_concat in Hmsg as (sl & Hsl & Hmsg).
  apply list_elem_of_In, list_elem_of_lookup in Hsl as [j Hj].
  apply list_elem_of_In in Hmsg.
  destruct (trace_slice j sl msg Hj Hmsg)
    as (_ & _ & Hlo & Hhi & Hf & He & Hc & Hpl).
  pose proof (lookup_lt_Some _ _ _ Hj) as Hjn. rewrite Htl in Hjn.
  pose proof (first_bounds j Hjn) as Hfb.
  pose proof (count_min (Z.of_nat i) ltac:(lia)) as Hcm.
  rewrite Hdst in *. repeat split; try done; lia.
Qed.

(** A rank whose receive loop returns holds its block of [held]. *)
Lemma rank_output (i : nat) remains perm sent out inbox' :
  sends !! i = Some (remains, perm, sent) ->
  Permutation inbox'
    (filter (fun msg => msg_dst msg = Z.of_nat i) flying) ->
  phase3_recv (lay_pos (block_layout n N (Z.of_nat i))) remains perm inbox'
  = Ok out ->
  out = take (Z.to_nat (count (Z.of_nat i)))
          (drop (Z.to_nat (Z.of_nat i * m)) held).
Proof.
  intros Hs Hperm Hrun.
  rewrite (inbox_independent i _ _ _ _ Hs Hperm) in Hrun.
  pose proof (lookup_lt_Some _ _ _ Hs) as Hi. rewrite sends_length in Hi.
  destruct (lookup_lt_is_Some_2 traces i) as [slices Htr]; [lia|].
  destruct (Htraces i _ slices Hs Htr)
    as (temp & Hts & _ & _ & _ & _ & Hpm & Hrem & _).
  pose proof (rank_slices i slices Htr) as HS.
  set (inbox := filter (fun msg => msg_dst msg = Z.of_nat i) flying) in *.
  set (local := filter (fun msg => msg_dst msg = Z.of_nat i) slices) in *.
  set (S := filter (fun msg => msg_dst msg = Z.of_nat i) all_slices) in *.
  set (perm0 := resize (p_out (Z.of_nat i)) (count (Z.of_nat i))) in *.
  pose proof m_bounds as Hm. pose proof n_pos as Hn1.
  pose proof (count_min (Z.of_nat i) ltac:(lia)) as Hcm.
  pose proof (count_pos (Z.of_nat i) ltac:(lia)) as Hc1.
  pose proof held_length as Hhl.
  assert (Hp0 : length perm0 = Z.to_nat (count (Z.of_nat i)))
    by apply resize_length.
  assert (Hsorted : StronglySorted msg_before S)
    by (apply StronglySorted_filter, all_slices_sorted).
  assert (Hfacts : Forall (fun msg =>
            Z.of_nat i * m <= msg_firstp msg
            /\ msg_end msg <= Z.of_nat i * m + count (Z.of_nat i)
            /\ 0 <= msg_countp msg
            /\ msg_payload msg
               = take (Z.to_nat (msg_countp msg))
                   (drop (Z.to_nat (msg_firstp msg)) held)) S).
  { apply Forall_forall. intros msg Hmsg. by apply rank_slice_facts. }
  assert (Hfits : forall len, len = Z.to_nat (count (Z.of_nat i)) ->
            Forall (msg_fits (Z.of_nat i * m) len) S).
  { intros len ->. eapply Forall_impl; [exact Hfacts|]. simpl.
    intros msg (Hlo & Hhi & Hc & Hpl). unfold msg_fits, msg_end in *.
    rewrite Hpl, length_take, length_drop. lia. }
  assert (HsumS : sumZ (msg_countp <$> S) <= count (Z.of_nat i)).
  { pose proof (chain_sum S (Z.of_nat i * m)
                  (Z.of_nat i * m + count (Z.of_nat i)) Hsorted) as Hcs.
    assert (sumZ (msg_countp <$> S)
            <= Z.max 0 (Z.of_nat i * m + count (Z.of_nat i)
                        - Z.of_nat i * m)); [|lia].
    apply Hcs. eapply Forall_impl; [exact Hfacts|]. simpl.
    intros msg (? & ? & ? & _). done. }
  assert (Hsplit : sumZ (msg_countp <$> S)
                   = sumZ (msg_countp <$> local) + sumZ (msg_countp <$> inbox)).
  { rewrite (sumZ_Permutation _ _ (fmap_Permutation msg_countp _ _ HS)).
    by rewrite fmap_app, sumZ_app. }
  assert (Hlocal : 0 <= sumZ (msg_countp <$> local)).
  { apply sumZ_nonneg, Forall_fmap, Forall_forall. intros msg Hmsg. simpl.
    assert (Hin : msg ∈ S) by (rewrite HS; apply elem_of_app; by left).
    by destruct (proj1 (Forall_forall _ _) Hfacts msg Hin) as (_ & _ & ? & _). }
  assert (Hlen : length perm = Z.to_nat (count (Z.of_nat i)))
    by (rewrite Hpm, deliver_length; done).
  rewrite block_layout_pos in Hrun by lia. fold m in Hrun.
  rewrite phase3_recv_delivers in Hrun; [| |lia].
  2:{ apply Forall_forall. intros msg Hmsg.
      apply (proj1 (Forall_forall _ _) (Hfits _ Hlen)).
      rewrite HS. apply elem_of_app. by right. }
  case_decide as Hexact; [|done]. injection Hrun as <-.
  rewrite Hpm, <- deliver_app.
  assert (Hfull : sumZ (msg_countp <$> S)
                  = Z.of_nat i * m + count (Z.of_nat i) - Z.of_nat i * m)
    by lia.
  apply list_eq. intros j.
  destruct (decide (j < Z.to_nat (count (Z.of_nat i)))%nat) as [Hj|Hj].
  - destruct (chain_cover S (Z.of_nat i * m)
                (Z.of_nat i * m + count (Z.of_nat i))
                (Z.of_nat i * m + Z.of_nat j) Hsorted)
      as (msg & Hmsg & Hcov); [|done|lia|].
    { eapply Forall_impl; [exact Hfacts|]. simpl.
      intros a (? & ? & ? & _). done. }
    destruct (proj1 (Forall_forall _ _) Hfacts msg Hmsg)
      as (Hlo & Hhi & Hc & Hpl).
    unfold msg_end in *.
    destruct (lookup_lt_is_Some_2 held
                (Z.to_nat (Z.of_nat i * m + Z.of_nat j))) as [v Hv]; [lia|].
    rewrite lookup_take_lt, lookup_drop by lia.
    replace (Z.to_nat (Z.of_nat i * m) + j)%nat
      with (Z.to_nat (Z.of_nat i * m + Z.of_nat j)) by lia.
    rewrite Hv.
    replace j with (Z.to_nat (msg_firstp msg - Z.of_nat i * m)
                    + Z.to_nat (Z.of_nat i * m + Z.of_nat j
                                - msg_firstp msg))%nat at 1 by lia.
    apply deliver_lookup_in.
    + apply Forall_forall. intros a Ha.
      apply (proj1 (Forall_forall _ _) (Hfits _ Hp0)). by rewrite HS.
    + apply (all_disjoint_Permutation S); [done|].
      by apply StronglySorted_all_disjoint.
    + by rewrite <- HS.
    + rewrite Hpl, lookup_take_lt, lookup_drop by lia.
      rewrite <- Hv. f_equal. lia.
  - rewrite !lookup_ge_None_2; [done| |].
    + rewrite length_take, length_drop. lia.
    + rewrite deliver_length. lia.
Qed.

Lemma outputs_blocks (arrival : Z -> list message -> list message) outs :
  (forall r l, Permutation (arrival r l) l) ->
  mapM (fun '(r, (remains, perm, _)) =>
          phase3_recv (lay_pos (block_layout n N r)) remains perm
            (arrival r (filter (fun msg => msg_dst msg = r) flying)))
       (zip (seqZ 0 N) sends) = Ok outs ->
  outs = (fun r : nat => take (Z.to_nat m) (drop (r * Z.to_nat m) held))
         <$> seq 0 (Z.to_nat N).
Proof.
  intros Harr Hrun. apply mapM_Forall2 in Hrun.
  pose proof (Forall2_length _ _ _ Hrun) as Hlen.
  rewrite length_zip, length_seqZ, sends_length in Hlen.
  pose proof m_bounds as Hm. pose proof held_length as Hhl.
  apply list_eq. intros i. rewrite list_lookup_fmap.
  destruct (decide (i < Z.to_nat N)%nat) as [Hi|Hi].
  - rewrite lookup_seq_lt by done. simpl.
    destruct (lookup_lt_is_Some_2 outs i) as [out Hout]; [lia|].
    rewrite Hout. f_equal.
    destruct (Forall2_lookup_r _ _ _ i out Hrun Hout)
      as ([r [[remains perm] sent]] & Hx & Hrecv).
    apply lookup_zip_Some in Hx as [Hr Hs].
    apply lookup_seqZ in Hr as [-> _].
    replace (0 + Z.of_nat i) with (Z.of_nat i) in Hrecv by lia.
    rewrite (rank_output i remains perm sent out _ Hs (Harr _ _) Hrecv).
    pose proof (count_min (Z.of_nat i) ltac:(lia)) as Hcm.
    replace (Z.to_nat (Z.of_nat i * m)) with (i * Z.to_nat m)%nat by nia.
    apply list_eq. intros j.
    destruct (decide (j < Z.to_nat (count (Z.of_nat i)))%nat) as [Hj|Hj].
    + by rewrite !lookup_take_lt by lia.
    + rewrite lookup_take_ge by lia. symmetry.
      destruct (decide (j < Z.to_nat m)%nat);
        [|by rewrite lookup_take_ge by lia].
      rewrite lookup_take_lt, lookup_drop by lia.
      apply lookup_ge_None_2. nia.
  - rewrite lookup_seq_ge by lia. apply lookup_ge_None_2. lia.
Qed.
End Arrival.


(** X16.  The race of C9 does not depend on the generator.  For
    [0 <= n], [1 <= N] and [n + N < 2^31]: in every run that gets as far
    as the sender loops of Phase 3, if some rank [i] sends two slices or
    more and the first of them is not empty, then the transport may hand
    over that first slice with the header of the second one (on every
    rank what is handed over is within [may_deliver]), and the run then
    ends in a fault (the rank that receives the slice is told a position
    beyond its vector). *)
Theorem permute_late_header_faults (L : library) (n N : Z)
    (p_out : Z -> list Z) (sends : list (Z * list Z * list message))
    (i : nat) (remains : Z) (perm : list Z) (msgA msgB : message)
    (rest : list message) :
  library_ok L -> 0 <= n -> 1 <= N -> n + N < 2 ^ 31 ->
  permute_sends L n N p_out = Ok sends ->
  sends !! i = Some (remains, perm, msgA :: msgB :: rest) ->
  1 <= msg_countp msgA ->
  (forall r,
     may_deliver (in_flight sends)
       (filter (fun msg => msg_dst msg = r) (in_flight sends))
       (late_header (header_of msgB) (Z.of_nat i) (msg_dst msgA) r
          (filter (fun msg => msg_dst msg = r) (in_flight sends))))
  /\ exists f,
       permute L (late_header (header_of msgB) (Z.of_nat i) (msg_dst msgA))
         n N p_out = Fault f.
Proof.
  intros HL Hn HN Hfit Hsends Hs HcA.
  unfold permute. rewrite Hsends. cbn [rbind].
  revert Hsends. unfold permute_sends. cbv zeta.
  destruct (mapM (fun r => run_phase1_pack _ _ _ _) (seqZ 0 N))
    as [packs|] eqn:Hpacks; cbn [rbind]; [|done].
  destruct (mapM (run_phase1_exchange _ packs) (seqZ 0 N))
    as [temps|] eqn:Htemps; cbn [rbind]; [|done].
  destruct (mapM _ temps) as [temps2|] eqn:Htemps2; cbn [rbind]; [|done].
  intros Hsends. split.
  - intros r.
    exact (late_header_legal L HL n N p_out Hn HN Hfit packs Hpacks temps
             Htemps temps2 Htemps2 sends Hsends i _ _ _ _ _ r Hs HcA).
  - exact (late_header_faults L HL n N p_out Hn HN Hfit packs Hpacks temps
             Htemps temps2 Htemps2 sends Hsends i _ _ _ _ _ Hs HcA).
Qed.

(** The run of C9: rank 2 sends the slices with the headers (6, 2) and
    (8, 8). *)
Lemma permute_late_header_faults_witness :
  exists f,
    permute (tape_library [0; 1; 2; 2; 2; 2; 2; 2])
      (late_header (8, 8) 2 0) 24 3 (fun _ => []) = Fault f.
Proof.
  assert (Hsends :
    permute_sends (tape_library [0; 1; 2; 2; 2; 2; 2; 2]) 24 3 (fun _ => [])
    = Ok [(5, [16; 8; 0; 0; 0; 0; 0; 0], []);
          (8, [0; 0; 0; 0; 0; 0; 0; 0], [Message 1 0 3 3 [17; 9; 1]]);
          (0, [15; 18; 19; 20; 21; 4; 3; 2],
           [Message 2 0 6 2 [22; 14];
            Message 2 1 8 8 [5; 6; 7; 10; 11; 12; 13; 23]])]).
  { vm_compute. reflexivity. }
  exact (proj2 (permute_late_header_faults
                  (tape_library [0; 1; 2; 2; 2; 2; 2; 2]) 24 3 (fun _ => [])
                  _ 2%nat 0 [15; 18; 19; 20; 21; 4; 3; 2]
                  (Message 2 0 6 2 [22; 14])
                  (Message 2 1 8 8 [5; 6; 7; 10; 11; 12; 13; 23]) []
                  (tape_library_ok _) ltac:(lia) ltac:(lia) ltac:(lia)
                  Hsends eq_refl ltac:(simpl; lia))).
Defined.

(** X15.  Under an eager transport ([MPI_Isend] reads the header out of
    [buf] at the call, and every rank is handed exactly the slices
    addressed to it, in any order) and for [0 <= n], [1 <= N],
    [n + N < 2^31]: two runs of [permute] with the same generator (the
    source default-constructs it in each phase), the same [n], group
    size and caller vectors give the same result on every rank,
    whatever the order in which the slices of Phase 3 arrive in either
    run. *)
Theorem permute_deterministic (L : library)
    (arrival1 arrival2 : Z -> list message -> list message)
    (n N : Z) (p_out : Z -> list Z) :
  library_ok L -> 0 <= n -> 1 <= N -> n + N < 2 ^ 31 ->
  eager arrival1 -> eager arrival2 ->
  permute L arrival1 n N p_out = permute L arrival2 n N p_out.
Proof.
  intros HL Hn HN Hfit H1 H2. unfold permute, permute_sends. cbv zeta.
  destruct (mapM (fun r => run_phase1_pack _ _ _ _) (seqZ 0 N))
    as [packs|] eqn:Hpacks; cbn [rbind]; [|done].
  destruct (mapM (run_phase1_exchange _ packs) (seqZ 0 N))
    as [temps|] eqn:Htemps; cbn [rbind]; [|done].
  destruct (mapM _ temps) as [temps2|] eqn:Htemps2; cbn [rbind]; [|done].
  destruct (mapM _ (zip (seqZ 0 N) temps2)) as [sends|] eqn:Hsends;
    cbn [rbind]; [|done].
  by apply (recv_independent L HL n N p_out Hn HN Hfit packs Hpacks temps
              Htemps temps2 Htemps2 sends Hsends).
Qed.

(** The run of the theorem above: rank 0 is sent two slices, one by rank
    1 and one by rank 2, and stores them in either order. *)
Lemma permute_deterministic_witness :
  (exists sends,
     permute_sends (tape_library [0; 1; 2; 2; 2; 2; 2; 2]) 24 3
       (fun _ => []) = Ok sends
     /\ filter (fun msg => msg_dst msg = 0) (in_flight sends)
        = [Message 1 0 3 3 [17; 9; 1]; Message 2 0 6 2 [22; 14]])
  /\ permute (tape_library [0; 1; 2; 2; 2; 2; 2; 2]) (fun _ inbox => inbox)
       24 3 (fun _ => [])
     = permute (tape_library [0; 1; 2; 2; 2; 2; 2; 2])
         (fun _ inbox => reverse inbox) 24 3 (fun _ => []).
Proof.
  split.
  - eexists. split; vm_compute; reflexivity.
  - apply permute_deterministic.
    + apply tape_library_ok.
    + lia.
    + lia.
    + lia.
    + intros r l. reflexivity.
    + intros r l. apply reverse_Permutation.
Defined.

(** ** Phase 1 on the whole group *)

Lemma pack_stage_total (L : library) (n N : Z) :
  library_ok L -> 0 <= n -> 1 <= N -> n + N < 2 ^ 31 ->
  (N - 1) * ceil_quot n N < n ->
  exists packs,
    mapM (fun r => run_phase1_pack L (lay_count (block_layout n N r))
                     (lay_pos (block_layout n N r)) (u32 N))
         (seqZ 0 N) = Ok packs.
Proof.
  intros HL Hn HN Hfit Hfull. apply mapM_total. intros r Hr.
  apply elem_of_seqZ in Hr.
  pose proof (block_layout_count n N Hn HN ltac:(lia) r ltac:(lia)) as Hc.
  pose proof (layout_m_bounds n N Hn HN ltac:(lia)) as [Hm Hm'].
  assert (Hrm : r * ceil_quot n N <= (N - 1) * ceil_quot n N) by nia.
  assert (Hm1 : 1 <= ceil_quot n N) by nia.
  rewrite u32_small by lia.
  destruct (run_phase1_pack_ok L (lay_count (block_layout n N r))
              (lay_pos (block_layout n N r)) N HL ltac:(lia) ltac:(lia))
    as (packed & sendcnts & Hrun & _).
  rewrite Hrun. by eexists.
Qed.

(** X6.  For [0 <= n] and [1 <= N] with [n + N < 2^31]: when the layout
    gives every rank at least one index ([(N-1) * ceil(n/N) < n]),
    Phase 1 completes on every rank (packing and both collectives), each
    receive buffer has the length [total] that goes with it, and the
    buffers of the group together hold every index [0 .. n-1] exactly
    once. *)
Theorem run_phase1_scatters_every_index (L : library) (n N : Z) :
  library_ok L -> 0 <= n -> 1 <= N -> n + N < 2 ^ 31 ->
  (N - 1) * ceil_quot n N < n ->
  exists packs temps,
    mapM (fun r => run_phase1_pack L (lay_count (block_layout n N r))
                     (lay_pos (block_layout n N r)) (u32 N))
         (seqZ 0 N) = Ok packs
    /\ mapM (run_phase1_exchange (u32 N) packs) (seqZ 0 N) = Ok temps
    /\ length temps = Z.to_nat N
    /\ Forall (fun ts => Z.of_nat (length ts.1) = ts.2) temps
    /\ Permutation (concat (fst <$> temps)) (seqZ 0 n).
Proof.
  intros HL Hn HN Hfit Hfull.
  destruct (pack_stage_total L n N HL Hn HN Hfit Hfull) as [packs Hpacks].
  pose proof (exchange_result L HL n N Hn HN Hfit packs Hpacks) as Htemps.
  match type of Htemps with _ = Ok ?t => set (temps := t) in * end.
  clearbody temps. exists packs, temps. split; [done|]. split; [done|].
  split; [eapply temps_length; exact Htemps|]. split.
  - apply Forall_lookup. intros i ts Hts.
    by destruct (temps_lookup L HL n N Hn HN Hfit packs Hpacks _ Htemps
                   i ts Hts) as [_ ?].
  - exact (temps_content L HL n N Hn HN Hfit packs Hpacks _ Htemps).
Qed.

Lemma run_phase1_scatters_every_index_witness :
  exists packs temps,
    mapM (fun r => run_phase1_pack (tape_library [1; 0; 2; 1; 2; 0])
                     (lay_count (block_layout 7 3 r))
                     (lay_pos (block_layout 7 3 r)) (u32 3))
         (seqZ 0 3) = Ok packs
    /\ mapM (run_phase1_exchange (u32 3) packs) (seqZ 0 3) = Ok temps
    /\ length temps = Z.to_nat 3
    /\ Forall (fun ts => Z.of_nat (length ts.1) = ts.2) temps
    /\ Permutation (concat (fst <$> temps)) (seqZ 0 7).
Proof.
  apply (run_phase1_scatters_every_index
           (tape_library [1; 0; 2; 1; 2; 0]) 7 3).
  - apply tape_library_ok.
  - lia.
  - lia.
  - lia.
  - vm_compute. reflexivity.
Defined.

(** ** The result of [permute] *)

Lemma permute_ok_blocks (L : library)
    (arrival : Z -> list message -> list message) (n N : Z)
    (p_out : Z -> list Z) (outs : list (list Z)) :
  library_ok L -> 0 <= n -> 1 <= N -> n + N < 2 ^ 31 ->
  (forall r l, Permutation (arrival r l) l) ->
  permute L arrival n N p_out = Ok outs ->
  exists packs temps temps2,
    mapM (fun r => run_phase1_pack L (lay_count (block_layout n N r))
                     (lay_pos (block_layout n N r)) (u32 N))
         (seqZ 0 N) = Ok packs
    /\ mapM (run_phase1_exchange (u32 N) packs) (seqZ 0 N) = Ok temps
    /\ mapM (fun '(temp, sz) => temp <- run_phase2 L temp sz;; Ok (temp, sz))
            temps = Ok temps2
    /\ outs = (fun r : nat =>
                 take (Z.to_nat (ceil_quot n N))
                   (drop (r * Z.to_nat (ceil_quot n N))
                      (concat (fst <$> temps2))))
              <$> seq 0 (Z.to_nat N).
Proof.
  intros HL Hn HN Hfit Harr. unfold permute, permute_sends. cbv zeta.
  destruct (mapM (fun r => run_phase1_pack _ _ _ _) (seqZ 0 N))
    as [packs|] eqn:Hpacks; cbn [rbind]; [|done].
  destruct (mapM (run_phase1_exchange _ packs) (seqZ 0 N))
    as [temps|] eqn:Htemps; cbn [rbind]; [|done].
  destruct (mapM _ temps) as [temps2|] eqn:Htemps2; cbn [rbind]; [|done].
  destruct (mapM _ (zip (seqZ 0 N) temps2)) as [sends|] eqn:Hsends;
    cbn [rbind]; [|done].
  intros Hrun. exists packs, temps, temps2.
  split; [done|]. split; [done|]. split; [done|].
  destruct (traces_exist L HL n N p_out Hn HN Hfit packs Hpacks temps Htemps
              temps2 Htemps2 sends Hsends) as (traces & Htl & Htr).
  exact (outputs_blocks L HL n N p_out Hn HN Hfit packs Hpacks temps
           Htemps temps2 Htemps2 sends Hsends traces Htl Htr arrival outs
           Harr Hrun).
Qed.

(** X1.  Under an eager transport ([MPI_Isend] reads the header out of
    [buf] at the call, and every rank is handed exactly the slices
    addressed to it, in any order) and for [0 <= n], [1 <= N],
    [n + N < 2^31]: whenever [permute] returns on the group, the output
    vectors of the ranks, taken in rank order, hold every value
    [0 .. n-1] exactly once, and the vector of rank [r] has [count_r]
    elements. *)
Theorem permute_returns_a_permutation (L : library)
    (arrival : Z -> list message -> list message) (n N : Z)
    (p_out : Z -> list Z) (outs : list (list Z)) :
  library_ok L -> 0 <= n -> 1 <= N -> n + N < 2 ^ 31 ->
  eager arrival ->
  permute L arrival n N p_out = Ok outs ->
  Permutation (concat outs) (seqZ 0 n)
  /\ Forall2 (fun r out =>
                Z.of_nat (length out) = lay_count (block_layout n N r))
       (seqZ 0 N) outs.
Proof.
  intros HL Hn HN Hfit Harr Hrun.
  destruct (permute_ok_blocks L arrival n N p_out outs HL Hn HN Hfit Harr Hrun)
    as (packs & temps & temps2 & Hpacks & Htemps & Htemps2 & ->).
  exact (blocks_permutation L HL n N Hn HN Hfit packs Hpacks temps Htemps
           temps2 Htemps2).
Qed.

(** A run in which three slices are in flight and rank 0 stores its two
    in the reverse order of the calls. *)
Lemma permute_returns_a_permutation_witness :
  Permutation
    (concat [[16; 8; 0; 17; 9; 1; 22; 14]; [5; 6; 7; 10; 11; 12; 13; 23];
             [15; 18; 19; 20; 21; 4; 3; 2]]) (seqZ 0 24)
  /\ Forall2 (fun r out =>
                Z.of_nat (length out) = lay_count (block_layout 24 3 r))
       (seqZ 0 3)
       [[16; 8; 0; 17; 9; 1; 22; 14]; [5; 6; 7; 10; 11; 12; 13; 23];
        [15; 18; 19; 20; 21; 4; 3; 2]].
Proof.
  apply (permute_returns_a_permutation
           (tape_library [0; 1; 2; 2; 2; 2; 2; 2])
           (fun _ inbox => reverse inbox) 24 3 (fun _ => [])).
  - apply tape_library_ok.
  - lia.
  - lia.
  - lia.
  - intros r l. apply reverse_Permutation.
  - vm_compute. reflexivity.
Defined.

(** ** [permute] on a single process *)

Lemma phase3_recv_nothing_left pos perm inbox :
  phase3_recv pos 0 perm inbox = Ok perm.
Proof. by destruct inbox. Qed.

Lemma handled_end_single (n : Z) : 1 <= n -> handled_end n 0 n = n.
Proof.
  intros Hn. unfold handled_end. rewrite decide_False; [lia|].
  intros [H2 Hmod]. rewrite Z.mod_small in Hmod by lia. lia.
Qed.

Lemma permute_single (L : library) (n : Z) (p_out : Z -> list Z) :
  library_ok L -> 1 <= n -> n + 1 < 2 ^ 31 ->
  exists out, forall arrival, permute L arrival n 1 p_out = Ok [out].
Proof.
  intros HL Hn Hfit.
  assert (Hn0 : 0 <= n) by lia. assert (HN : 1 <= 1) by lia.
  destruct (pack_stage_total L n 1 HL Hn0 HN Hfit ltac:(lia))
    as [packs Hpacks].
  pose proof (exchange_result L HL n 1 Hn0 HN Hfit packs Hpacks) as Htemps.
  match type of Htemps with _ = Ok ?t => set (temps := t) in * end.
  clearbody temps.
  destruct (phase2_stage_total L HL n 1 Hn0 HN Hfit packs Hpacks temps Htemps)
    as [temps2 Htemps2].
  pose proof (sizes_sum L HL n 1 Hn0 HN Hfit packs Hpacks) as Hsum.
  destruct (send_stage_total L HL n 1 p_out Hn0 HN Hfit packs Hpacks temps
              Htemps temps2 Htemps2) as [sends Hsends].
  { intros i Hi. assert (i = 0%nat) as -> by lia. revert Hsum. simpl. lia. }
  assert (Hsl : length sends = Z.to_nat 1)
    by (eapply (sends_length L n 1 p_out);
        [lia|exact Htemps|exact Htemps2|exact Hsends]).
  destruct sends as [|[[remains perm] sent] [|? ?]]; try done.
  destruct (sends_done L HL n 1 p_out Hn0 HN Hfit packs Hpacks temps Htemps
              temps2 Htemps2 _ Hsends 0%nat _ eq_refl)
    as (temp & slices & Hts & Hok & _ & Hslices & Hsent & _ & Hrem & _).
  assert (Hdst : Forall (fun msg => msg_dst msg = 0) slices).
  { eapply Forall_impl; [exact Hok|]. intros msg (_ & Hd & _). simpl. lia. }
  assert (Hm : ceil_quot n 1 = n)
    by (rewrite ceil_quot_exact by lia; rewrite Z.div_1_r; lia).
  assert (Hc : lay_count (block_layout n 1 0) = n).
  { rewrite (block_layout_count n 1 Hn0 HN) by lia. rewrite Hm. lia. }
  change (Z.of_nat 0) with 0 in *.
  match type of Hsum with sumZ ?l = _ => set (sizes := l) in * end.
  assert (Hs00 : sizes !!! 0%nat = n)
    by (revert Hsum; unfold sizes; simpl; lia).
  change (sumZ (take 0 sizes)) with 0 in *.
  rewrite Hs00, Hm, handled_end_single in Hslices by done.
  rewrite Hc in Hrem.
  rewrite (filter_all (fun msg => msg_dst msg = 0)) in Hrem by done.
  assert (remains = 0) as -> by lia.
  exists perm. intros arrival. unfold permute, permute_sends. cbv zeta.
  rewrite Hpacks. cbn [rbind]. rewrite Htemps. cbn [rbind].
  rewrite Htemps2. cbn [rbind]. rewrite Hsends. cbn [rbind].
  change (seqZ 0 1) with [0]. cbn [zip zip_with mapM].
  by rewrite phase3_recv_nothing_left.
Qed.

(** X2.  On a single process with [1 <= n] the call always returns, whatever
    the generator draws, and the output vector holds [0 .. n-1], each
    once. *)
Theorem permute_single_process (L : library) (n : Z) (p_out : Z -> list Z) :
  library_ok L -> 1 <= n -> n + 1 < 2 ^ 31 ->
  exists out,
    Permutation out (seqZ 0 n)
    /\ forall arrival, permute L arrival n 1 p_out = Ok [out].
Proof.
  intros HL Hn Hfit. destruct (permute_single L n p_out HL Hn Hfit)
    as [out Hout].
  exists out. split; [|done].
  assert (Hn0 : 0 <= n) by lia. assert (HN : 1 <= 1) by lia.
  destruct (permute_ok_blocks L (fun _ l => l) n 1 p_out [out] HL Hn0 HN
              Hfit ltac:(done) (Hout _))
    as (packs & temps & temps2 & Hpacks & Htemps & Htemps2 & Hblocks).
  destruct (blocks_permutation L HL n 1 Hn0 HN Hfit packs Hpacks temps Htemps
              temps2 Htemps2) as [Hp _].
  rewrite <- Hblocks in Hp. simpl in Hp. by rewrite app_nil_r in Hp.
Qed.

Lemma permute_single_process_witness :
  exists out,
    Permutation out (seqZ 0 32)
    /\ forall arrival,
         permute (tape_library [3; 1; 4; 1; 5; 9; 2; 6]) arrival 32 1
           (fun _ => []) = Ok [out].
Proof.
  apply (permute_single_process (tape_library [3; 1; 4; 1; 5; 9; 2; 6]) 32
           (fun _ => [])).
  - apply tape_library_ok.
  - lia.
  - lia.
Defined.

(** ** As many processes as indices *)

Lemma square_stages (L : library) (N : Z) (p_out : Z -> list Z) :
  library_ok L -> 2 <= N -> N + N < 2 ^ 31 ->
  exists packs temps temps2 e,
    mapM (fun r => run_phase1_pack L (lay_count (block_layout N N r))
                     (lay_pos (block_layout N N r)) (u32 N))
         (seqZ 0 N) = Ok packs
    /\ mapM (run_phase1_exchange (u32 N) packs) (seqZ 0 N) = Ok temps
    /\ mapM (fun '(temp, sz) => temp <- run_phase2 L temp sz;; Ok (temp, sz))
            temps = Ok temps2
    /\ mapM (fun '(r, (temp, sz)) =>
               phase3_send N r temp sz (lay_m (block_layout N N r))
                 (lay_pos (block_layout N N r))
                 (lay_count (block_layout N N r))
                 (phase3_first (snd <$> temps2) r)
                 (resize (p_out r) (lay_allocsz (block_layout N N r))))
            (zip (seqZ 0 N) temps2) = Fault e.
Proof.
  intros HL HN2 Hfit.
  assert (Hn : 0 <= N) by lia. assert (HN : 1 <= N) by lia.
  assert (Hfull : (N - 1) * ceil_quot N N < N).
  { pose proof (layout_m_bounds N N Hn HN ltac:(lia)) as [_ [Hlo _]].
    destruct (decide (ceil_quot N N <= 1)) as [|Hgt]; [nia|].
    assert (1 * N <= (ceil_quot N N - 1) * N)
      by (apply Z.mul_le_mono_nonneg_r; lia).
    lia. }
  destruct (pack_stage_total L N N HL Hn HN Hfit Hfull) as [packs Hpacks].
  pose proof (exchange_result L HL N N Hn HN Hfit packs Hpacks) as Htemps.
  match type of Htemps with _ = Ok ?t => set (temps := t) in * end.
  clearbody temps.
  destruct (phase2_stage_total L HL N N Hn HN Hfit packs Hpacks temps Htemps)
    as [temps2 Htemps2].
  destruct (send_stage_square L HL N N p_out Hn HN Hfit packs Hpacks temps
              Htemps temps2 Htemps2 eq_refl HN2) as [e He].
  by exists packs, temps, temps2, e.
Qed.

(** X4.  With as many processes as indices ([n = N >= 2]) the call never
    returns: every rank draws the same single destination [d], so all
    indices land on rank [d]; when [d <> 0] rank 0 holds nothing at base
    position 0 and reads its empty buffer, and when [d = 0] rank 1 holds
    nothing at base position [N] and addresses rank [N]. *)
Theorem permute_square_fails (L : library)
    (arrival : Z -> list message -> list message) (N : Z)
    (p_out : Z -> list Z) :
  library_ok L -> 2 <= N -> N + N < 2 ^ 31 ->
  exists e, permute L arrival N N p_out = Fault e.
Proof.
  intros HL HN2 Hfit.
  destruct (square_stages L N p_out HL HN2 Hfit)
    as (packs & temps & temps2 & e & Hpacks & Htemps & Htemps2 & Hsends).
  exists e. unfold permute, permute_sends. cbv zeta.
  rewrite Hpacks. cbn [rbind]. rewrite Htemps. cbn [rbind].
  rewrite Htemps2. cbn [rbind]. by rewrite Hsends.
Qed.

Lemma permute_square_fails_witness :
  exists e,
    permute (tape_library [2; 0; 1]) (fun _ inbox => inbox) 3 3
      (fun _ => []) = Fault e.
Proof.
  apply (permute_square_fails (tape_library [2; 0; 1])
           (fun _ inbox => inbox) 3 (fun _ => [])).
  - apply tape_library_ok.
  - lia.
  - lia.
Defined.

(** ** Successful runs agree *)

(** X5.  Under an eager transport ([MPI_Isend] reads the header out of
    [buf] at the call, and every rank is handed exactly the slices
    addressed to it, in any order) and for [0 <= n], [1 <= N],
    [n + N < 2^31]: two calls that both return give the same output on
    every rank, whatever the caller's vectors held before the call and
    in whatever order the slices of Phase 3 arrived. *)
Theorem permute_result_ignores_caller_vectors (L : library)
    (arrival1 arrival2 : Z -> list message -> list message) (n N : Z)
    (p_out1 p_out2 : Z -> list Z) (outs1 outs2 : list (list Z)) :
  library_ok L -> 0 <= n -> 1 <= N -> n + N < 2 ^ 31 ->
  eager arrival1 -> eager arrival2 ->
  permute L arrival1 n N p_out1 = Ok outs1 ->
  permute L arrival2 n N p_out2 = Ok outs2 ->
  outs1 = outs2.
Proof.
  intros HL Hn HN Hfit Ha1 Ha2 H1 H2.
  destruct (permute_ok_blocks L arrival1 n N p_out1 outs1 HL Hn HN Hfit
              Ha1 H1) as (packs & temps & temps2 & Hp & Ht & Ht2 & ->).
  destruct (permute_ok_blocks L arrival2 n N p_out2 outs2 HL Hn HN Hfit
              Ha2 H2) as (packs' & temps' & temps2' & Hp' & Ht' & Ht2' & ->).
  assert (packs' = packs) as -> by congruence.
  assert (temps' = temps) as -> by congruence.
  by assert (temps2' = temps2) as -> by congruence.
Qed.

(** Two runs with three slices in flight: one stores them in the order
    of the calls into empty vectors, the other in the reverse order into
    vectors that held other values. *)
Lemma permute_result_ignores_caller_vectors_witness :
  exists outs1 outs2,
    permute (tape_library [0; 1; 2; 2; 2; 2; 2; 2]) (fun _ inbox => inbox)
      24 3 (fun _ => []) = Ok outs1
    /\ permute (tape_library [0; 1; 2; 2; 2; 2; 2; 2])
         (fun _ inbox => reverse inbox) 24 3
         (fun r => [r; 5; 5; 5; 5; 5; 5; 5; 5; 5]) = Ok outs2
    /\ outs1 = outs2.
Proof.
  eexists _, _. split; [vm_compute; reflexivity|].
  split; [vm_compute; reflexivity|].
  apply (permute_result_ignores_caller_vectors
           (tape_library [0; 1; 2; 2; 2; 2; 2; 2])
           (fun _ inbox => inbox) (fun _ inbox => reverse inbox) 24 3
           (fun _ => []) (fun r => [r; 5; 5; 5; 5; 5; 5; 5; 5; 5])).
  - apply tape_library_ok.
  - lia.
  - lia.
  - lia.
  - intros r l. reflexivity.
  - intros r l. apply reverse_Permutation.
  - vm_compute. reflexivity.
  - vm_compute. reflexivity.
Defined.

(** ** The driver *)

(** X14.  The shipped driver completes on one process.  Started on 32
    processes, or on more than 32, it never completes: with 32 the
    sender loop of Phase 3 fails on rank 0 or rank 1, with more than 32
    the last rank owns no index and Phase 1 leaves its arrays. *)
Theorem main_outcome (L : library)
    (arrival : Z -> list message -> list message) :
  library_ok L ->
  main L arrival 1 = Ok tt
  /\ (exists e, main L arrival 32 = Fault e)
  /\ forall N, 33 <= N < 2 ^ 30 -> main L arrival N = Fault OutOfBounds.
Proof.
  intros HL. unfold main. split; [|split].
  - destruct (permute_single L 32 (fun _ => []) HL ltac:(lia) ltac:(lia))
      as [out Hout].
    by rewrite Hout.
  - destruct (square_stages L 32 (fun _ => []) HL ltac:(lia) ltac:(lia))
      as (packs & temps & temps2 & e & Hpacks & Htemps & Htemps2 & Hsends).
    exists e. unfold permute, permute_sends. cbv zeta.
    rewrite Hpacks. cbn [rbind]. rewrite Htemps. cbn [rbind].
    rewrite Htemps2. cbn [rbind]. by rewrite Hsends.
  - intros N HN.
    rewrite (permute_empty_rank_fault L arrival 32 N (fun _ => []) HL);
      [done|lia|lia|lia|].
    apply fewer_indices_than_ranks; lia.
Qed.

Lemma main_outcome_witness :
  main (tape_library [3; 1; 4; 1; 5]) (fun _ inbox => inbox) 1 = Ok tt
  /\ (exists e,
        main (tape_library [3; 1; 4; 1; 5]) (fun _ inbox => inbox) 32
        = Fault e)
  /\ forall N, 33 <= N < 2 ^ 30 ->
       main (tape_library [3; 1; 4; 1; 5]) (fun _ inbox => inbox) N
       = Fault OutOfBounds.
Proof.
  apply (main_outcome (tape_library [3; 1; 4; 1; 5]) (fun _ inbox => inbox)).
  apply tape_library_ok.
Defined.
